(** * Indoor-Navigation: the summary service, the map and digitization
      endpoints, the pathfinder and the navigation session.

    Strings are sequences of 8-bit code units, JavaScript exceptions are an
    explicit completion type, module-level state (the summary cache, the
    document store) is passed explicitly, and every external collaborator
    (the network, the hosted model, the document store's faults) is an
    oracle given as an argument. *)

From Stdlib Require Import ZArith QArith Qround Qabs Lia List Bool.
From Stdlib Require Reals Qreals Lra Lqa.
From stdpp Require Import base option list gmap strings pretty.
Import ListNotations.

Set Default Proof Using "Type".
Local Open Scope string_scope.
Local Open Scope list_scope.

(* ===================================================================== *)
(** ** JavaScript run-time values and completions *)
(* ===================================================================== *)

Module JS.

(** What a thrown value carries: the model keeps the error message and the
    optional numeric [status] some handlers read from it. *)
Record Error := mkError { message : string; err_status : option Z }.

Definition TypeError (msg : string) : Error := mkError msg None.

(** The completion of an expression or an awaited promise: a value, or a
    thrown exception (a rejected promise). *)
Inductive Completion (A : Type) : Type :=
| Normal (a : A)
| Throw (e : Error).
Arguments Normal {A} a.
Arguments Throw {A} e.

Definition bindC {A B} (c : Completion A) (k : A -> Completion B) : Completion B :=
  match c with
  | Normal a => k a
  | Throw e => Throw e
  end.

(** [try { c } catch (e) { h e }] *)
Definition try_catch {A} (c : Completion A) (h : Error -> Completion A) : Completion A :=
  match c with
  | Normal a => Normal a
  | Throw e => h e
  end.

(** The values [JSON.parse] and [await req.json()] yield, plus [undefined]
    (the value of an absent property). Numbers are exact rationals. *)
#[warnings="-register-all"]
Inductive Value : Type :=
| VUndefined
| VNull
| VBool (b : bool)
| VNum (q : Q)
| VStr (s : string)
| VArr (items : list Value)
| VObj (fields : list (string * Value)).

(** ToBoolean: [undefined], [null], [false], [0] and the empty string are
    falsy; objects and arrays are truthy. *)
Definition truthy (v : Value) : bool :=
  match v with
  | VUndefined | VNull => false
  | VBool b => b
  | VNum q => negb (Qeq_bool q 0)
  | VStr s => negb (String.eqb s "")
  | VArr _ | VObj _ => true
  end.

(** Truthiness of an optional string ([string | undefined]). *)
Definition truthy_str (o : option string) : bool :=
  match o with
  | Some s => negb (String.eqb s "")
  | None => false
  end.

(** Own property of an object literal; with a repeated key [JSON.parse]
    keeps the last occurrence. *)
Fixpoint lookup_field (k : string) (fields : list (string * Value)) : Value :=
  match fields with
  | [] => VUndefined
  | (k', v) :: rest =>
      match lookup_field k rest with
      | VUndefined => if String.eqb k k' then v else VUndefined
      | found => found
      end
  end.

(** [v.k] for a key [k] that is no built-in property of arrays, strings,
    numbers or booleans: reading it from [null] or [undefined] throws a
    TypeError, from an object it is the own property, from anything else
    it is [undefined]. *)
Definition get_prop (v : Value) (k : string) : Completion Value :=
  match v with
  | VUndefined =>
      Throw (TypeError ("Cannot read properties of undefined (reading '" +:+ k +:+ "')"))
  | VNull =>
      Throw (TypeError ("Cannot read properties of null (reading '" +:+ k +:+ "')"))
  | VObj fields => Normal (lookup_field k fields)
  | _ => Normal VUndefined
  end.

(** [Array.isArray] *)
Definition isArray (v : Value) : bool :=
  match v with VArr _ => true | _ => false end.

(** The elements of an array. *)
Definition array_items (v : Value) : list Value :=
  match v with VArr items => items | _ => [] end.

(** [items[i]], [undefined] past the end. *)
Definition element (items : list Value) (i : nat) : Value :=
  nth i items VUndefined.

(** ECMAScript WhiteSpace and LineTerminator code units below 256:
    TAB, LF, VT, FF, CR, SP and NBSP. *)
Definition is_whitespace (c : Ascii.ascii) : bool :=
  let n := Ascii.nat_of_ascii c in
  (((9 <=? n) && (n <=? 13)) || (n =? 32) || (n =? 160))%nat.

Fixpoint trim_start (s : string) : string :=
  match s with
  | EmptyString => EmptyString
  | String c rest => if is_whitespace c then trim_start rest else s
  end.

(** [trim_end s] drops the trailing whitespace: a character is kept when it
    is not whitespace or when something is kept after it. *)
Fixpoint trim_end (s : string) : string :=
  match s with
  | EmptyString => EmptyString
  | String c rest =>
      match trim_end rest with
      | EmptyString => if is_whitespace c then EmptyString else String c EmptyString
      | kept => String c kept
      end
  end.

(** [String.prototype.trim] *)
Definition trim (s : string) : string := trim_end (trim_start s).

(** [Array.prototype.join] on strings *)
Fixpoint join (sep : string) (l : list string) : string :=
  match l with
  | [] => ""
  | [s] => s
  | s :: rest => s +:+ sep +:+ join sep rest
  end.

(** [String.prototype.startsWith] *)
Fixpoint startsWith (s p : string) : bool :=
  match p, s with
  | EmptyString, _ => true
  | String _ _, EmptyString => false
  | String a p', String b s' => Ascii.eqb a b && startsWith s' p'
  end.

(** [s.replace(pat, "")] with a string pattern: the first occurrence of
    [pat] is removed, and [s] is returned unchanged when there is none. *)
Fixpoint drop_prefix (s p : string) : string :=
  match p, s with
  | String _ p', String _ s' => drop_prefix s' p'
  | _, _ => s
  end.

Fixpoint replace_first_empty (s pat : string) : string :=
  if startsWith s pat then drop_prefix s pat
  else match s with
       | EmptyString => EmptyString
       | String c rest => String c (replace_first_empty rest pat)
       end.

(** [String.prototype.includes] *)
Fixpoint includes (s pat : string) : bool :=
  startsWith s pat ||
  match s with
  | EmptyString => false
  | String _ rest => includes rest pat
  end.

(** [s.replace(/pat/g, "")] for a literal, non-empty [pat]: every
    occurrence, scanning from the left without overlap, is removed.
    [skip] counts the characters of a match still to be dropped. *)
Fixpoint remove_all_from (skip : nat) (s pat : string) : string :=
  match s with
  | EmptyString => EmptyString
  | String c rest =>
      match skip with
      | S k => remove_all_from k rest pat
      | O =>
          if startsWith s pat then remove_all_from (String.length pat - 1) rest pat
          else String c (remove_all_from 0 rest pat)
      end
  end.

Definition remove_all (s pat : string) : string := remove_all_from 0 s pat.

(** The string of one character. *)
Definition char (c : Ascii.ascii) : string := String c EmptyString.

(** A string that does not begin with whitespace. *)
Definition starts_unspaced (s : string) : Prop :=
  match s with
  | EmptyString => True
  | String c _ => is_whitespace c = false
  end.

(** *** Effects: state passing with exceptions

    A computation over a state [S] returns a completion and the state it
    reached; a thrown exception keeps the state reached so far, as the
    writes of a JavaScript function that throws are not undone. *)
Definition Eff (S A : Type) : Type := S -> Completion A * S.

Definition ret {S A} (a : A) : Eff S A := fun st => (Normal a, st).

Definition bind {S A B} (m : Eff S A) (k : A -> Eff S B) : Eff S B :=
  fun st =>
    match m st with
    | (Normal a, st') => k a st'
    | (Throw e, st') => (Throw e, st')
    end.

Definition lift {S A} (c : Completion A) : Eff S A := fun st => (c, st).

(** [try { m } catch (e) { h e }] *)
Definition catch {S A} (m : Eff S A) (h : Error -> Eff S A) : Eff S A :=
  fun st =>
    match m st with
    | (Normal a, st') => (Normal a, st')
    | (Throw e, st') => h e st'
    end.

Module Notations.
Notation "'let*' x ':=' m 'in' k" := (bind m (fun x => k))
  (at level 10, x name, m at level 100, k at level 200).
Notation "'letC' x ':=' c 'in' k" := (bindC c (fun x => k))
  (at level 10, x name, c at level 100, k at level 200).
End Notations.

(** *** Numbers

    A JavaScript Number is modelled as an exact rational or one of the
    three non-finite values; rounding to binary64 is not modelled here.
    Where a result depends on it (the image dimensions of the upload
    endpoint), the rounding is an explicit argument. *)
Inductive Number : Type :=
| Fin (q : Q)
| NaN
| PosInfinity
| NegInfinity.

(** Division by a positive finite constant. *)
Definition div_const (n : Number) (c : Q) : Number :=
  match n with
  | Fin q => Fin (q / c)%Q
  | other => other
  end.

(** [parseFloat(x.toFixed(2))] on a non-negative rational below 10^21:
    [toFixed] takes the integer [n] for which [n / 100 - x] is closest to
    zero, the larger one on a tie, and prints [n / 100]. *)
Definition round2_nonneg (q : Q) : Q :=
  Qred (Qmake (Qfloor (q * 100 + (1 # 2))%Q) 100).

(** [parseFloat(x.toFixed(2))]: [toFixed] prints a negative number as the
    sign followed by the digits of its absolute value, a number of
    magnitude 10^21 or more in the notation of [String(x)], which
    [parseFloat] reads back, and [NaN] and the infinities by name. *)
Definition toFixed2_parsed (n : Number) : Number :=
  match n with
  | Fin q =>
      let a := Qabs.Qabs q in
      if Qle_bool (inject_Z (10 ^ 21)) a then Fin q
      else if Qle_bool 0 q then Fin (round2_nonneg a)
      else Fin (- round2_nonneg a)%Q
  | other => other
  end.

End JS.

(* ===================================================================== *)
(** ** src/services/summaryService.ts *)
(* ===================================================================== *)

Module SummaryService.
Import JS JS.Notations.

(** The fields of [Node] (declared in types/navigation) that the service and
    the summary endpoint read. *)
Record Node := mkNode { id : string; name : string; type : string }.

Record GenerateSummaryParams := mkParams {
  nodes : list Node;
  mapId : string;
  isLastMap : bool
}.

(** The body of the POST to /api/navigation/summary: [{ nodes, isLastMap }]. *)
Record Request := mkRequest { req_nodes : list Node; req_isLastMap : bool }.

(** What [await fetch(...)] resolves to; [text] and [json] are the
    completions of [await response.text()] and [await response.json()]. *)
Record Response := mkResponse {
  ok : bool;
  status : Z;
  text : Completion string;
  json : Completion Value
}.

(** The narration collaborator: for a request, [fetch] either rejects
    (network error) or resolves to a response. *)
Definition Fetch := Request -> Completion Response.

(** The module state: the [summaryCache] map, and the log of the requests
    sent to the network so far (oldest first). *)
Record Service := mkService {
  summaryCache : gmap string string;
  requests : list Request
}.

Definition initial : Service := mkService ∅ [].

Abbreviation M := (Eff Service).

Definition cache_has (k : string) : M bool :=
  fun st => (Normal (bool_decide (is_Some (summaryCache st !! k))), st).

Definition cache_get (k : string) : M (option string) :=
  fun st => (Normal (summaryCache st !! k), st).

Definition cache_set (k v : string) : M unit :=
  fun st => (Normal tt, mkService (<[k := v]> (summaryCache st)) (requests st)).

(** [await fetch("/api/navigation/summary", ...)]: the request goes out,
    then the collaborator answers. *)
Definition do_fetch (fetch : Fetch) (rq : Request) : M Response :=
  fun st => (fetch rq, mkService (summaryCache st) (requests st ++ [rq])).

Definition cacheKeyOf (mapId : string) (nodes : list Node) (isLastMap : bool) : string :=
  let nodeIds := join "-" (map id nodes) in
  mapId +:+ "_" +:+ nodeIds +:+ "_" +:+ (if isLastMap then "final" else "intermediate").

(** The [try] block of [fetchSummary]. The calls to [console] are left out. *)
Definition fetchSummary_try (fetch : Fetch) (p : GenerateSummaryParams)
    (cacheKey : string) : M (option string) :=
  let* response := do_fetch fetch (mkRequest (nodes p) (isLastMap p)) in
  if negb (ok response) then
    let* errorText := lift (try_catch (text response) (fun _ => Normal "")) in
    ret None
  else
    let* data := lift (json response) in
    let* success := lift (get_prop data "success") in
    if truthy success then
      let* summary := lift (get_prop data "summary") in
      match summary with
      | VStr s =>
          if negb (String.eqb (trim s) "") then
            let normalizedSummary := trim s in
            let* _ := cache_set cacheKey normalizedSummary in
            ret (Some normalizedSummary)
          else
            let* _ := lift (get_prop data "error") in ret None
      | _ => let* _ := lift (get_prop data "error") in ret None
      end
    else
      let* _ := lift (get_prop data "error") in ret None.

(** [summaryService.fetchSummary]; [None] is [null]. *)
Definition fetchSummary (fetch : Fetch) (p : GenerateSummaryParams) : M (option string) :=
  if (length (nodes p) <? 2)%nat then ret None
  else
    let cacheKey := cacheKeyOf (mapId p) (nodes p) (isLastMap p) in
    let* hit := cache_has cacheKey in
    if hit then
      let* cached := cache_get cacheKey in
      ret (if truthy_str cached then cached else None)
    else
      catch (fetchSummary_try fetch p cacheKey) (fun err => ret None).

(** [summaryService.clearCache] *)
Definition clearCache : M unit :=
  fun st => (Normal tt, mkService ∅ (requests st)).

(** *** Calls that overlap

    [fetchSummary] is an async function: a call runs without interruption
    up to an [await], is suspended there, and goes on once the awaited
    promise has settled. In between, other calls on the service run. The
    cache is read before the first [await] and written after the last. *)

(** The three [await]s of [fetchSummary], each with what the awaited
    promise settles to. *)
Inductive Await :=
| AwaitFetch (fetching : Completion Response)
| AwaitText (response : Response)
| AwaitJson (response : Response).

(** A suspended call: its arguments, its [cacheKey], and where it waits. *)
Record Suspended := mkSuspended {
  call_args : GenerateSummaryParams;
  call_key : string;
  call_at : Await
}.

(** A stretch of a call ends with the call returned or suspended. *)
Inductive Stretch :=
| Returned (result : Completion (option string))
| Waiting (call : Suspended).

(** From the call to [await fetch(...)], or to a [return] before it. The
    request goes out when [fetch] is called. *)
Definition fetchSummary_begin (fetch : Fetch) (p : GenerateSummaryParams)
    (st : Service) : Stretch * Service :=
  if (length (nodes p) <? 2)%nat then (Returned (Normal None), st)
  else
    let cacheKey := cacheKeyOf (mapId p) (nodes p) (isLastMap p) in
    if bool_decide (is_Some (summaryCache st !! cacheKey)) then
      let cached := summaryCache st !! cacheKey in
      (Returned (Normal (if truthy_str cached then cached else None)), st)
    else
      let rq := mkRequest (nodes p) (isLastMap p) in
      (Waiting (mkSuspended p cacheKey (AwaitFetch (fetch rq))),
       mkService (summaryCache st) (requests st ++ [rq])).

(** The [try] block from [await response.json()] on, [data] being what the
    promise settled to. *)
Definition fetchSummary_after_json (cacheKey : string) (data : Value) : M (option string) :=
  let* success := lift (get_prop data "success") in
  if truthy success then
    let* summary := lift (get_prop data "summary") in
    match summary with
    | VStr s =>
        if negb (String.eqb (trim s) "") then
          let normalizedSummary := trim s in
          let* _ := cache_set cacheKey normalizedSummary in
          ret (Some normalizedSummary)
        else
          let* _ := lift (get_prop data "error") in ret None
    | _ => let* _ := lift (get_prop data "error") in ret None
    end
  else
    let* _ := lift (get_prop data "error") in ret None.

(** From a settled [await] to the next one, or to the [return]. A rejected
    promise, and whatever else is thrown in the [try] block, ends in the
    [catch], which returns null. *)
Definition fetchSummary_resume (call : Suspended) (st : Service) : Stretch * Service :=
  match call_at call with
  | AwaitFetch (Throw err) => (Returned (Normal None), st)
  | AwaitFetch (Normal response) =>
      if negb (ok response) then
        (Waiting (mkSuspended (call_args call) (call_key call) (AwaitText response)), st)
      else
        (Waiting (mkSuspended (call_args call) (call_key call) (AwaitJson response)), st)
  | AwaitText response => (Returned (Normal None), st)
  | AwaitJson response =>
      match catch (let* data := lift (json response) in
                   fetchSummary_after_json (call_key call) data)
                  (fun err => ret None) st with
      | (result, st') => (Returned result, st')
      end
  end.

(** A call that nothing interrupts: its stretches, one after the other. *)
Fixpoint uninterrupted (awaits : nat) (now : Stretch * Service)
    : option (Completion (option string) * Service) :=
  match now, awaits with
  | (Returned result, st), _ => Some (result, st)
  | (Waiting call, st), S awaits' => uninterrupted awaits' (fetchSummary_resume call st)
  | (Waiting call, st), O => None
  end.

(** The service with the calls under way, each under the number it was
    started with. *)
Record World := mkWorld {
  service : Service;
  suspended : gmap nat Suspended
}.

(** The module as loaded: an empty cache, nothing sent, no call under way. *)
Definition loaded : World := mkWorld initial ∅.

(** What can happen next: a call of [fetchSummary] is started, the promise
    a suspended call awaits settles, so that the call runs its next
    stretch, or [clearCache] is called. *)
Inductive Event :=
| Called (call : nat) (fetch : Fetch) (p : GenerateSummaryParams)
| Settled (call : nat)
| CacheCleared.

(** The world after an event, and the result of the call that returned at
    it, if one did. *)
Definition happen (e : Event) (w : World) : World * option (Completion (option string)) :=
  match e with
  | Called call fetch p =>
      match fetchSummary_begin fetch p (service w) with
      | (Returned result, st) => (mkWorld st (suspended w), Some result)
      | (Waiting s, st) => (mkWorld st (<[call := s]> (suspended w)), None)
      end
  | Settled call =>
      match suspended w !! call with
      | None => (w, None)
      | Some s =>
          match fetchSummary_resume s (service w) with
          | (Returned result, st) => (mkWorld st (delete call (suspended w)), Some result)
          | (Waiting s', st) => (mkWorld st (<[call := s']> (suspended w)), None)
          end
      end
  | CacheCleared => (mkWorld (snd (clearCache (service w))) (suspended w), None)
  end.

Fixpoint after_events (events : list Event) (w : World) : World :=
  match events with
  | [] => w
  | e :: rest => after_events rest (fst (happen e w))
  end.

(** A suspended call as [fetchSummary_begin] makes it: at least two nodes,
    and the key of its arguments. *)
Definition well_begun (s : Suspended) : Prop :=
  (2 <= length (nodes (call_args s)))%nat /\
  call_key s = cacheKeyOf (mapId (call_args s)) (nodes (call_args s)) (isLastMap (call_args s)).

(** No call under way will write the cache under [key]. *)
Definition none_under_way (key : string) (w : World) : Prop :=
  forall call s, suspended w !! call = Some s -> call_key s <> key.

(** A call on the service object, and the service after a sequence of
    calls, each run to completion before the next. *)
Inductive ServiceCall :=
| FetchSummary (fetch : Fetch) (p : GenerateSummaryParams)
| ClearCache.

Fixpoint after_service_calls (calls : list ServiceCall) (st : Service) : Service :=
  match calls with
  | [] => st
  | FetchSummary fetch p :: rest => after_service_calls rest (snd (fetchSummary fetch p st))
  | ClearCache :: rest => after_service_calls rest (snd (clearCache st))
  end.

(** Node ids that contain neither of the separators of the cache key. *)
Definition plain_ids (nodes : list Node) : Prop :=
  Forall (fun n => includes (id n) "-" = false /\ includes (id n) "_" = false) nodes.

(** The collaborator failures of the service: the fetch is rejected, the
    response is not OK, its body is not JSON, or the payload is unsuccessful
    or carries no non-blank summary string. *)
Inductive CollaboratorFailure : Completion Response -> Prop :=
| fetch_rejected e : CollaboratorFailure (Throw e)
| response_not_ok r : ok r = false -> CollaboratorFailure (Normal r)
| body_not_json r e : json r = Throw e -> CollaboratorFailure (Normal r)
| payload_unreadable r data e :
    json r = Normal data -> get_prop data "success" = Throw e ->
    CollaboratorFailure (Normal r)
| payload_unsuccessful r data v :
    json r = Normal data -> get_prop data "success" = Normal v -> truthy v = false ->
    CollaboratorFailure (Normal r)
| payload_summary_not_string r data v :
    json r = Normal data -> get_prop data "summary" = Normal v ->
    (forall s, v <> VStr s) ->
    CollaboratorFailure (Normal r)
| payload_summary_blank r data s :
    json r = Normal data -> get_prop data "summary" = Normal (VStr s) ->
    trim s = "" ->
    CollaboratorFailure (Normal r).

(** The four ways a call of [fetchSummary] ends: the path is too short;
    the summary is served from the cache; the collaborator was asked and
    no summary came of it; the collaborator was asked and its summary was
    cached. *)
Inductive FetchSummaryRun (p : GenerateSummaryParams) (st : Service)
    : Completion (option string) * Service -> Prop :=
| run_short :
    (length (nodes p) < 2)%nat ->
    FetchSummaryRun p st (Normal None, st)
| run_cached s :
    (2 <= length (nodes p))%nat ->
    summaryCache st !! cacheKeyOf (mapId p) (nodes p) (isLastMap p) = Some s ->
    FetchSummaryRun p st (Normal (if String.eqb s "" then None else Some s), st)
| run_failed :
    (2 <= length (nodes p))%nat ->
    summaryCache st !! cacheKeyOf (mapId p) (nodes p) (isLastMap p) = None ->
    FetchSummaryRun p st
      (Normal None,
       mkService (summaryCache st) (requests st ++ [mkRequest (nodes p) (isLastMap p)]))
| run_fetched s :
    (2 <= length (nodes p))%nat ->
    summaryCache st !! cacheKeyOf (mapId p) (nodes p) (isLastMap p) = None ->
    s <> "" ->
    FetchSummaryRun p st
      (Normal (Some s),
       mkService (<[cacheKeyOf (mapId p) (nodes p) (isLastMap p) := s]> (summaryCache st))
                 (requests st ++ [mkRequest (nodes p) (isLastMap p)])).

(** Inputs used to run the service: a two-node path on one floor and a
    collaborator that answers every request with the same payload. *)
Definition lobby_to_lift : GenerateSummaryParams :=
  mkParams [mkNode "n1" "Lobby" "ROOM"; mkNode "n2" "Lift" "GATEWAY"] "floor-1" false.

Definition answering (payload : Value) : Fetch :=
  fun _ => Normal (mkResponse true 200 (Normal "") (Normal payload)).

Definition summary_payload (s : string) : Value :=
  VObj [("success", VBool true); ("summary", VStr s)].

Definition server_error : Fetch :=
  fun _ => Normal (mkResponse false 500 (Normal "Failed to generate summary")
                     (Normal (VObj [("success", VBool false)]))).

End SummaryService.

(* ===================================================================== *)
(** ** The summary endpoint: POST /api/navigation/summary
       (src/unnamed/part_001) *)
(* ===================================================================== *)

Module SummaryEndpoint.
Import JS JS.Notations.

(** [NextResponse.json(body, { status })] *)
Record Reply := mkReply { status : Z; body : Value }.

Definition failure (st : Z) (error : string) : Reply :=
  mkReply st (VObj [("success", VBool false); ("error", VStr error)]).

Section POST.
(** [process.env.GEMINI_API_KEY] *)
Variable apiKey : option string.
(** Building the prompt from [nodes] and [isLastMap], sending it to the
    hosted model and reading [response.text()]: the text the model
    answers, or the exception one of these steps throws (reading
    [node.type] of a null entry, a rejected model call). *)
Variable generateText : list Value -> Value -> Completion string.

Definition POST_try (reqJson : Completion Value) : Completion Reply :=
  if negb (truthy_str apiKey) then
    Normal (failure 500 "GEMINI_API_KEY is not set")
  else
    letC parsed := reqJson in
    letC nodes := get_prop parsed "nodes" in
    letC isLastMap := get_prop parsed "isLastMap" in
    if negb (truthy nodes) || negb (isArray nodes)
       || (length (array_items nodes) <? 2)%nat then
      Normal (failure 400 "Invalid path nodes provided")
    else
      letC text := generateText (array_items nodes) isLastMap in
      let summary := trim text in
      if String.eqb summary "" then
        Normal (failure 502 "Empty summary response from model")
      else
        Normal (mkReply 200 (VObj [("success", VBool true); ("summary", VStr summary)])).

(** [POST(req)], with [reqJson] the completion of [await req.json()]. *)
Definition POST (reqJson : Completion Value) : Reply :=
  match POST_try reqJson with
  | Normal reply => reply
  | Throw _ => failure 500 "Failed to generate summary"
  end.
End POST.

End SummaryEndpoint.

(* ===================================================================== *)
(** ** src/hooks/useVoice.ts *)
(* ===================================================================== *)

Module UseVoice.
Import JS.

(** The calls the hook makes on [window.speechSynthesis]: [cancel()] and
    [speak(utterance)], the utterance made from a text with rate 0.9,
    pitch 1 and volume 1. *)
Inductive SynthesisCall :=
| Cancel
| Speak (text : string).

(** What the browser tells an utterance: [onstart], [onend] and
    [onerror] with the [error] of the event. *)
Inductive UtteranceEvent :=
| Started
| Ended
| Errored (error : string).

(** The hook: whether [synthesisRef.current] is set, the two pieces of
    state, and the calls made on the synthesizer so far, oldest first. *)
Record Voice := mkVoice {
  synthesisRef : bool;
  isSpeaking : bool;
  hasBrowserSupport : bool;
  calls : list SynthesisCall
}.

Definition initial : Voice := mkVoice false false false [].

(** The effect run on mount; [available] tells whether
    [window.speechSynthesis] exists. *)
Definition mounted (available : bool) (v : Voice) : Voice :=
  if available then mkVoice true (isSpeaking v) true (calls v) else v.

Definition stop (v : Voice) : Voice :=
  if synthesisRef v then
    mkVoice (synthesisRef v) false (hasBrowserSupport v) (calls v ++ [Cancel])
  else v.

Definition speak (text : string) (v : Voice) : Voice :=
  if negb (synthesisRef v) then v
  else
    let cancelled := calls v ++ [Cancel] in
    if String.eqb (trim text) "" then
      mkVoice (synthesisRef v) false (hasBrowserSupport v) cancelled
    else
      mkVoice (synthesisRef v) (isSpeaking v) (hasBrowserSupport v)
              (cancelled ++ [Speak text]).

(** An event of the utterance handed over by the [i]-th call: only an
    utterance has handlers, and each of them sets [isSpeaking]. *)
Definition heard (i : nat) (e : UtteranceEvent) (v : Voice) : Voice :=
  match calls v !! i with
  | Some (Speak _) =>
      mkVoice (synthesisRef v)
              (match e with Started => true | Ended => false | Errored _ => false end)
              (hasBrowserSupport v) (calls v)
  | _ => v
  end.

(** The cleanup on unmount. *)
Definition unmounted (v : Voice) : Voice :=
  if synthesisRef v then
    mkVoice (synthesisRef v) (isSpeaking v) (hasBrowserSupport v) (calls v ++ [Cancel])
  else v.

(** What happens to a hook, and the hook after a sequence of such steps. *)
Inductive Step :=
| Mount (available : bool)
| CallStop
| CallSpeak (text : string)
| Hear (i : nat) (e : UtteranceEvent)
| Unmount.

Definition step (s : Step) (v : Voice) : Voice :=
  match s with
  | Mount available => mounted available v
  | CallStop => stop v
  | CallSpeak text => speak text v
  | Hear i e => heard i e v
  | Unmount => unmounted v
  end.

Fixpoint after (steps : list Step) (v : Voice) : Voice :=
  match steps with
  | [] => v
  | s :: rest => after rest (step s v)
  end.

(** What holds of a hook at all times: an utterance follows a
    cancellation and is not blank; the ref is set exactly when support is
    reported; without it nothing was called and nothing is speaking; and
    what is speaking was handed over. *)
Record voice_invariant (v : Voice) : Prop := {
  spoken_after_cancel :
    forall i text, calls v !! i = Some (Speak text) ->
      trim text <> "" /\ exists j, i = S j /\ calls v !! j = Some Cancel;
  support_known : synthesisRef v = hasBrowserSupport v;
  silent_without_support :
    synthesisRef v = false -> calls v = [] /\ isSpeaking v = false;
  speaking_was_spoken :
    isSpeaking v = true -> exists i text, calls v !! i = Some (Speak text)
}.

End UseVoice.

(* ===================================================================== *)
(** ** src/components/NavigationSummary.tsx *)
(* ===================================================================== *)

Module NavigationSummary.
Import JS SummaryService.

Record Props := mkProps {
  pathNodes : list Node;
  mapId : string;
  isLastMap : bool;
  isVisible : bool
}.

(** The state of the component that the fetch effect touches: the two
    pieces of state, the ref and the voice hook. *)
Record Component := mkComponent {
  summary : option string;
  loading : bool;
  lastFetchKeyRef : string;
  voice : UseVoice.Voice
}.

Definition initial : Component := mkComponent None false "" UseVoice.initial.

Definition fetchKeyOf (mapId : string) (pathNodes : list Node) (isLastMap : bool) : string :=
  let nodeIds := join "-" (map id pathNodes) in
  mapId +:+ "_" +:+ nodeIds +:+ "_" +:+ (if isLastMap then "true" else "false").

(** The fetch effect up to the call of [summaryService.fetchSummary]:
    the component it leaves, and the arguments of the call it starts, if
    it starts one. *)
Definition fetch_effect (p : Props) (c : Component)
    : Component * option GenerateSummaryParams :=
  if negb (isVisible p) || (length (pathNodes p) <? 2)%nat then (c, None)
  else
    let fetchKey := fetchKeyOf (mapId p) (pathNodes p) (isLastMap p) in
    if String.eqb (lastFetchKeyRef c) fetchKey then (c, None)
    else
      (mkComponent None true fetchKey (UseVoice.stop (voice c)),
       Some (mkParams (pathNodes p) (mapId p) (isLastMap p))).

End NavigationSummary.

(* ===================================================================== *)
(** ** src/lib/imageUtils.ts and src/app/api/maps/[id]/route.ts *)
(* ===================================================================== *)

Module ImageUtils.
Import JS.

Definition isDatabaseImage (imageUrl : string) : bool :=
  startsWith imageUrl "/api/images/".

(** [None] is [null]. *)
Definition getImageIdFromUrl (imageUrl : string) : option string :=
  if negb (isDatabaseImage imageUrl) then None
  else Some (replace_first_empty imageUrl "/api/images/").

Definition isLocalImage (imageUrl : string) : bool :=
  startsWith imageUrl "/maps/".

(** ["database" | "local" | "external"] *)
Inductive StorageType := database | local | external.

Definition getImageStorageType (imageUrl : string) : StorageType :=
  if isDatabaseImage imageUrl then database
  else if isLocalImage imageUrl then local
  else external.

End ImageUtils.

Module MapsRoute.
Import JS JS.Notations ImageUtils.

(** A document of the [maps] collection, [Partial<MapData>]: every field
    may be absent. *)
Record MapData := mkMapData {
  id : option string;
  name : option string;
  imageUrl : option string;
  nodes : option Value;
  adjacencyList : option Value
}.

(** A document snapshot: the storage-generated document id and the data,
    [None] for a document that does not exist. *)
Record DocumentSnapshot := mkSnapshot { doc_id : string; data : option MapData }.

Definition doc_exists (d : DocumentSnapshot) : bool :=
  match data d with Some _ => true | None => false end.

(** The calls the handlers make on the document store. *)
Inductive DbCall :=
| WhereIdEq (id : string)       (* maps.where("id", "==", id).get() *)
| DocGet (docId : string)       (* maps.doc(docId).get() *)
| DocDelete (docId : string)    (* maps.doc(docId).delete() *)
| ImageDelete (imageId : string).  (* map_images.doc(imageId).delete() *)

#[global] Instance DbCall_eq_dec : EqDecision DbCall.
Proof. solve_decision. Defined.

(** The store: the documents of [maps] by document id, in the order a
    query lists them; the ids of the documents of [map_images]; and the
    calls made so far, oldest first. *)
Record Firestore := mkFirestore {
  maps : list (string * MapData);
  map_images : list string;
  calls : list DbCall
}.

(** Which calls the store rejects, and with what error. *)
Definition Faults := DbCall -> option Error.

Definition no_faults : Faults := fun _ => None.

Abbreviation Db := (Eff Firestore).

(** The store after one more call. *)
Definition called (db : Firestore) (c : DbCall) : Firestore :=
  mkFirestore (maps db) (map_images db) (calls db ++ [c]).

(** A call is recorded, then rejected or run. *)
Definition db_call {A} (faults : Faults) (c : DbCall)
    (run : Firestore -> A * Firestore) : Db A :=
  fun db =>
    let db' := called db c in
    match faults c with
    | Some e => (Throw e, db')
    | None => let '(a, db'') := run db' in (Normal a, db'')
    end.

Definition has_id (wanted : string) (entry : string * MapData) : bool :=
  match id (snd entry) with
  | Some i => String.eqb i wanted
  | None => false
  end.

Definition snapshot_of (entry : string * MapData) : DocumentSnapshot :=
  mkSnapshot (fst entry) (Some (snd entry)).

Definition where_id_eq (faults : Faults) (wanted : string) : Db (list DocumentSnapshot) :=
  db_call faults (WhereIdEq wanted)
    (fun db => (map snapshot_of (filter (fun e => has_id wanted e = true) (maps db)), db)).

Definition find_doc (docId : string) (l : list (string * MapData)) : option MapData :=
  snd <$> List.find (fun e => String.eqb (fst e) docId) l.

Definition doc_get (faults : Faults) (docId : string) : Db DocumentSnapshot :=
  db_call faults (DocGet docId)
    (fun db => (mkSnapshot docId (find_doc docId (maps db)), db)).

Definition doc_delete (faults : Faults) (docId : string) : Db unit :=
  db_call faults (DocDelete docId)
    (fun db => (tt, mkFirestore
                      (filter (fun e => String.eqb (fst e) docId = false) (maps db))
                      (map_images db) (calls db))).

Definition image_delete (faults : Faults) (imageId : string) : Db unit :=
  db_call faults (ImageDelete imageId)
    (fun db => (tt, mkFirestore (maps db)
                      (filter (fun i => String.eqb i imageId = false) (map_images db))
                      (calls db))).

(** The bodies the handlers answer with. *)
Inductive Body :=
| Failed (error : string)        (* { success: false, error } *)
| Found (data : MapData)         (* { success: true, data } *)
| Done (message : string).       (* { success: true, message } *)

Record Reply := mkReply { status : Z; body : Body }.

(** [{ ...data, id: data.id || doc.id }] *)
Definition with_id (d : MapData) (docId : string) : MapData :=
  mkMapData (if truthy_str (id d) then id d else Some docId)
            (name d) (imageUrl d) (nodes d) (adjacencyList d).

Definition not_found (wanted : string) : Reply :=
  mkReply 404 (Failed ("Map '" +:+ wanted +:+ "' not found")).

(** [GET /api/maps/[id]] *)
Definition GET (faults : Faults) (wanted : string) : Db Reply :=
  catch
    (let* snapshot := where_id_eq faults wanted in
     match snapshot with
     | doc :: _ =>
         match data doc with
         | None => ret (mkReply 500 (Failed "Map data is missing"))
         | Some d => ret (mkReply 200 (Found (with_id d (doc_id doc))))
         end
     | [] =>
         let* doc := doc_get faults wanted in
         if negb (doc_exists doc) then ret (not_found wanted)
         else
           match data doc with
           | None => ret (mkReply 500 (Failed "Map data is missing"))
           | Some d => ret (mkReply 200 (Found (with_id d (doc_id doc))))
           end
     end)
    (fun error => ret (mkReply 500 (Failed (message error)))).

(** The image deletion step of [DELETE]: only for a map whose [imageUrl]
    is a database image with a non-empty image id; a rejected deletion is
    caught and the handler goes on. *)
Definition delete_image_of (faults : Faults) (mapData : option MapData) : Db unit :=
  match mapData with
  | Some d =>
      match imageUrl d with
      | Some url =>
          if negb (String.eqb url "") && isDatabaseImage url then
            match getImageIdFromUrl url with
            | Some imageId =>
                if negb (String.eqb imageId "") then
                  catch (image_delete faults imageId) (fun imageError => ret tt)
                else ret tt
            | None => ret tt
            end
          else ret tt
      | None => ret tt
      end
  | None => ret tt
  end.

(** [DELETE /api/maps/[id]]. The lookup yields the reference (document id)
    and the data of the map, or [None] when the handler has answered 404. *)
Definition DELETE (faults : Faults) (wanted : string) : Db Reply :=
  catch
    (let* snapshot := where_id_eq faults wanted in
     let* target :=
       match snapshot with
       | doc :: _ => ret (Some (doc_id doc, data doc))
       | [] =>
           let* doc := doc_get faults wanted in
           if negb (doc_exists doc) then ret None
           else ret (Some (wanted, data doc))
       end in
     match target with
     | None => ret (not_found wanted)
     | Some (docRef, mapData) =>
         let* _ := delete_image_of faults mapData in
         let* _ := doc_delete faults docRef in
         ret (mkReply 200 (Done ("Map '" +:+ wanted +:+ "' deleted successfully")))
     end)
    (fun error => ret (mkReply 500 (Failed (message error)))).

(** The document after [docRef.update(updateData)]: a field of the body
    that is not [undefined] replaces the stored one, the other fields
    stay; the [id] field is never part of [updateData]. The body is read
    at its declared type, [Partial<MapData>]. The [updatedAt] timestamp of
    [updateData], which no handler reads, is not kept in [MapData]. *)
Definition updated (body stored : MapData) : MapData :=
  mkMapData (id stored)
            (match name body with Some v => Some v | None => name stored end)
            (match imageUrl body with Some v => Some v | None => imageUrl stored end)
            (match nodes body with Some v => Some v | None => nodes stored end)
            (match adjacencyList body with Some v => Some v | None => adjacencyList stored end).

Definition update_entry (docId : string) (body : MapData) (entry : string * MapData)
    : string * MapData :=
  if String.eqb (fst entry) docId then (fst entry, updated body (snd entry)) else entry.

(** [docRef.update(updateData)]: the store rejects the call with the error
    [rejected], if any, and an update of a document that does not exist;
    otherwise the document is updated in place. The log [calls] lists the
    lookups and the deletions only. *)
Definition doc_update (rejected : option Error) (docId : string) (body : MapData) : Db unit :=
  fun db =>
    match rejected with
    | Some e => (Throw e, db)
    | None =>
        match find_doc docId (maps db) with
        | None => (Throw (mkError "NOT_FOUND: No document to update" None), db)
        | Some _ =>
            (Normal tt,
             mkFirestore (map (update_entry docId body) (maps db)) (map_images db) (calls db))
        end
    end.

(** [PUT /api/maps/[id]], with [reqJson] the completion of
    [await request.json()]. The lookup yields the reference (document id)
    of the map, or [None] when the handler has answered 404. [faults] are
    the rejections of the store during the lookup, [rejected] that of the
    update and [faults_after] those during the final read. *)
Definition PUT (faults : Faults) (rejected : option Error) (faults_after : Faults)
    (wanted : string) (reqJson : Completion MapData) : Db Reply :=
  catch
    (let* body := lift reqJson in
     let* snapshot := where_id_eq faults wanted in
     let* target :=
       match snapshot with
       | doc :: _ => ret (Some (doc_id doc))
       | [] =>
           let* doc := doc_get faults wanted in
           if negb (doc_exists doc) then ret None
           else ret (Some wanted)
       end in
     match target with
     | None => ret (not_found wanted)
     | Some docRef =>
         let* _ := doc_update rejected docRef body in
         let* updatedDoc := doc_get faults_after docRef in
         ret (mkReply 200
                (Found match data updatedDoc with
                       | Some updatedData => with_id updatedData (doc_id updatedDoc)
                       | None => mkMapData (Some (doc_id updatedDoc)) None None None None
                       end))
     end)
    (fun error => ret (mkReply 500 (Failed (message error)))).

(** The documents an id may address: by their [id] field or by their
    document id. *)
Definition addressed (wanted : string) (entry : string * MapData) : bool :=
  has_id wanted entry || String.eqb (fst entry) wanted.

(** The document a handler works on: the first one whose [id] field is
    the id asked for or, when there is none, the one stored under that
    document id. *)
Definition target_of (wanted : string) (stored : list (string * MapData))
    : option (string * MapData) :=
  match List.find (has_id wanted) stored with
  | Some entry => Some entry
  | None =>
      match find_doc wanted stored with
      | Some d => Some (wanted, d)
      | None => None
      end
  end.

(** The five ways [GET] ends: the query is rejected; a document is found
    by its [id] field; the fallback is rejected; nothing is stored under
    the document id either; a document is found by its document id. *)
Inductive GETRun (faults : Faults) (wanted : string) (db : Firestore)
    : Completion Reply * Firestore -> Prop :=
| get_query_rejected e :
    faults (WhereIdEq wanted) = Some e ->
    GETRun faults wanted db
      (Normal (mkReply 500 (Failed (message e))), called db (WhereIdEq wanted))
| get_by_field docId d :
    faults (WhereIdEq wanted) = None ->
    List.find (has_id wanted) (maps db) = Some (docId, d) ->
    GETRun faults wanted db
      (Normal (mkReply 200 (Found (with_id d docId))), called db (WhereIdEq wanted))
| get_fallback_rejected e :
    faults (WhereIdEq wanted) = None ->
    List.find (has_id wanted) (maps db) = None ->
    faults (DocGet wanted) = Some e ->
    GETRun faults wanted db
      (Normal (mkReply 500 (Failed (message e))),
       called (called db (WhereIdEq wanted)) (DocGet wanted))
| get_missing :
    faults (WhereIdEq wanted) = None ->
    List.find (has_id wanted) (maps db) = None ->
    faults (DocGet wanted) = None ->
    find_doc wanted (maps db) = None ->
    GETRun faults wanted db
      (Normal (not_found wanted), called (called db (WhereIdEq wanted)) (DocGet wanted))
| get_by_document_id d :
    faults (WhereIdEq wanted) = None ->
    List.find (has_id wanted) (maps db) = None ->
    faults (DocGet wanted) = None ->
    find_doc wanted (maps db) = Some d ->
    GETRun faults wanted db
      (Normal (mkReply 200 (Found (with_id d wanted))),
       called (called db (WhereIdEq wanted)) (DocGet wanted)).

(** The lookup rule in the words of the spec (section 6): a map is
    addressed by its application-level [id] field, with a fallback to the
    storage-generated identifier; the application id is tried first. The
    result is the document id and the data of the map. *)
Definition lookup_spec (wanted : string) (stored : list (string * MapData))
    : option (string * MapData) :=
  match List.find (has_id wanted) stored with
  | Some entry => Some entry
  | None =>
      match List.find (fun e => String.eqb (fst e) wanted) stored with
      | Some entry => Some (wanted, snd entry)
      | None => None
      end
  end.

(** A store with two maps, the first with a database image, and the fault
    plan in which only the deletion of that image is rejected. *)
Definition ground_floor : MapData :=
  mkMapData (Some "ground") (Some "Ground floor") (Some "/api/images/map-17-abc") None None.

Definition first_floor : MapData :=
  mkMapData None (Some "First floor") (Some "/maps/first.png") None None.

Definition two_maps : Firestore :=
  mkFirestore [("doc-A", ground_floor); ("doc-B", first_floor)] ["map-17-abc"] [].

Definition image_delete_fails : Faults :=
  fun c => if decide (c = ImageDelete "map-17-abc")
           then Some (mkError "UNAVAILABLE" None) else None.

End MapsRoute.

(* ===================================================================== *)
(** ** src/app/api/images/[id]/route.ts *)
(* ===================================================================== *)

Module ImagesRoute.
Import JS JS.Notations.

(** A document of the [map_images] collection, with the fields the upload
    route writes. The two fields [GET] reads, [imageData] and [mimeType],
    may be absent. Sizes are numbers of bytes. *)
Record ImageDoc := mkImageDoc {
  id : string;
  originalName : string;
  originalSize : nat;
  compressedSize : nat;
  width : Z;
  height : Z;
  mimeType : option string;
  imageData : option string;
  createdAt : Z
}.

(** The [map_images] collection, by document id. *)
Abbreviation Images := (gmap string ImageDoc).

(** The calls the handlers make on the collection, and which of them the
    store rejects. *)
Inductive StoreCall :=
| DocGet (id : string)       (* map_images.doc(id).get() *)
| DocSet (id : string)       (* map_images.doc(id).set(...) *)
| DocDelete (id : string).   (* map_images.doc(id).delete() *)

Definition Faults := StoreCall -> option Error.

Definition no_faults : Faults := fun _ => None.

Abbreviation Db := (Eff Images).

(** A call is rejected or run. *)
Definition store_call {A} (faults : Faults) (c : StoreCall)
    (run : Images -> A * Images) : Db A :=
  fun db =>
    match faults c with
    | Some e => (Throw e, db)
    | None => let '(a, db') := run db in (Normal a, db')
    end.

(** The snapshot of a document: its data, [None] when it does not exist. *)
Definition doc_get (faults : Faults) (id : string) : Db (option ImageDoc) :=
  store_call faults (DocGet id) (fun db => (db !! id, db)).

Definition doc_set (faults : Faults) (id : string) (doc : ImageDoc) : Db unit :=
  store_call faults (DocSet id) (fun db => (tt, <[id := doc]> db)).

Definition doc_delete (faults : Faults) (id : string) : Db unit :=
  store_call faults (DocDelete id) (fun db => (tt, delete id db)).

Inductive Body :=
| Failed (error : string)      (* { success: false, error } *)
| Done (message : string).     (* { success: true, message } *)

(** [NextResponse.json(body, { status })], or
    [new NextResponse(imageBuffer, { status, headers })] with the headers
    in the order they are written. *)
Inductive Response :=
| Json (status : Z) (body : Body)
| Binary (status : Z) (imageBuffer : list Byte.byte) (headers : list (string * string)).

Definition status_of (r : Response) : Z :=
  match r with
  | Json status _ => status
  | Binary status _ _ => status
  end.

Section Handlers.
(** [Buffer.from(_, "base64")] *)
Variable fromBase64 : string -> list Byte.byte.

(** [GET /api/images/[id]] *)
Definition GET (faults : Faults) (id : string) : Db Response :=
  catch
    (let* doc := doc_get faults id in
     match doc with
     | None => ret (Json 404 (Failed "Image not found"))
     | Some data =>
         if negb (truthy_str (imageData data)) then
           ret (Json 500 (Failed "Image data is missing"))
         else
           let imageBuffer := fromBase64 (default "" (imageData data)) in
           ret (Binary 200 imageBuffer
                  [("Content-Type",
                    if truthy_str (mimeType data) then default "" (mimeType data)
                    else "image/webp");
                   ("Content-Length", pretty (length imageBuffer));
                   ("Cache-Control", "public, max-age=31536000, immutable")])
     end)
    (fun error => ret (Json 500 (Failed (message error)))).

(** [DELETE /api/images/[id]] *)
Definition DELETE (faults : Faults) (id : string) : Db Response :=
  catch
    (let* doc := doc_get faults id in
     match doc with
     | None => ret (Json 404 (Failed "Image not found"))
     | Some _ =>
         let* _ := doc_delete faults id in
         ret (Json 200 (Done ("Image '" +:+ id +:+ "' deleted successfully")))
     end)
    (fun error => ret (Json 500 (Failed (message error)))).
End Handlers.

End ImagesRoute.

(* ===================================================================== *)
(** ** The upload endpoint: POST /api/upload (src/unnamed/part_002) *)
(* ===================================================================== *)

Module Upload.
Import JS JS.Notations.

(** The fields of the uploaded [File] that the handler reads;
    [arrayBuffer] is the completion of [await file.arrayBuffer()]. *)
Record File := mkFile {
  name : string;
  type : string;
  size : Z;
  arrayBuffer : Completion (list Byte.byte)
}.

(** The fields of [sharp(buffer).metadata()] that are read. *)
Record Metadata := mkMetadata { meta_width : option Z; meta_height : option Z }.

(** [COMPRESSION_CONFIG.maxWidth] and [COMPRESSION_CONFIG.maxHeight] *)
Definition maxWidth : Z := 2048.
Definition maxHeight : Z := 2048.

(** [Math.round]: the nearest integer, the larger one on a tie. *)
Definition Math_round (q : Q) : Z := Qfloor (q + (1 # 2))%Q.

(** Numbers are binary64 floating-point numbers: the quotient and the
    product of two Numbers are the exact ones rounded to the nearest
    binary64 number. [binary64] is that rounding, on the rationals that
    the finite Numbers stand for. What is used of it: it is monotone;
    it leaves 0 and the powers of two from 2^-12 to 2^12 as they are,
    which are binary64 numbers; and in the range of the normal numbers its
    relative error is at most 2^-53. *)
Record rounds_to_nearest (binary64 : Q -> Q) : Prop := mkRounds {
  rounding_monotone : forall a b : Q, (a <= b)%Q -> (binary64 a <= binary64 b)%Q;
  rounding_zero : (binary64 0 == 0)%Q;
  rounding_power : forall k : Z, (-12 <= k <= 12)%Z -> (binary64 (2 ^ k) == 2 ^ k)%Q;
  rounding_error : forall a : Q,
    (2 ^ (-1022) <= a)%Q -> (a <= 2 ^ 1023)%Q ->
    (Qabs.Qabs (binary64 a - a) <= a * 2 ^ (-53))%Q
}.

(** The rounding that changes nothing: the arithmetic of inputs whose
    quotients and products are binary64 numbers themselves. *)
Definition unrounded : Q -> Q := fun q => q.

Section Dimensions.
Variable binary64 : Q -> Q.

(** The [width] and [height] that [compressImage] computes from the
    metadata: a missing or zero dimension counts as the maximum, and
    dimensions beyond the maximum are scaled down along the aspect
    ratio. Width and height are integers; the aspect ratio and its
    product and quotient are rounded as Numbers are. *)
Definition resized (metadata : Metadata) : Z * Z :=
  let width :=
    match meta_width metadata with
    | Some w => if Z.eqb w 0 then maxWidth else w
    | None => maxWidth
    end in
  let height :=
    match meta_height metadata with
    | Some h => if Z.eqb h 0 then maxHeight else h
    | None => maxHeight
    end in
  if Z.ltb maxWidth width || Z.ltb maxHeight height then
    let aspectRatio := binary64 (inject_Z width / inject_Z height)%Q in
    if Z.ltb height width then
      (maxWidth, Math_round (binary64 (inject_Z maxWidth / aspectRatio)%Q))
    else
      (Math_round (binary64 (inject_Z maxHeight * aspectRatio)%Q), maxHeight)
  else (width, height).
End Dimensions.

(** What [compressImage] returns. *)
Record Compressed := mkCompressed {
  data : list Byte.byte;
  width : Z;
  height : Z;
  originalSize : nat;
  compressedSize : nat
}.

(** [(1 - compressedSize / originalSize) * 100], with the division by
    zero of an empty original. *)
Definition saved_percent (compressedSize originalSize : nat) : Number :=
  match originalSize, compressedSize with
  | O, O => NaN
  | O, S _ => NegInfinity
  | S _, _ =>
      Fin ((1 - inject_Z (Z.of_nat compressedSize) / inject_Z (Z.of_nat originalSize)) * 100)%Q
  end.

(** The [data] of a successful reply. *)
Record Uploaded := mkUploaded {
  up_url : string;
  up_id : string;
  up_originalName : string;
  up_originalSize : nat;
  up_compressedSize : nat;
  up_compressionRatio : string;
  up_width : Z;
  up_height : Z;
  up_type : string;
  up_storageType : string
}.

Inductive Body :=
| Failed (error : string)      (* { success: false, error } *)
| Stored (data : Uploaded).    (* { success: true, data } *)

Record Reply := mkReply { status : Z; body : Body }.

Definition validTypes : list string :=
  ["image/png"; "image/jpeg"; "image/jpg"; "image/webp"; "image/gif"].

Definition maxSize : Z := 10 * 1024 * 1024.

Section POST.
(** The rounding of Numbers *)
Variable binary64 : Q -> Q.
(** [sharp(buffer).metadata()] *)
Variable metadata : list Byte.byte -> Completion Metadata.
(** [sharp(buffer).resize(width, height, ...).webp(...).toBuffer()] *)
Variable toBuffer : list Byte.byte -> Z -> Z -> Completion (list Byte.byte).
(** [Buffer.prototype.toString("base64")] *)
Variable toBase64 : list Byte.byte -> string.
(** [Number.prototype.toFixed(1)] *)
Variable toFixed1 : Number -> string.
(** [Date.now()], [Math.random().toString(36).substring(2, 8)] and the
    time [new Date()] is stored as. *)
Variable timestamp : Z.
Variable randomStr : string.
Variable now : Z.

Definition compressImage (buffer : list Byte.byte) : Completion Compressed :=
  let originalSize := length buffer in
  letC metadata := metadata buffer in
  let '(width, height) := resized binary64 metadata in
  letC compressedBuffer := toBuffer buffer width height in
  Normal (mkCompressed compressedBuffer width height originalSize (length compressedBuffer)).

(** [POST /api/upload]: [formData] is the completion of
    [await request.formData()] followed by [formData.get("file")], [None]
    for [null]; [storage] is the query parameter of that name. *)
Definition POST (faults : ImagesRoute.Faults) (formData : Completion (option File))
    (storage : option string) : ImagesRoute.Db Reply :=
  catch
    (let* file := lift formData in
     let storageType := if truthy_str storage then default "" storage else "database" in
     match file with
     | None => ret (mkReply 400 (Failed "No file provided"))
     | Some file =>
         if negb (bool_decide (type file ∈ validTypes)) then
           ret (mkReply 400 (Failed "Invalid file type. Only images are allowed."))
         else if Z.ltb maxSize (size file) then
           ret (mkReply 400 (Failed "File too large. Maximum size is 10MB."))
         else
           let* buffer := lift (arrayBuffer file) in
           let imageId := "map-" +:+ pretty timestamp +:+ "-" +:+ randomStr in
           let* compressed := lift (compressImage buffer) in
           let* _ :=
             ImagesRoute.doc_set faults imageId
               (ImagesRoute.mkImageDoc imageId (name file)
                  (originalSize compressed) (compressedSize compressed)
                  (width compressed) (height compressed)
                  (Some "image/webp") (Some (toBase64 (data compressed))) now) in
           let imageUrl := "/api/images/" +:+ imageId in
           let compressionRatio :=
             toFixed1 (saved_percent (compressedSize compressed) (originalSize compressed)) in
           ret (mkReply 200
                  (Stored (mkUploaded imageUrl imageId (name file)
                             (originalSize compressed) (compressedSize compressed)
                             (compressionRatio +:+ "%")
                             (width compressed) (height compressed)
                             "image/webp" "database")))
     end)
    (fun error => ret (mkReply 500 (Failed "Failed to upload file"))).
End POST.

(** A PNG of 3000 by 1500 pixels, and a compressor that returns three
    bytes whatever it is given. *)
Definition floor_plan : File :=
  mkFile "ground.png" "image/png" 4 (Normal [Byte.x89; Byte.x50; Byte.x4e; Byte.x47]).

Definition three_bytes : list Byte.byte -> Z -> Z -> Completion (list Byte.byte) :=
  fun _ _ _ => Normal [Byte.x52; Byte.x49; Byte.x46].

End Upload.

(* ===================================================================== *)
(** ** src/app/api/admin/analyze-map/route.ts *)
(* ===================================================================== *)

Module AnalyzeMap.
Import JS JS.Notations.

(** An element of [processedNodes]: [{ label, x, y }]. *)
Record ProcessedNode := mkProcessed { label : Value; x : Number; y : Number }.

Inductive Body :=
| Failed (error : string) (details : option string)
| Detected (data : list ProcessedNode).

Record Reply := mkReply { status : Z; body : Body }.

(** What [model.generateContent] resolves to: [text] is the completion of
    [(await result.response).text()]. *)
Record GenerateResult := mkResult { text : Completion string }.

(** [error.status === 429 || error.message?.includes("429")] *)
Definition is_rate_limit (error : Error) : bool :=
  match err_status error with
  | Some 429%Z => true
  | _ => includes (message error) "429"
  end.

(** [\w] *)
Definition is_word_char (c : Ascii.ascii) : bool :=
  let n := Ascii.nat_of_ascii c in
  (((48 <=? n) && (n <=? 57)) || ((65 <=? n) && (n <=? 90))
   || ((97 <=? n) && (n <=? 122)) || (n =? 95))%nat.

(** The rest of [s] after the longest run of word characters followed by
    [";base64,"]; [seen] tells whether a word character was read. The
    backtracking of the regular expression finds no other match, as
    [";"] is no word character. *)
Fixpoint after_media_type (seen : bool) (s : string) : option string :=
  match s with
  | EmptyString => None
  | String c rest =>
      if is_word_char c then after_media_type true rest
      else if seen && startsWith s ";base64," then Some (drop_prefix s ";base64,")
      else None
  end.

(** A string of word characters only. *)
Fixpoint is_word (s : string) : bool :=
  match s with
  | EmptyString => true
  | String c rest => is_word_char c && is_word rest
  end.

(** [image.replace(/^data:image\/\w+;base64,/, "")] *)
Definition strip_data_url (image : string) : string :=
  if startsWith image "data:image/" then
    match after_media_type false (drop_prefix image "data:image/") with
    | Some rest => rest
    | None => image
    end
  else image.

Section Endpoint.
(** [process.env.GEMINI_API_KEY] *)
Variable apiKey : option string.
(** The outcome of the [i]-th call (from 0) of [model.generateContent]
    on the image data. *)
Variable generateContent : string -> nat -> Completion GenerateResult.
(** [JSON.parse] *)
Variable JSON_parse : string -> Completion Value.
(** The Number [(a + b) / 2] evaluates to when [a] or [b] is not a
    number: the string concatenation and the coercions of [+] and [/]
    are not modelled. *)
Variable mean_coerced : Value -> Value -> Number.

(** [generateWithRetry]: the loop from attempt [i] with [remaining]
    attempts left; the waiting time between attempts is not modelled. *)
Fixpoint generateWithRetry_from (base64Data : string) (i remaining : nat)
    : Completion GenerateResult :=
  match remaining with
  | O => Throw (mkError "Failed after retries" None)
  | S later =>
      match generateContent base64Data i with
      | Normal result => Normal result
      | Throw error =>
          if is_rate_limit error then
            match later with
            | O => Throw error
            | S _ => generateWithRetry_from base64Data (S i) later
            end
          else Throw error
      end
  end.

Definition generateWithRetry (base64Data : string) : Completion GenerateResult :=
  generateWithRetry_from base64Data 0 3.

(** [(a + b) / 2] *)
Definition mean (a b : Value) : Number :=
  match a, b with
  | VNum p, VNum q => Fin ((p + q) / 2)%Q
  | _, _ => mean_coerced a b
  end.

(** The callback of [rawNodes.map]. *)
Definition processItem (item : Value) : Completion ProcessedNode :=
  letC box_2d := get_prop item "box_2d" in
  let '(x, y) :=
    if truthy box_2d && isArray box_2d
       && (length (array_items box_2d) =? 4)%nat then
      let ymin := element (array_items box_2d) 0 in
      let xmin := element (array_items box_2d) 1 in
      let ymax := element (array_items box_2d) 2 in
      let xmax := element (array_items box_2d) 3 in
      let centerX_1000 := mean xmin xmax in
      let centerY_1000 := mean ymin ymax in
      (div_const centerX_1000 10, div_const centerY_1000 10)
    else (Fin 50, Fin 50) in
  letC label := get_prop item "label" in
  Normal (mkProcessed label (toFixed2_parsed x) (toFixed2_parsed y)).

(** [Array.prototype.map] with a callback that may throw. *)
Fixpoint map_items (items : list Value) : Completion (list ProcessedNode) :=
  match items with
  | [] => Normal []
  | item :: rest =>
      letC node := processItem item in
      letC nodes := map_items rest in
      Normal (node :: nodes)
  end.

(** [rawNodes.map(...)]: only an array has a [map] method. *)
Definition processedNodes (rawNodes : Value) : Completion (list ProcessedNode) :=
  match rawNodes with
  | VArr items => map_items items
  | VNull => Throw (TypeError "Cannot read properties of null (reading 'map')")
  | VUndefined => Throw (TypeError "Cannot read properties of undefined (reading 'map')")
  | _ => Throw (TypeError "rawNodes.map is not a function")
  end.

Definition POST_try (reqJson : Completion Value) : Completion Reply :=
  if negb (truthy_str apiKey) then
    Normal (mkReply 500 (Failed "GEMINI_API_KEY is not set" None))
  else
    letC parsed := reqJson in
    letC image := get_prop parsed "image" in
    if negb (truthy image) then
      Normal (mkReply 400 (Failed "No image data provided" None))
    else
      letC base64Data :=
        match image with
        | VStr s => Normal (strip_data_url s)
        | _ => Throw (TypeError "image.replace is not a function")
        end in
      letC result := generateWithRetry base64Data in
      letC text := text result in
      let cleanedText := trim (remove_all (remove_all text "```json") "```") in
      match JSON_parse cleanedText with
      | Throw _ => Normal (mkReply 500 (Failed "Failed to parse AI response" None))
      | Normal rawNodes =>
          letC nodes := processedNodes rawNodes in
          Normal (mkReply 200 (Detected nodes))
      end.

(** [POST(req)], with [reqJson] the completion of [await req.json()]. *)
Definition POST (reqJson : Completion Value) : Reply :=
  match POST_try reqJson with
  | Normal reply => reply
  | Throw error =>
      let errorMessage :=
        if is_rate_limit error
        then "AI Rate Limit Exceeded. Please try again in 1 minute."
        else "Failed to analyze map" in
      let status :=
        match err_status error with
        | Some s => if Z.eqb s 0 then 500%Z else s
        | None => 500%Z
        end in
      mkReply status (Failed errorMessage (Some (message error)))
  end.
End Endpoint.

(** An item has a valid box when its [box_2d] is an array of four
    elements. *)
Definition has_valid_box (item : Value) : Prop :=
  exists ymin xmin ymax xmax,
    get_prop item "box_2d" = Normal (VArr [ymin; xmin; ymax; xmax]).

(** A detected item as the prompt asks for it. *)
Definition detected (name : string) (ymin xmin ymax xmax : Z) : Value :=
  VObj [("label", VStr name);
        ("box_2d", VArr [VNum (inject_Z ymin); VNum (inject_Z xmin);
                         VNum (inject_Z ymax); VNum (inject_Z xmax)])].

(** Oracles used to run the endpoint: the model answers [reply] at once,
    and [JSON.parse] yields [parsed]. *)
Definition model_says (reply : string) : string -> nat -> Completion GenerateResult :=
  fun _ _ => Normal (mkResult (Normal reply)).

Definition parses_to (parsed : Value) : string -> Completion Value :=
  fun _ => Normal parsed.

Definition no_coercion : Value -> Value -> Number := fun _ _ => NaN.

End AnalyzeMap.

(* ===================================================================== *)
(** ** The Graph Model and the Single-Floor Pathfinder (lib/pathfinder) *)
(* ===================================================================== *)

(** The pathfinder module (lib/pathfinder, whose [generateNavigationPath]
    the page app/navigate/page.tsx calls) is not among the sources: the
    Graph Model and the search are modelled from sections 3, 4.1 and 4.2
    of the spec. *)

Module Pathfinder.

(** Modelled from the spec: the edge weights of section 4.2, which are
    not among the sources: non-negative distances, ordered and added up
    along a path. They are a type with a zero, an addition and a total
    order in which adding a distance never decreases a total. No
    associativity is asked for, so that sums are read in the order they
    are added. *)
Class Weights (W : Type) := {
  wzero : W;
  wadd : W -> W -> W;
  wleb : W -> W -> bool;
  wleb_total : forall a b, wleb a b = true \/ wleb b a = true;
  wleb_trans : forall a b c, wleb a b = true -> wleb b c = true -> wleb a c = true;
  wadd_mono : forall a b w, wleb a b = true -> wleb (wadd a w) (wadd b w) = true;
  wadd_increasing : forall a w, wleb a (wadd a w) = true
}.

(** [a < b] *)
Definition wltb {W} `{Weights W} (a b : W) : bool := negb (wleb b a).

(** Modelled from the spec: the kinds of Point of section 3; the
    declaration of the repository's node type is not among the sources. *)
Inductive Kind := ORDINARY | TRANSITION.

(** Modelled from the spec: the Point of the data model (section 3); the
    declaration of the repository's node type is not among the sources. *)
Record Point := mkPoint {
  id : string;
  name : string;
  kind : Kind;
  position : Q * Q;
  link : option (string * string)
}.

(** Modelled from the spec: the Graph Model of section 4.1, which is not
    among the sources: one floor's points in insertion order and the
    adjacency mapping from a point id to the point ids connected to it. *)
Record Graph := mkGraph {
  points : list Point;
  adjacency : gmap string (list string)
}.

(** Modelled from the spec: the failures of sections 4.1, 4.2 and 7 that
    concern one floor. *)
Inductive PathError := UnknownPoint | InvalidGraph | NoPath.

(** The point ids of a graph, in insertion order. *)
Definition ids (G : Graph) : list string := map id (points G).

(** The point of a given id. *)
Definition find_point (G : Graph) (i : string) : option Point :=
  List.find (fun p => String.eqb (id p) i) (points G).

(** [b] is entered among the points connected to [a]. *)
Definition add_edge (a b : string) (adj : gmap string (list string)) : gmap string (list string) :=
  <[a := b :: default [] (adj !! a)]> adj.

(** Modelled from the spec: construction of a Graph Model from a floor
    snapshot (points and connections, section 6), which is not among the
    sources. It fails with [InvalidGraph] if a point id is duplicated or a
    connection references a missing point id; a connection is an
    unordered pair, so it is entered in both directions. *)
Definition construct (pts : list Point) (connections : list (string * string))
    : PathError + Graph :=
  let known := map id pts in
  if bool_decide (NoDup known)
     && forallb (fun c => bool_decide (fst c ∈ known) && bool_decide (snd c ∈ known))
                connections
  then inr (mkGraph pts
              (foldr (fun c adj => add_edge (fst c) (snd c) (add_edge (snd c) (fst c) adj))
                     ∅ connections))
  else inl InvalidGraph.

(** Modelled from the spec: [neighbors(pointId)], which fails with
    [UnknownPoint] if the point is absent. *)
Definition neighbors (G : Graph) (i : string) : PathError + list string :=
  match find_point G i with
  | None => inl UnknownPoint
  | Some _ => inr (default [] (adjacency G !! i))
  end.

Section Search.
Context {W : Type} `{Weights W}.

(** Modelled from the spec: the Euclidean distance between two
    positions, the derived weight of a connection (section 3); the
    function that computes it is not among the sources. The square root
    is not computed here: the metric is a parameter with values in the
    distances. *)
Variable euclid : Q * Q -> Q * Q -> W.

(** Modelled from the spec: [distance(a, b)] of the Graph Model, which
    is not among the sources: the Euclidean distance between the
    positions of two points, defined only when [a] and [b] are
    connected. *)
Definition distance (G : Graph) (a b : string) : option W :=
  match neighbors G a with
  | inr ns =>
      if bool_decide (b ∈ ns) then
        match find_point G a, find_point G b with
        | Some pa, Some pb => Some (euclid (position pa) (position pb))
        | _, _ => None
        end
      else None
  | inl _ => None
  end.

(** The distances of the hops of [u :: rest], added from the left to
    [acc]; [None] if two consecutive points are not connected. *)
Fixpoint walk_length (G : Graph) (acc : W) (u : string) (rest : list string) : option W :=
  match rest with
  | [] => Some acc
  | v :: rest' =>
      match distance G u v with
      | Some w => walk_length G (wadd acc w) v rest'
      | None => None
      end
  end.

(** The summed consecutive-edge distance of a sequence of points. *)
Definition path_length (G : Graph) (p : list string) : option W :=
  match p with
  | [] => None
  | a :: rest => walk_length G wzero a rest
  end.

(** [p] is a path of [G] from [a] to [b] of total distance [d]. *)
Definition path (G : Graph) (a b : string) (p : list string) (d : W) : Prop :=
  a ∈ ids G /\ head p = Some a /\ last p = Some b /\ path_length G p = Some d.

Definition reachable (G : Graph) (a b : string) : Prop :=
  exists p d, path G a b p d.

(** Modelled from the spec: the state of the classical single-source
    search of section 4.2, whose code is not among the sources:
    tentative distances, predecessors, the points not yet settled in
    insertion order, and the settled points, last settled first. *)
Record Search := mkSearch {
  dist : gmap string W;
  prev : gmap string string;
  queue : list string;
  settled : list string
}.

(** Modelled from the spec: the search starts with the start point at
    distance zero and every point in the queue. *)
Definition start_search (G : Graph) (startId : string) : Search :=
  mkSearch {[ startId := wzero ]} ∅ (ids G) [].

(** Modelled from the spec: the priority selection of the pathfinder,
    which is not among the sources: by tentative distance, ties broken
    by point insertion order. The point selected is the first of the
    queue among those of least tentative distance. *)
Fixpoint extract_min (d : gmap string W) (q : list string) : option (string * W) :=
  match q with
  | [] => None
  | u :: rest =>
      match d !! u, extract_min d rest with
      | None, later => later
      | Some du, None => Some (u, du)
      | Some du, Some (v, dv) => if wleb du dv then Some (u, du) else Some (v, dv)
      end
  end.

(** Modelled from the spec: the relaxation step of the classical search,
    for the edge from [u], settled at distance [du], to [v]: the
    tentative distance of [v] is replaced when the way through [u] is
    strictly shorter. *)
Definition relax (G : Graph) (u : string) (du : W) (s : Search) (v : string) : Search :=
  match distance G u v with
  | None => s
  | Some w =>
      let alt := wadd du w in
      let improved := mkSearch (<[v := alt]> (dist s)) (<[v := u]> (prev s))
                               (queue s) (settled s) in
      match dist s !! v with
      | None => improved
      | Some dv => if wltb alt dv then improved else s
      end
  end.

(** Modelled from the spec: one round of the classical search: select,
    settle, relax the edges to the neighbours. [None] when no point of
    the queue has a tentative distance. *)
Definition step (G : Graph) (s : Search) : option Search :=
  match extract_min (dist s) (queue s) with
  | None => None
  | Some (u, du) =>
      let s' := mkSearch (dist s) (prev s)
                         (filter (fun x => x ≠ u) (queue s)) (u :: settled s) in
      match neighbors G u with
      | inr ns => Some (fold_left (relax G u du) ns s')
      | inl _ => Some s'
      end
  end.

(** Modelled from the spec: the rounds of the search, until no point of
    the queue has a tentative distance or [rounds] rounds are done. *)
Fixpoint run (G : Graph) (rounds : nat) (s : Search) : Search :=
  match rounds with
  | O => s
  | S n =>
      match step G s with
      | None => s
      | Some s' => run G n s'
      end
  end.

(** Modelled from the spec: the ordered sequence of point ids of the
    result, read backwards from [v] along the predecessors, in at most
    [hops] hops. *)
Fixpoint trace (pr : gmap string string) (hops : nat) (v : string) (acc : list string)
    : option (list string) :=
  match pr !! v with
  | None => Some (v :: acc)
  | Some u =>
      match hops with
      | O => None
      | S n => trace pr n u (v :: acc)
      end
  end.

(** Modelled from the spec: [shortestPath(graph, startId, endId)] of
    section 4.2, Dijkstra's single-source search; the pathfinder
    (lib/pathfinder) is not among the sources. It fails with
    [UnknownPoint] if either id is absent from the graph and with
    [NoPath] if the end is not connected to the start. A round settles
    one point, so as many rounds as the graph has points exhaust the
    queue, and a path has at most as many hops. *)
Definition shortestPath (G : Graph) (startId endId : string)
    : PathError + (list string * W) :=
  match find_point G startId, find_point G endId with
  | Some _, Some _ =>
      let n := length (points G) in
      let s := run G n (start_search G startId) in
      match dist s !! endId with
      | None => inl NoPath
      | Some d =>
          match trace (prev s) n endId [] with
          | Some p => inr (p, d)
          | None => inl NoPath
          end
      end
  | _, _ => inl UnknownPoint
  end.

(** *** The invariant of the search

    What every round keeps true, for a search from [startId]:
    the queue and the settled points split the points of the graph;
    the start is at distance zero and has no predecessor; a tentative
    distance is the distance of a settled predecessor plus the edge from
    it; every edge out of a settled point has been relaxed; a settled
    point is no farther than a point of the queue; and the predecessor
    of a settled point was settled before it. *)
Record search_invariant (G : Graph) (startId : string) (s : Search) : Prop := {
  inv_cover : forall v, v ∈ ids G <-> v ∈ queue s \/ v ∈ settled s;
  inv_disjoint : forall v, v ∈ queue s -> v ∉ settled s;
  inv_nodup : NoDup (settled s);
  inv_start : dist s !! startId = Some wzero /\ prev s !! startId = None;
  inv_prev : forall v d,
    dist s !! v = Some d ->
    v = startId \/
    exists u du w,
      prev s !! v = Some u /\ u ∈ settled s /\ dist s !! u = Some du /\
      distance G u v = Some w /\ d = wadd du w;
  inv_relaxed : forall u du v w,
    u ∈ settled s -> dist s !! u = Some du -> distance G u v = Some w ->
    exists dv, dist s !! v = Some dv /\ wleb dv (wadd du w) = true;
  inv_settled_dist : forall u, u ∈ settled s -> is_Some (dist s !! u);
  inv_order : forall u v du dv,
    u ∈ settled s -> v ∈ queue s ->
    dist s !! u = Some du -> dist s !! v = Some dv -> wleb du dv = true;
  inv_chain : forall l1 v l2 u,
    settled s = l1 ++ v :: l2 -> prev s !! v = Some u -> u ∈ l2;
  inv_nonneg : forall v d, dist s !! v = Some d -> wleb wzero d = true
}.

(** The search is over: no point of the queue has a tentative distance. *)
Definition exhausted (s : Search) : Prop :=
  forall v, v ∈ queue s -> dist s !! v = None.

(** [s] comes from [s0] by relaxing edges out of [u], settled at
    distance [du]: the queue and the settled points are those of [s0],
    and a point either keeps its tentative distance and predecessor or
    has them replaced by the strictly smaller distance through [u]. *)
Definition relaxed_from (G : Graph) (u : string) (du : W) (s0 s : Search) : Prop :=
  queue s = queue s0 /\ settled s = settled s0 /\
  forall v,
    (dist s !! v = dist s0 !! v /\ prev s !! v = prev s0 !! v) \/
    (exists w,
        distance G u v = Some w /\
        dist s !! v = Some (wadd du w) /\ prev s !! v = Some u /\
        forall dv0, dist s0 !! v = Some dv0 -> wltb (wadd du w) dv0 = true).
End Search.

(** Distances in whole units. *)
#[global, refine] Instance N_weights : Weights N :=
  {| wzero := 0%N; wadd := N.add; wleb := N.leb |}.
Proof.
  - intros a b. rewrite !N.leb_le. lia.
  - intros a b c. rewrite !N.leb_le. lia.
  - intros a b w. rewrite !N.leb_le. lia.
  - intros a w. rewrite N.leb_le. lia.
Defined.

(** Distances on the real line: the non-negative reals. *)
Module RealDistances.
Import Reals Qreals.

Definition nn_zero : nonnegreal := mknonnegreal 0%R (Rle_refl 0%R).

Definition nn_add (a b : nonnegreal) : nonnegreal :=
  mknonnegreal (nonneg a + nonneg b)%R
    (Rplus_le_le_0_compat _ _ (cond_nonneg a) (cond_nonneg b)).

Definition nn_leb (a b : nonnegreal) : bool :=
  if Rle_dec (nonneg a) (nonneg b) then true else false.

#[global, refine] Instance nonnegreal_weights : Weights nonnegreal :=
  {| wzero := nn_zero; wadd := nn_add; wleb := nn_leb |}.
Proof.
  all: unfold nn_leb.
  - intros a b. destruct (Rle_dec (nonneg a) (nonneg b)) as [|Hab]; [by left|right].
    destruct (Rle_dec (nonneg b) (nonneg a)) as [|Hba]; [done|].
    exfalso. apply Hab, Rlt_le. by apply Rnot_le_lt.
  - intros a b c.
    destruct (Rle_dec (nonneg a) (nonneg b)) as [Hab|]; [|done].
    destruct (Rle_dec (nonneg b) (nonneg c)) as [Hbc|]; [|done].
    destruct (Rle_dec (nonneg a) (nonneg c)) as [|Hac]; [done|].
    exfalso. apply Hac. by apply Rle_trans with (nonneg b).
  - intros a b w.
    destruct (Rle_dec (nonneg a) (nonneg b)) as [Hab|]; [|done].
    destruct (Rle_dec (nonneg (nn_add a w)) (nonneg (nn_add b w))) as [|Hno]; [done|].
    exfalso. apply Hno. cbn. by apply Rplus_le_compat_r.
  - intros a w.
    destruct (Rle_dec (nonneg a) (nonneg (nn_add a w))) as [|Hno]; [done|].
    exfalso. apply Hno. cbn. pose proof (cond_nonneg w).
    rewrite <- (Rplus_0_r (nonneg a)) at 1. by apply Rplus_le_compat_l.
Defined.

(** Modelled from the spec: the Euclidean distance between two positions,
    as a real number; the function that computes it is not among the
    sources. It is the metric the search is meant to be run with. *)
Definition euclidean (p q : Q * Q) : nonnegreal :=
  let dx := (Q2R (fst p) - Q2R (fst q))%R in
  let dy := (Q2R (snd p) - Q2R (snd q))%R in
  mknonnegreal (sqrt (dx * dx + dy * dy)) (sqrt_pos _).

End RealDistances.

(** The Euclidean distance rounded down to whole units, which can be
    evaluated: exact on layouts whose connected points are at whole
    distances, such as the 3-4-5 triangle. *)
Definition euclid_floor (p q : Q * Q) : N :=
  let dx := (fst p - fst q)%Q in
  let dy := (snd p - snd q)%Q in
  N.sqrt (Z.to_N (Qfloor (dx * dx + dy * dy)%Q)).

Definition at_ (i : string) (x y : Z) : Point :=
  mkPoint i i ORDINARY (inject_Z x, inject_Z y) None.

(** The single floor of section 8: X(0,0), Y(3,4) and the connection X-Y. *)
Definition triangle : Graph :=
  match construct [at_ "X" 0 0; at_ "Y" 3 4] [("X", "Y")] with
  | inr G => G
  | inl _ => mkGraph [] ∅
  end.

(** A floor with a detour: A-B-D costs 5 + 8, A-C-D costs 3 + 4, and E is
    connected to nothing. *)
Definition detour : Graph :=
  match construct [at_ "A" 0 0; at_ "B" 3 (-4); at_ "C" 3 0; at_ "D" 3 4; at_ "E" 50 50]
                  [("A", "B"); ("B", "D"); ("A", "C"); ("C", "D")] with
  | inr G => G
  | inl _ => mkGraph [] ∅
  end.

End Pathfinder.

(* ===================================================================== *)
(** ** The Navigation Session *)
(* ===================================================================== *)

(** The component that plays a route (components/IndoorNavigation, which
    the page app/navigate/page.tsx renders) is not among the sources: the
    session is modelled from sections 3 and 4.4 of the spec. *)

Module NavigationSession.

(** Modelled from the spec: the lifecycle states of section 4.4; the
    session component is not among the sources. *)
Inductive State :=
| AWAITING_START
| ON_SEGMENT
| AWAITING_TRANSITION
| COMPLETED
| ABORTED.

#[global] Instance State_eq_dec : EqDecision State.
Proof. solve_decision. Defined.

(** Modelled from the spec: a Segment of section 3, the floor, the point
    ids of the path and its cumulative distance; the route types are not
    among the sources. *)
Record Segment := mkSegment {
  floorId : string;
  pointIds : list string;
  cumulativeDistance : Q
}.

(** Modelled from the spec: a Route of section 3, an ordered sequence of
    Segments. *)
Definition Route := list Segment.

(** Modelled from the spec: the Navigation Session of sections 3 and 4.4,
    a Route with the current segment index, the current point index
    within the segment and the lifecycle state. The session component is
    not among the sources. *)
Record Session := mkSession {
  route : Route;
  segmentIndex : nat;
  pointIndex : nat;
  state : State
}.

(** Modelled from the spec: the failure of a misused session (section 7). *)
Inductive SessionError := InvalidTransition.

(** The result of an operation and the session after it. *)
Definition Outcome : Type := (SessionError + unit) * Session.

(** Modelled from the spec: a session freshly built on a Route, nothing
    consumed yet ([AWAITING_START]). *)
Definition create (r : Route) : Session := mkSession r 0 0 AWAITING_START.

(** Modelled from the spec: the accessors of section 4.4,
    [currentSegment()], [isFinalSegment()] and
    [progress() = (segmentIndex, pointIndex, totalSegments)]. *)
Definition totalSegments (s : Session) : nat := length (route s).

Definition currentSegment (s : Session) : option Segment :=
  route s !! segmentIndex s.

Definition isFinalSegment (s : Session) : bool :=
  (S (segmentIndex s) =? totalSegments s)%nat.

Definition progress (s : Session) : nat * nat * nat :=
  (segmentIndex s, pointIndex s, totalSegments s).

(** The index of the last point of the current segment. *)
Definition lastPointIndex (s : Session) : nat :=
  match currentSegment s with
  | Some seg => length (pointIds seg) - 1
  | None => 0
  end.

(** Modelled from the spec: the transition from [AWAITING_START] to
    [ON_SEGMENT], the presentation of the first segment begins. The spec
    draws the transition and names no operation for it. *)
Definition begin (s : Session) : Outcome :=
  match state s with
  | AWAITING_START =>
      (inr tt, mkSession (route s) (segmentIndex s) (pointIndex s) ON_SEGMENT)
  | _ => (inl InvalidTransition, s)
  end.

(** Modelled from the spec: the presentation moves to the next point of
    the current segment; on the last point of a segment that is not the
    final one the session awaits the transition, on the last point of the
    last segment it is completed. The spec draws these transitions and
    names no operation for them. *)
Definition advancePoint (s : Session) : Outcome :=
  match state s with
  | ON_SEGMENT =>
      if (lastPointIndex s <=? S (pointIndex s))%nat then
        (inr tt, mkSession (route s) (segmentIndex s) (lastPointIndex s)
                   (if isFinalSegment s then COMPLETED else AWAITING_TRANSITION))
      else
        (inr tt, mkSession (route s) (segmentIndex s) (S (pointIndex s)) ON_SEGMENT)
  | _ => (inl InvalidTransition, s)
  end.

(** Modelled from the spec: [advanceToNextSegment()], valid only in
    [AWAITING_TRANSITION]; it fails with [InvalidTransition] otherwise and
    moves to [ON_SEGMENT] with the next segment's point index reset to 0. *)
Definition advanceToNextSegment (s : Session) : Outcome :=
  match state s with
  | AWAITING_TRANSITION =>
      (inr tt, mkSession (route s) (S (segmentIndex s)) 0 ON_SEGMENT)
  | _ => (inl InvalidTransition, s)
  end.

(** Modelled from the spec: [reset()], valid from any state, discards all
    progress and returns to the [AWAITING_START] semantics. (The spec also
    lists [ABORTED] as reached on explicit reset; the operation it
    specifies, and its testable property, give back a freshly built
    session, which is what is modelled.) *)
Definition reset (s : Session) : Outcome := (inr tt, create (route s)).

(** The calls a driver makes on a session between its creation and its
    completion. *)
Inductive Call := Begin | AdvancePoint | AdvanceToNextSegment.

Definition call (c : Call) (s : Session) : Outcome :=
  match c with
  | Begin => begin s
  | AdvancePoint => advancePoint s
  | AdvanceToNextSegment => advanceToNextSegment s
  end.

(** The session after a sequence of calls; a failed call leaves it as it
    was and the driver goes on. *)
Fixpoint drive (calls : list Call) (s : Session) : Session :=
  match calls with
  | [] => s
  | c :: rest => drive rest (snd (call c s))
  end.

(** The number of calls of [advanceToNextSegment()] made from
    [AWAITING_TRANSITION] in a sequence of calls. *)
Fixpoint advances (calls : list Call) (s : Session) : nat :=
  match calls with
  | [] => 0
  | c :: rest =>
      match c, state s with
      | AdvanceToNextSegment, AWAITING_TRANSITION => S (advances rest (snd (call c s)))
      | _, _ => advances rest (snd (call c s))
      end
  end.

(** A driver that plays a Route to its end: it begins, then for each
    segment moves through its points and, between two segments, confirms
    the transition. *)
Definition play_segment (seg : Segment) : list Call :=
  replicate (length (pointIds seg)) AdvancePoint ++ [AdvancePoint].

Fixpoint play_segments (r : Route) : list Call :=
  match r with
  | [] => []
  | [seg] => play_segment seg
  | seg :: rest => play_segment seg ++ AdvanceToNextSegment :: play_segments rest
  end.

Definition play (r : Route) : list Call := Begin :: play_segments r.

(** What holds of a session on a Route of [n] segments driven from its
    creation through [confirmed] transitions: the segment index counts the
    confirmed transitions, a transition is awaited only before the last
    segment, and the session is completed only on the last one. *)
Definition driven (n confirmed : nat) (s : Session) : Prop :=
  length (route s) = n /\ segmentIndex s = confirmed /\
  match state s with
  | AWAITING_START => confirmed = 0
  | ON_SEGMENT => True
  | AWAITING_TRANSITION => S confirmed <> n
  | COMPLETED => S confirmed = n
  | ABORTED => False
  end.

(** The session on the last point of its current segment. *)
Definition arrived (s : Session) : Session :=
  mkSession (route s) (segmentIndex s) (lastPointIndex s)
            (if isFinalSegment s then COMPLETED else AWAITING_TRANSITION).

(** The Route of the two-floor scenario of section 8. *)
Definition two_floors : Route :=
  [mkSegment "A" ["P1"; "P2"] 10; mkSegment "B" ["Q1"; "Q2"] 20].

End NavigationSession.

(* ===================================================================== *)
(** * Properties *)
(* ===================================================================== *)


(* --------------------------------------------------------------------- *)
(** ** Strings *)

Section StringFacts.
Import JS.

Lemma append_cons (x : Ascii.ascii) (a b : string) :
  String x a +:+ b = String x (a +:+ b).
Proof. reflexivity. Qed.

Lemma append_nil_l (b : string) : "" +:+ b = b.
Proof. reflexivity. Qed.

Lemma app_assoc_string (a b c : string) : (a +:+ b) +:+ c = a +:+ (b +:+ c).
Proof.
  induction a as [|x a IH]; [done|].
  by rewrite !append_cons, IH.
Qed.

Lemma startsWith_nil (s : string) : startsWith s "" = true.
Proof. by destruct s. Qed.

Lemma startsWith_app (p s : string) : startsWith (p +:+ s) p = true.
Proof.
  induction p as [|c p IH]; [rewrite append_nil_l; by destruct s|].
  rewrite append_cons. cbn. by rewrite Ascii.eqb_refl, IH.
Qed.

Lemma drop_prefix_app (p s : string) : drop_prefix (p +:+ s) p = s.
Proof.
  induction p as [|c p IH]; [rewrite append_nil_l; by destruct s|].
  rewrite append_cons. exact IH.
Qed.

Lemma startsWith_split (s p : string) :
  startsWith s p = true -> s = p +:+ drop_prefix s p.
Proof.
  revert s. induction p as [|c p IH]; intros s H.
  - by destruct s.
  - destruct s as [|b s]; [done|]. cbn in H.
    apply andb_true_iff in H as [Hc Hs]. apply Ascii.eqb_eq in Hc. subst b.
    rewrite append_cons. cbn. f_equal. by apply IH.
Qed.

Lemma startsWith_app_l (a t p : string) :
  startsWith a p = true -> startsWith (a +:+ t) p = true.
Proof.
  revert a. induction p as [|c p IH]; intros a H; [by destruct (a +:+ t)|].
  destruct a as [|b a]; [done|]. rewrite append_cons. cbn in *.
  apply andb_true_iff in H as [Hc Hs]. by rewrite Hc, IH.
Qed.

Lemma includes_app_l (a t p : string) :
  includes a p = true -> includes (a +:+ t) p = true.
Proof.
  induction a as [|b a IH]; intros H.
  - cbn in H. rewrite orb_false_r in H. destruct p; [|done].
    by destruct t.
  - cbn [includes] in H. apply orb_true_iff in H as [H|H].
    + rewrite append_cons. cbn [includes]. rewrite <- append_cons.
      by rewrite (startsWith_app_l _ _ _ H).
    + rewrite append_cons. cbn [includes]. rewrite (IH H). apply orb_true_r.
Qed.

Lemma includes_cons (b : Ascii.ascii) (s p : string) :
  includes s p = true -> includes (String b s) p = true.
Proof. intros H. cbn [includes]. rewrite H. apply orb_true_r. Qed.

(** *** Trimming *)

Lemma trim_start_unspaced (s : string) : starts_unspaced (trim_start s).
Proof.
  induction s as [|c s IH]; cbn; [done|].
  destruct (is_whitespace c) eqn:Hc; [exact IH|exact Hc].
Qed.

Lemma trim_start_fixed (s : string) : starts_unspaced s -> trim_start s = s.
Proof. destruct s as [|c s]; cbn; [done|]. by intros ->. Qed.

Lemma trim_end_unspaced (s : string) :
  starts_unspaced s -> starts_unspaced (trim_end s).
Proof.
  destruct s as [|c s]; cbn; [done|]. intros Hc.
  destruct (trim_end s); by rewrite ?Hc.
Qed.

Lemma trim_end_idempotent (s : string) : trim_end (trim_end s) = trim_end s.
Proof.
  induction s as [|c s IH]; cbn; [done|].
  destruct (trim_end s) as [|d kept] eqn:Hk.
  - destruct (is_whitespace c) eqn:Hc; cbn; [done|by rewrite Hc].
  - cbn [trim_end]. cbn [trim_end] in IH. by rewrite IH.
Qed.

Lemma trim_idempotent (s : string) : trim (trim s) = trim s.
Proof.
  unfold trim.
  rewrite (trim_start_fixed (trim_end (trim_start s))).
  - apply trim_end_idempotent.
  - apply trim_end_unspaced, trim_start_unspaced.
Qed.

Lemma trim_start_suffix (s : string) : exists pre, s = pre +:+ trim_start s.
Proof.
  induction s as [|c s [pre IH]]; cbn; [by exists ""|].
  destruct (is_whitespace c).
  - exists (String c pre). rewrite append_cons. by rewrite <- IH.
  - by exists "".
Qed.

Lemma trim_end_prefix (s : string) : exists post, s = trim_end s +:+ post.
Proof.
  induction s as [|c s [post IH]]; cbn; [by exists ""|].
  destruct (trim_end s) as [|d kept] eqn:Hk.
  - destruct (is_whitespace c).
    + exists (String c s). done.
    + exists s. done.
  - exists post. rewrite append_cons. by rewrite <- IH.
Qed.

Lemma includes_app_r (pre s p : string) :
  includes s p = true -> includes (pre +:+ s) p = true.
Proof.
  induction pre as [|c pre IH]; intros H; [done|].
  rewrite append_cons. by apply includes_cons, IH.
Qed.

(** What a trimmed string contains, the string contains. *)
Lemma includes_trim (s p : string) :
  includes (trim s) p = true -> includes s p = true.
Proof.
  unfold trim. intros H.
  destruct (trim_start_suffix s) as [pre Hpre].
  destruct (trim_end_prefix (trim_start s)) as [post Hpost].
  rewrite Hpre. apply includes_app_r. rewrite Hpost. by apply includes_app_l.
Qed.

(** *** Strings without a given character *)

Lemma includes_char_cons (c a : Ascii.ascii) (s : string) :
  includes (String a s) (char c) = Ascii.eqb c a || includes s (char c).
Proof. cbn. by rewrite startsWith_nil, andb_true_r. Qed.

Lemma includes_char_nil (c : Ascii.ascii) : includes "" (char c) = false.
Proof. done. Qed.

Lemma includes_char_app (c : Ascii.ascii) (a b : string) :
  includes (a +:+ b) (char c) = includes a (char c) || includes b (char c).
Proof.
  induction a as [|x a IH]; [done|].
  rewrite append_cons, !includes_char_cons, IH. by rewrite orb_assoc.
Qed.

Lemma includes_char_sep (c : Ascii.ascii) (x : string) :
  includes (char c +:+ x) (char c) = true.
Proof.
  unfold char at 1. by rewrite append_cons, includes_char_cons, Ascii.eqb_refl.
Qed.

(** Two strings cut at their last [c] are equal part by part. *)
Lemma split_at_last (c : Ascii.ascii) (a b x y : string) :
  includes x (char c) = false -> includes y (char c) = false ->
  a +:+ char c +:+ x = b +:+ char c +:+ y ->
  a = b /\ x = y.
Proof.
  intros Hx Hy. revert b.
  induction a as [|p a IH]; intros [|q b] H;
    rewrite ?append_nil_l, ?append_cons in H; unfold char in H; rewrite ?append_cons, ?append_nil_l in H;
    fold (char c) in H.
  - by injection H.
  - injection H as Hq Hrest. subst x.
    rewrite includes_char_app, includes_char_cons, Ascii.eqb_refl in Hx.
    cbn in Hx. by rewrite orb_true_r in Hx.
  - injection H as Hp Hrest. subst y.
    rewrite includes_char_app, includes_char_cons, Ascii.eqb_refl in Hy.
    cbn in Hy. by rewrite orb_true_r in Hy.
  - injection H as Hp Hrest. subst q.
    destruct (IH b Hrest) as [-> ->]. done.
Qed.

(** Two strings cut at their first [c] are equal part by part. *)
Lemma split_at_first (c : Ascii.ascii) (a b x y : string) :
  includes a (char c) = false -> includes b (char c) = false ->
  a +:+ char c +:+ x = b +:+ char c +:+ y ->
  a = b /\ x = y.
Proof.
  revert b.
  induction a as [|p a IH]; intros [|q b] Ha Hb H;
    rewrite ?append_nil_l, ?append_cons in H; unfold char in H; rewrite ?append_cons, ?append_nil_l in H;
    fold (char c) in H.
  - by injection H.
  - injection H as Hq Hrest. subst q.
    rewrite includes_char_cons, Ascii.eqb_refl in Hb. done.
  - injection H as Hp Hrest. subst p.
    rewrite includes_char_cons, Ascii.eqb_refl in Ha. done.
  - injection H as Hp Hrest. subst q.
    rewrite includes_char_cons in Ha, Hb.
    apply orb_false_iff in Ha as [_ Ha]. apply orb_false_iff in Hb as [_ Hb].
    destruct (IH b Ha Hb Hrest) as [-> ->]. done.
Qed.

Lemma join_cons (sep s : string) (l : list string) :
  l <> [] -> join sep (s :: l) = s +:+ sep +:+ join sep l.
Proof. by destruct l. Qed.

Lemma includes_char_join (c d : Ascii.ascii) (l : list string) :
  Ascii.eqb c d = false ->
  Forall (fun s => includes s (char c) = false) l ->
  includes (join (char d) l) (char c) = false.
Proof.
  intros Hcd. induction 1 as [|s l Hs Hl IH]; [done|].
  destruct l as [|t l]; [exact Hs|].
  rewrite join_cons by done.
  rewrite !includes_char_app, Hs, IH. cbn. by rewrite Hcd.
Qed.

(** [join] can be undone on non-empty lists of strings without the
    separator. *)
Lemma join_injective (c : Ascii.ascii) (l1 l2 : list string) :
  Forall (fun s => includes s (char c) = false) l1 ->
  Forall (fun s => includes s (char c) = false) l2 ->
  l1 <> [] -> l2 <> [] ->
  join (char c) l1 = join (char c) l2 -> l1 = l2.
Proof.
  intros H1. revert l2. induction H1 as [|s l1 Hs Hl1 IH]; intros l2 H2 Hn1 Hn2 H; [done|].
  destruct H2 as [|t l2 Ht Hl2]; [done|].
  destruct l1 as [|s' l1], l2 as [|t' l2].
  - cbn in H. by subst.
  - rewrite (join_cons _ t) in H by done. cbn [join] in H. subst s.
    by rewrite includes_char_app, includes_char_sep, orb_true_r in Hs.
  - rewrite (join_cons _ s) in H by done. cbn [join] in H. subst t.
    by rewrite includes_char_app, includes_char_sep, orb_true_r in Ht.
  - rewrite (join_cons _ s), (join_cons _ t) in H by done.
    destruct (split_at_first c _ _ _ _ Hs Ht H) as [-> Hrest].
    f_equal. by apply IH.
Qed.

End StringFacts.


(* --------------------------------------------------------------------- *)
(** ** The summary service *)

Section SummaryServiceFacts.
Import JS JS.Notations SummaryService.


(** The try block either returns null with the cache as it was, or returns
    a non-empty summary and adds it under the key. *)
Lemma fetchSummary_try_cases fetch p key st :
  let rq := mkRequest (nodes p) (isLastMap p) in
  let st1 := mkService (summaryCache st) (requests st ++ [rq]) in
  (exists e, fetchSummary_try fetch p key st = (Throw e, st1)) \/
  fetchSummary_try fetch p key st = (Normal None, st1) \/
  (exists s, s <> "" /\
     fetchSummary_try fetch p key st =
       (Normal (Some s), mkService (<[key := s]> (summaryCache st)) (requests st ++ [rq]))).
Proof.
  intros rq st1. unfold fetchSummary_try, bind, do_fetch, lift, ret, cache_set.
  fold rq. fold st1.
  destruct (fetch rq) as [r|e]; [|left; eauto].
  destruct (ok r); cbn.
  2:{ destruct (try_catch (text r) _); [right; left; reflexivity | left; eauto]. }
  destruct (json r) as [data|e]; [|left; eauto].
  destruct (get_prop data "success") as [sv|e] eqn:Hs; [|left; eauto].
  assert (Herr : exists v, get_prop data "error" = Normal v).
  { destruct data; cbn in *; try discriminate; eauto. }
  destruct Herr as [ev Herr].
  destruct (truthy sv).
  2:{ rewrite Herr. right; left; reflexivity. }
  destruct (get_prop data "summary") as [sm|e]; [|left; eauto].
  destruct sm; try (rewrite Herr; right; left; reflexivity).
  destruct (String.eqb (trim s) "") eqn:Hb; cbn.
  - rewrite Herr. right; left; reflexivity.
  - right; right. exists (trim s). split; [|reflexivity].
    intros Hc. rewrite Hc in Hb. discriminate.
Qed.

(** A collaborator failure never reaches the cache. *)
Lemma fetchSummary_try_failure fetch p key st :
  let rq := mkRequest (nodes p) (isLastMap p) in
  let st1 := mkService (summaryCache st) (requests st ++ [rq]) in
  CollaboratorFailure (fetch rq) ->
  (exists e, fetchSummary_try fetch p key st = (Throw e, st1)) \/
  fetchSummary_try fetch p key st = (Normal None, st1).
Proof.
  intros rq st1 Hfail.
  destruct (fetchSummary_try_cases fetch p key st) as [Ht|[Hn|(s & Hs & Hok)]]; auto.
  exfalso. revert Hok.
  unfold fetchSummary_try, bind, do_fetch, lift, ret, cache_set. fold rq.
  inversion Hfail as [e He|r Hr He|r e Hr He|r data e Hj Hr He|r data v Hj Hv Ht He
                      |r data v Hj Hv Hns He|r data s' Hj Hv Hb He]; cbn.
  - discriminate.
  - rewrite Hr. cbn. destruct (try_catch _ _); discriminate.
  - destruct (ok r); cbn; [rewrite Hr; discriminate|destruct (try_catch _ _); discriminate].
  - destruct (ok r); cbn; [rewrite Hj, Hr; discriminate|destruct (try_catch _ _); discriminate].
  - destruct (ok r); cbn; [rewrite Hj, Hv, Ht|destruct (try_catch _ _); discriminate].
    destruct (get_prop data "error"); discriminate.
  - destruct (ok r); cbn; [rewrite Hj|destruct (try_catch _ _); discriminate].
    destruct (get_prop data "success") as [sv|]; [|discriminate].
    destruct (truthy sv); [rewrite Hv|destruct (get_prop data "error"); discriminate].
    destruct v; try (destruct (get_prop data "error"); discriminate).
    exfalso. eapply Hns. reflexivity.
  - destruct (ok r); cbn; [rewrite Hj|destruct (try_catch _ _); discriminate].
    destruct (get_prop data "success") as [sv|]; [|discriminate].
    destruct (truthy sv); [rewrite Hv, Hb|destruct (get_prop data "error"); discriminate].
    cbn. destruct (get_prop data "error"); discriminate.
Qed.

Lemma fetchSummary_run fetch p st : FetchSummaryRun p st (fetchSummary fetch p st).
Proof.
  unfold fetchSummary.
  destruct (length (nodes p) <? 2)%nat eqn:Hlen.
  { apply Nat.ltb_lt in Hlen. by constructor. }
  apply Nat.ltb_ge in Hlen.
  unfold bind, cache_has, cache_get, ret, catch.
  set (key := cacheKeyOf _ _ _).
  destruct (summaryCache st !! key) as [s|] eqn:Hkey.
  - rewrite bool_decide_eq_true_2 by eauto. rewrite Hkey. cbn.
    pose proof (run_cached p st s Hlen Hkey) as Hrun.
    by destruct (String.eqb s "").
  - rewrite bool_decide_eq_false_2 by (intros [? ?]; congruence).
    destruct (fetchSummary_try_cases fetch p key st) as [[e Ht]|[Hn|(s & Hs & Hok)]].
    + rewrite Ht. by constructor.
    + rewrite Hn. by constructor.
    + rewrite Hok. by constructor.
Qed.

(** An entry of the cache survives every call of [fetchSummary]. *)
Lemma fetchSummary_keeps_entries fetch p st k v :
  summaryCache st !! k = Some v ->
  summaryCache (snd (fetchSummary fetch p st)) !! k = Some v.
Proof.
  intros Hk. destruct (fetchSummary_run fetch p st); cbn; auto.
  destruct (decide (cacheKeyOf (mapId p) (nodes p) (isLastMap p) = k)) as [<-|Hne].
  - congruence.
  - by rewrite lookup_insert_ne.
Qed.

(** A successful call leaves its summary in the cache under its key. *)
Lemma fetchSummary_success_cached fetch p st summary :
  fst (fetchSummary fetch p st) = Normal (Some summary) ->
  (2 <= length (nodes p))%nat /\ summary <> "" /\
  summaryCache (snd (fetchSummary fetch p st))
    !! cacheKeyOf (mapId p) (nodes p) (isLastMap p) = Some summary.
Proof.
  destruct (fetchSummary_run fetch p st) as [|s ? Hs| |s ? ? Hs]; cbn; try discriminate.
  - destruct (String.eqb s "") eqn:He; [discriminate|].
    intros [= <-]. repeat split; auto. intros ->. discriminate.
  - intros [= <-]. repeat split; auto. apply lookup_insert_eq.
Qed.

Lemma fetchSummary_hit fetch p st summary :
  (2 <= length (nodes p))%nat -> summary <> "" ->
  summaryCache st !! cacheKeyOf (mapId p) (nodes p) (isLastMap p) = Some summary ->
  fetchSummary fetch p st = (Normal (Some summary), st).
Proof.
  intros Hlen Hne Hk. unfold fetchSummary.
  destruct (length (nodes p) <? 2)%nat eqn:Hl; [apply Nat.ltb_lt in Hl; lia|].
  unfold bind, cache_has, cache_get, ret.
  rewrite bool_decide_eq_true_2 by eauto. cbn. rewrite Hk. cbn.
  destruct (String.eqb summary "") eqn:He; cbn; [|done].
  apply String.eqb_eq in He. done.
Qed.


(** *** Calls that overlap *)

(** A call that nothing interrupts is a call of [fetchSummary]: it has at
    most two [await]s to pass. *)
Lemma uninterrupted_is_fetchSummary fetch p st :
  uninterrupted 2 (fetchSummary_begin fetch p st) = Some (fetchSummary fetch p st).
Proof.
  unfold fetchSummary_begin, fetchSummary.
  destruct (length (nodes p) <? 2)%nat; [reflexivity|].
  unfold bind at 1. unfold cache_has, cache_get, ret.
  destruct (bool_decide _); [reflexivity|].
  cbn [uninterrupted]. unfold fetchSummary_resume, fetchSummary_try, catch, bind, do_fetch, lift.
  cbn [call_at call_key call_args].
  destruct (fetch _) as [r|e]; [|reflexivity].
  destruct (ok r); cbn [negb uninterrupted call_at call_key call_args].
  - destruct (json r) as [data|e]; [|reflexivity].
    unfold fetchSummary_after_json, bind, lift.
    destruct (get_prop data "success") as [sv|e]; [|reflexivity].
    destruct (truthy sv).
    2:{ destruct (get_prop data "error"); reflexivity. }
    destruct (get_prop data "summary") as [sm|e]; [|reflexivity].
    destruct sm; try (destruct (get_prop data "error"); reflexivity).
    destruct (negb _); [reflexivity|].
    destruct (get_prop data "error"); reflexivity.
  - destruct (try_catch (text r) _) eqn:Ht; [reflexivity|].
    unfold try_catch in Ht. destruct (text r); discriminate.
Qed.

(** A first stretch either returns at once, leaving the service as it was,
    and then null or what the cache holds; or it has missed the cache, has
    sent the request and waits. *)
Lemma fetchSummary_begin_cases fetch p st :
  let key := cacheKeyOf (mapId p) (nodes p) (isLastMap p) in
  fetchSummary_begin fetch p st = (Returned (Normal None), st) \/
  (exists v, v <> "" /\ (2 <= length (nodes p))%nat /\ summaryCache st !! key = Some v /\
     fetchSummary_begin fetch p st = (Returned (Normal (Some v)), st)) \/
  (exists s, well_begun s /\ call_args s = p /\ summaryCache st !! key = None /\
     fetchSummary_begin fetch p st
     = (Waiting s, mkService (summaryCache st) (requests st ++ [mkRequest (nodes p) (isLastMap p)]))).
Proof.
  intros key. unfold fetchSummary_begin. fold key.
  destruct (length (nodes p) <? 2)%nat eqn:Hlen; [by left|].
  apply Nat.ltb_ge in Hlen.
  destruct (summaryCache st !! key) as [v|] eqn:Hkey.
  - rewrite bool_decide_eq_true_2 by eauto. cbn.
    destruct (String.eqb v "") eqn:He; cbn; [by left|].
    right; left. exists v. repeat split; auto. intros ->. discriminate.
  - rewrite bool_decide_eq_false_2 by (intros [? ?]; congruence).
    right; right.
    exists (mkSuspended p key (AwaitFetch (fetch (mkRequest (nodes p) (isLastMap p))))).
    repeat split; auto.
Qed.

(** A later stretch either waits again, for the same call and with the
    service as it was; or returns null, with the service as it was; or
    returns a non-empty summary, written to the cache under the key the
    call took along. *)
Lemma fetchSummary_resume_cases s st :
  (exists s', call_args s' = call_args s /\ call_key s' = call_key s /\
     fetchSummary_resume s st = (Waiting s', st)) \/
  fetchSummary_resume s st = (Returned (Normal None), st) \/
  (exists v, v <> "" /\
     fetchSummary_resume s st
     = (Returned (Normal (Some v)),
        mkService (<[call_key s := v]> (summaryCache st)) (requests st))).
Proof.
  unfold fetchSummary_resume.
  destruct (call_at s) as [[r|e]|r|r].
  - left. destruct (ok r); cbn; eexists; (split; [|split; [|reflexivity]]); reflexivity.
  - by right; left.
  - by right; left.
  - unfold catch, bind, lift.
    destruct (json r) as [data|e]; [|by right; left].
    unfold fetchSummary_after_json, bind, lift, ret, cache_set.
    destruct (get_prop data "success") as [sv|e]; [|by right; left].
    destruct (truthy sv).
    2:{ destruct (get_prop data "error"); by right; left. }
    destruct (get_prop data "summary") as [sm|e]; [|by right; left].
    destruct sm; try (destruct (get_prop data "error"); by right; left).
    destruct (String.eqb (trim s0) "") eqn:Hb; cbn.
    + destruct (get_prop data "error"); by right; left.
    + right; right. exists (trim s0). split; [|reflexivity].
      intros Hc. rewrite Hc in Hb. discriminate.
Qed.

(** Every call under way was begun by [fetchSummary_begin]. *)
Lemma happen_well_begun e w :
  (forall call s, suspended w !! call = Some s -> well_begun s) ->
  forall call s, suspended (fst (happen e w)) !! call = Some s -> well_begun s.
Proof.
  intros Hw call s. destruct e as [c fetch p|c|]; cbn.
  - destruct (fetchSummary_begin_cases fetch p (service w))
      as [->|[(v & _ & _ & _ & ->)|(s' & Hs' & _ & _ & ->)]]; cbn; try apply Hw.
    destruct (decide (c = call)) as [->|Hne].
    + rewrite lookup_insert_eq. by intros [= <-].
    + rewrite lookup_insert_ne by done. apply Hw.
  - destruct (suspended w !! c) as [sc|] eqn:Hc; [|apply Hw].
    destruct (fetchSummary_resume_cases sc (service w))
      as [(s' & Ha & Hk & ->)|[->|(v & _ & ->)]]; cbn.
    + destruct (decide (c = call)) as [->|Hne].
      * rewrite lookup_insert_eq. intros [= <-].
        destruct (Hw _ _ Hc) as [Hlen Hkey]. split; [by rewrite Ha|by rewrite Hk, Ha].
      * rewrite lookup_insert_ne by done. apply Hw.
    + intros H. apply lookup_delete_Some in H as [_ H]. by apply Hw in H.
    + intros H. apply lookup_delete_Some in H as [_ H]. by apply Hw in H.
  - apply Hw.
Qed.

Lemma after_events_well_begun events w :
  (forall call s, suspended w !! call = Some s -> well_begun s) ->
  forall call s, suspended (after_events events w) !! call = Some s -> well_begun s.
Proof.
  revert w. induction events as [|e events IH]; intros w Hw; cbn; [exact Hw|].
  apply IH. by apply happen_well_begun.
Qed.

(** While the cache holds a summary under a key, no call under way has
    this key and [clearCache] is not called, things stay that way: a call
    with this key is served from the cache and never suspended, and the
    calls under way write under their own keys. *)
Lemma happen_keeps_entry e w key v :
  e <> CacheCleared ->
  summaryCache (service w) !! key = Some v -> none_under_way key w ->
  summaryCache (service (fst (happen e w))) !! key = Some v /\
  none_under_way key (fst (happen e w)).
Proof.
  intros He Hv Hnone. destruct e as [c fetch p|c|]; cbn; [| |done].
  - destruct (fetchSummary_begin_cases fetch p (service w))
      as [->|[(v' & _ & _ & _ & ->)|(s & [_ Hkey] & Hargs & Hmiss & ->)]]; cbn; auto.
    split; [exact Hv|]. intros call s'. cbn.
    destruct (decide (c = call)) as [->|Hne].
    + rewrite lookup_insert_eq. intros [= <-] Hk.
      rewrite Hkey, Hargs in Hk. congruence.
    + rewrite lookup_insert_ne by done. apply Hnone.
  - destruct (suspended w !! c) as [sc|] eqn:Hc; [|auto].
    pose proof (Hnone _ _ Hc) as Hother.
    destruct (fetchSummary_resume_cases sc (service w))
      as [(s' & Ha & Hk & ->)|[->|(v' & _ & ->)]]; cbn.
    + split; [exact Hv|]. intros call s''. cbn.
      destruct (decide (c = call)) as [->|Hne].
      * rewrite lookup_insert_eq. intros [= <-]. by rewrite Hk.
      * rewrite lookup_insert_ne by done. apply Hnone.
    + split; [exact Hv|]. intros call s''. cbn.
      intros H. apply lookup_delete_Some in H as [_ H]. by apply Hnone in H.
    + split; [by rewrite lookup_insert_ne|]. intros call s''. cbn.
      intros H. apply lookup_delete_Some in H as [_ H]. by apply Hnone in H.
Qed.

Lemma after_events_keep_entry events w key v :
  CacheCleared ∉ events ->
  summaryCache (service w) !! key = Some v -> none_under_way key w ->
  summaryCache (service (after_events events w)) !! key = Some v.
Proof.
  revert w. induction events as [|e events IH]; intros w Hclear Hv Hnone; cbn; [exact Hv|].
  apply not_elem_of_cons in Hclear as [He Hclear].
  destruct (happen_keeps_entry e w key v) as [Hv' Hnone']; auto.
Qed.

(** C2 (amended): take any course of overlapping calls on the service
    since it was loaded. When a call with arguments [p] returns a summary
    (at once, from the cache, or when its response has arrived), no call
    with the same cache key is still under way at that moment, and
    [clearCache] is not called afterwards, then every later call with the
    same map id, the same node ids in the same order and the same flag,
    whatever else was started or has settled in between, returns that
    summary at once and sends no request: the world is as it was before the
    call. The cache holds the summary under the key built from the map id,
    the joined node ids and the flag. *)
Theorem fetchSummary_memoized_until_cleared
    (before between : list Event) (returning : Event) (first later : nat)
    (fetch1 fetch2 : Fetch) (p p2 : GenerateSummaryParams) (summary : string) :
  let key := mapId p +:+ "_" +:+ join "-" (map id (nodes p)) +:+ "_"
             +:+ (if isLastMap p then "final" else "intermediate") in
  let w := after_events before loaded in
  let w1 := fst (happen returning w) in
  let w2 := after_events between w1 in
  (returning = Called first fetch1 p \/
   returning = Settled first /\
   exists s, suspended w !! first = Some s /\ call_args s = p) ->
  snd (happen returning w) = Some (Normal (Some summary)) ->
  none_under_way key w1 ->
  CacheCleared ∉ between ->
  mapId p2 = mapId p ->
  map id (nodes p2) = map id (nodes p) ->
  isLastMap p2 = isLastMap p ->
  happen (Called later fetch2 p2) w2 = (w2, Some (Normal (Some summary))) /\
  requests (service (fst (happen (Called later fetch2 p2) w2))) = requests (service w2) /\
  summaryCache (service w2) !! key = Some summary.
Proof.
  intros key w w1 w2 Hfirst Hresult Hnone Hclear Hmap Hids Hflag.
  change key with (cacheKeyOf (mapId p) (nodes p) (isLastMap p)) in *.
  assert (Hwell : forall call s, suspended w !! call = Some s -> well_begun s).
  { apply after_events_well_begun. intros call s. cbn. by rewrite lookup_empty. }
  (* what the first call leaves behind *)
  assert (Hleft : (2 <= length (nodes p))%nat /\ summary <> "" /\
                  summaryCache (service w1) !! key = Some summary).
  { subst w1. destruct Hfirst as [->|[-> (s & Hs & Hargs)]]; cbn in Hresult |- *.
    - destruct (fetchSummary_begin_cases fetch1 p (service w))
        as [H|[(v & Hv & Hlen & Hkey & H)|(s & _ & _ & _ & H)]];
        rewrite H in Hresult |- *; cbn in Hresult |- *; try discriminate.
      injection Hresult as <-. auto.
    - rewrite Hs in Hresult |- *.
      destruct (Hwell _ _ Hs) as [Hlen Hkey]. rewrite Hargs in Hlen, Hkey.
      destruct (fetchSummary_resume_cases s (service w))
        as [(s' & _ & _ & H)|[H|(v & Hv & H)]];
        rewrite H in Hresult |- *; cbn in Hresult |- *; try discriminate.
      injection Hresult as <-. rewrite Hkey. repeat split; auto. apply lookup_insert_eq. }
  destruct Hleft as (Hlen & Hne & Hcached).
  pose proof (after_events_keep_entry between w1 key summary Hclear Hcached Hnone) as Hlater.
  fold w2 in Hlater.
  assert (Hkey2 : cacheKeyOf (mapId p2) (nodes p2) (isLastMap p2) = key).
  { unfold key, cacheKeyOf. by rewrite Hmap, Hids, Hflag. }
  assert (Hlen2 : (2 <= length (nodes p2))%nat).
  { rewrite <- (length_map id (nodes p2)), Hids, length_map. exact Hlen. }
  assert (Hcall : happen (Called later fetch2 p2) w2 = (w2, Some (Normal (Some summary)))).
  { cbn. destruct (fetchSummary_begin_cases fetch2 p2 (service w2))
      as [H|[(v & Hv & _ & Hk & H)|(s & _ & _ & Hmiss & H)]].
    - exfalso. revert H. unfold fetchSummary_begin.
      destruct (length (nodes p2) <? 2)%nat eqn:Hl; [apply Nat.ltb_lt in Hl; lia|].
      rewrite Hkey2, Hlater. rewrite bool_decide_eq_true_2 by eauto. cbn.
      destruct (String.eqb summary "") eqn:He; [|discriminate].
      apply String.eqb_eq in He. done.
    - rewrite H. rewrite Hkey2, Hlater in Hk. injection Hk as <-. by destruct w2.
    - rewrite Hkey2, Hlater in Hmiss. discriminate. }
  split; [exact Hcall|]. split; [by rewrite Hcall|exact Hlater].
Qed.

Lemma fetchSummary_memoized_witness :
  let before := [Called 1 (answering (summary_payload " Pass the lobby. ")) lobby_to_lift;
                 Called 2 server_error (mkParams (nodes lobby_to_lift) "floor-2" true);
                 Settled 1] in
  let between := [Settled 2; Called 3 server_error lobby_to_lift] in
  let w := after_events before loaded in
  let w2 := after_events between (fst (happen (Settled 1) w)) in
  snd (happen (Settled 1) w) = Some (Normal (Some "Pass the lobby.")) /\
  happen (Called 4 server_error lobby_to_lift) w2 = (w2, Some (Normal (Some "Pass the lobby."))) /\
  requests (service w2)
  = [mkRequest (nodes lobby_to_lift) false; mkRequest (nodes lobby_to_lift) true].
Proof.
  split; [reflexivity|]. split; [|reflexivity].
  apply (fetchSummary_memoized_until_cleared
           [Called 1 (answering (summary_payload " Pass the lobby. ")) lobby_to_lift;
            Called 2 server_error (mkParams (nodes lobby_to_lift) "floor-2" true);
            Settled 1]
           [Settled 2; Called 3 server_error lobby_to_lift]
           (Settled 1) 1 4 server_error server_error lobby_to_lift lobby_to_lift
           "Pass the lobby.").
  - right. split; [reflexivity|]. eexists. split; reflexivity.
  - reflexivity.
  - assert (Hw : suspended (fst (happen (Settled 1) (after_events
                    [Called 1 (answering (summary_payload " Pass the lobby. ")) lobby_to_lift;
                     Called 2 server_error (mkParams (nodes lobby_to_lift) "floor-2" true);
                     Settled 1] loaded)))
                = {[ 2%nat := mkSuspended (mkParams (nodes lobby_to_lift) "floor-2" true)
                               "floor-2_n1-n2_final"
                               (AwaitFetch (server_error (mkRequest (nodes lobby_to_lift) true))) ]})
      by reflexivity.
    intros call s. rewrite Hw. intros H.
    apply lookup_singleton_Some in H as [_ <-]. discriminate.
  - intros H. apply elem_of_cons in H as [H|H]; [discriminate|].
    apply elem_of_cons in H as [H|H]; [discriminate|]. by apply elem_of_nil in H.
  - reflexivity.
  - reflexivity.
  - reflexivity.
Defined.

(** C2 as stated fails once [clearCache] runs between the two calls: the
    second call, with the same arguments as the first, successful one,
    sends a second request and returns what the collaborator answers then. *)
Lemma fetchSummary_refetches_after_clearCache :
  let first := fetchSummary (answering (summary_payload "Pass the lobby.")) lobby_to_lift initial in
  let cleared := snd (clearCache (snd first)) in
  let second := fetchSummary (answering (summary_payload "Turn left.")) lobby_to_lift cleared in
  fst first = Normal (Some "Pass the lobby.") /\
  fst second = Normal (Some "Turn left.") /\
  requests (snd second) =
    [mkRequest (nodes lobby_to_lift) false; mkRequest (nodes lobby_to_lift) false].
Proof. repeat split; reflexivity. Qed.

(** Nor does it hold for calls that overlap: a call started while another
    one with the same arguments awaits its response misses the cache as
    well and sends a second request; which of the two summaries a later
    call is served is decided by the call that returns last. *)
Lemma overlapping_calls_both_fetch :
  let events := [Called 1 (answering (summary_payload "Pass the lobby.")) lobby_to_lift;
                 Called 2 (answering (summary_payload "Turn left.")) lobby_to_lift;
                 Settled 1; Settled 1; Settled 2] in
  let w := after_events events loaded in
  requests (service w)
  = [mkRequest (nodes lobby_to_lift) false; mkRequest (nodes lobby_to_lift) false] /\
  snd (happen (Settled 1) (after_events (take 3 events) loaded))
  = Some (Normal (Some "Pass the lobby.")) /\
  happen (Called 3 server_error lobby_to_lift) w
  = (w, Some (Normal (Some "Pass the lobby."))) /\
  snd (happen (Settled 2) w) = Some (Normal (Some "Turn left.")) /\
  snd (happen (Called 3 server_error lobby_to_lift) (fst (happen (Settled 2) w)))
  = Some (Normal (Some "Turn left.")).
Proof. repeat split; reflexivity. Qed.

(** C5: [fetchSummary] never throws; when the collaborator fails (the
    fetch is rejected, the response is not OK, or the payload is
    unreadable, unsuccessful or without a non-blank summary string) a call
    that asks it returns null; and whenever the collaborator fails, and
    whenever the call returns null, the cache is left as it was. *)
Theorem fetchSummary_never_throws
    (fetch : Fetch) (p : GenerateSummaryParams) (st : Service) :
  let result := fetchSummary fetch p st in
  let asked := fetch (mkRequest (nodes p) (isLastMap p)) in
  (exists r, fst result = Normal r) /\
  (CollaboratorFailure asked ->
     summaryCache (snd result) = summaryCache st /\
     (requests (snd result) <> requests st -> fst result = Normal None)) /\
  (fst result = Normal None -> summaryCache (snd result) = summaryCache st).
Proof.
  intros result asked. subst result.
  split; [|split].
  - destruct (fetchSummary_run fetch p st); cbn; eauto.
  - intros Hfail. unfold fetchSummary.
    destruct (length (nodes p) <? 2)%nat; [cbn; split; [done|congruence]|].
    unfold bind, cache_has, cache_get, ret, catch.
    destruct (bool_decide _); [cbn; split; [done|congruence]|].
    destruct (fetchSummary_try_failure fetch p
                (cacheKeyOf (mapId p) (nodes p) (isLastMap p)) st Hfail)
      as [[e He]|He]; rewrite He; cbn; auto.
  - destruct (fetchSummary_run fetch p st); cbn; auto; discriminate.
Qed.

Lemma fetchSummary_never_throws_witness :
  let result := fetchSummary server_error lobby_to_lift initial in
  CollaboratorFailure (server_error (mkRequest (nodes lobby_to_lift) false)) /\
  fst result = Normal None /\
  summaryCache (snd result) = summaryCache initial.
Proof.
  intros result.
  assert (Hfail : CollaboratorFailure (server_error (mkRequest (nodes lobby_to_lift) false))).
  { by apply response_not_ok. }
  destruct (fetchSummary_never_throws server_error lobby_to_lift initial)
    as (_ & Hnull & _).
  destruct (Hnull Hfail) as [Hcache Hnone].
  split; [exact Hfail|]. split; [|exact Hcache].
  apply Hnone. discriminate.
Defined.

End SummaryServiceFacts.


(* --------------------------------------------------------------------- *)
(** ** The summary service: the cache and its keys *)

Section SummaryCacheFacts.
Import JS JS.Notations SummaryService.
Import Stdlib.Strings.Ascii.

(** What the cache may hold: non-empty strings without surrounding
    whitespace. *)
Lemma fetchSummary_try_stores fetch p key st :
  summaryCache (snd (fetchSummary_try fetch p key st)) = summaryCache st \/
  exists s, s <> "" /\ trim s = s /\
    summaryCache (snd (fetchSummary_try fetch p key st)) = <[key := s]> (summaryCache st).
Proof.
  unfold fetchSummary_try, bind, do_fetch, lift, ret, cache_set.
  destruct (fetch _) as [r|e]; [|by left].
  destruct (ok r); cbn.
  2:{ destruct (try_catch (text r) _); by left. }
  destruct (json r) as [data|e]; [|by left].
  destruct (get_prop data "success") as [sv|e]; [|by left].
  destruct (truthy sv).
  2:{ destruct (get_prop data "error"); by left. }
  destruct (get_prop data "summary") as [sm|e]; [|by left].
  destruct sm; try (destruct (get_prop data "error"); by left).
  destruct (String.eqb (trim s) "") eqn:Hb; cbn.
  - destruct (get_prop data "error"); by left.
  - right. exists (trim s). split; [|split; [apply trim_idempotent|done]].
    intros Hc. rewrite Hc in Hb. discriminate.
Qed.

Lemma fetchSummary_stores fetch p st :
  summaryCache (snd (fetchSummary fetch p st)) = summaryCache st \/
  exists s, s <> "" /\ trim s = s /\
    summaryCache (snd (fetchSummary fetch p st))
    = <[cacheKeyOf (mapId p) (nodes p) (isLastMap p) := s]> (summaryCache st).
Proof.
  unfold fetchSummary.
  destruct (length (nodes p) <? 2)%nat; [by left|].
  unfold bind, cache_has, cache_get, ret, catch.
  destruct (bool_decide _); [by left|].
  pose proof (fetchSummary_try_stores fetch p
                (cacheKeyOf (mapId p) (nodes p) (isLastMap p)) st) as H.
  destruct (fetchSummary_try fetch p _ st) as [[o|e] st']; exact H.
Qed.

Lemma after_service_calls_trimmed calls st :
  (forall k v, summaryCache st !! k = Some v -> v <> "" /\ trim v = v) ->
  forall k v, summaryCache (after_service_calls calls st) !! k = Some v ->
              v <> "" /\ trim v = v.
Proof.
  revert st. induction calls as [|[fetch p|] calls IH]; intros st Hst; cbn; [done| |].
  - apply IH. intros k v.
    destruct (fetchSummary_stores fetch p st) as [->|(s & Hs & Ht & ->)]; [apply Hst|].
    destruct (decide (cacheKeyOf (mapId p) (nodes p) (isLastMap p) = k)) as [<-|Hne].
    + rewrite lookup_insert_eq. by intros [= <-].
    + rewrite lookup_insert_ne by done. apply Hst.
  - apply IH. intros k v. cbn. by rewrite lookup_empty.
Qed.

(** X1: whatever calls were made on the service since it was loaded, the
    cache holds only non-empty summaries without surrounding whitespace,
    so that a call served from the cache returns the cached string as it
    is, never null, and sends no request. *)
Theorem cache_holds_trimmed_summaries (calls : list ServiceCall) (k v : string) :
  let st := after_service_calls calls initial in
  summaryCache st !! k = Some v ->
  v <> "" /\ trim v = v /\
  forall fetch p,
    (2 <= length (nodes p))%nat ->
    cacheKeyOf (mapId p) (nodes p) (isLastMap p) = k ->
    fetchSummary fetch p st = (Normal (Some v), st).
Proof.
  intros st Hk.
  assert (Hv : v <> "" /\ trim v = v).
  { apply (after_service_calls_trimmed calls initial) with k; [|exact Hk].
    intros k' v'. cbn. by rewrite lookup_empty. }
  destruct Hv as [Hne Htrim]. split; [exact Hne|]. split; [exact Htrim|].
  intros fetch p Hlen Hkey. apply fetchSummary_hit; auto. by rewrite Hkey.
Qed.

Lemma cache_holds_trimmed_summaries_witness :
  let calls := [FetchSummary (answering (summary_payload " Pass the lobby. ")) lobby_to_lift;
                ClearCache;
                FetchSummary (answering (summary_payload "  Turn left.")) lobby_to_lift] in
  summaryCache (after_service_calls calls initial) !! "floor-1_n1-n2_intermediate"
    = Some "Turn left." /\
  trim "Turn left." = "Turn left.".
Proof.
  split; [reflexivity|].
  apply (cache_holds_trimmed_summaries
           [FetchSummary (answering (summary_payload " Pass the lobby. ")) lobby_to_lift;
            ClearCache;
            FetchSummary (answering (summary_payload "  Turn left.")) lobby_to_lift]
           "floor-1_n1-n2_intermediate" "Turn left."). reflexivity.
Defined.

Lemma flag_word_plain (b : bool) :
  includes (if b then "final" else "intermediate") "_" = false.
Proof. by destruct b. Qed.

(** A key made of a map id, joined node ids and a word without "_" can
    be taken apart again. *)
Lemma key_parts (m1 m2 : string) (n1 n2 : list Node) (w1 w2 : string) :
  n1 <> [] -> n2 <> [] -> plain_ids n1 -> plain_ids n2 ->
  includes w1 "_" = false -> includes w2 "_" = false ->
  m1 +:+ "_" +:+ join "-" (map id n1) +:+ "_" +:+ w1
  = m2 +:+ "_" +:+ join "-" (map id n2) +:+ "_" +:+ w2 ->
  m1 = m2 /\ map id n1 = map id n2 /\ w1 = w2.
Proof.
  intros Hn1 Hn2 Hp1 Hp2 Hw1 Hw2 Hkey.
  assert (Hd1 : Forall (fun s => includes s (char "-"%char) = false) (map id n1)).
  { apply Forall_map. eapply Forall_impl; [exact Hp1|]. by intros n [? _]. }
  assert (Hd2 : Forall (fun s => includes s (char "-"%char) = false) (map id n2)).
  { apply Forall_map. eapply Forall_impl; [exact Hp2|]. by intros n [? _]. }
  assert (Hu1 : includes (join "-" (map id n1)) (char "_"%char) = false).
  { apply (includes_char_join "_"%char "-"%char); [done|].
    apply Forall_map. eapply Forall_impl; [exact Hp1|]. by intros n [_ ?]. }
  assert (Hu2 : includes (join "-" (map id n2)) (char "_"%char) = false).
  { apply (includes_char_join "_"%char "-"%char); [done|].
    apply Forall_map. eapply Forall_impl; [exact Hp2|]. by intros n [_ ?]. }
  rewrite <- (app_assoc_string m1 "_"), <- (app_assoc_string m2 "_") in Hkey.
  rewrite <- (app_assoc_string (m1 +:+ "_")), <- (app_assoc_string (m2 +:+ "_")) in Hkey.
  apply (split_at_last "_"%char) in Hkey as [Hleft Hflag]; [|done|done].
  rewrite !app_assoc_string in Hleft.
  apply (split_at_last "_"%char) in Hleft as [Hm Hj]; [|done|done].
  split; [exact Hm|]. split; [|exact Hflag].
  apply (join_injective "-"%char); auto.
  - intros H. by destruct n1.
  - intros H. by destruct n2.
Qed.

(** X2: the cache key determines the map id, the sequence of node ids and
    the flag, for non-empty paths whose node ids contain neither "-" nor
    "_": two such paths share a cache entry only if they agree on all
    three. The map id may be any string. *)
Theorem cacheKeyOf_injective (m1 m2 : string) (n1 n2 : list Node) (f1 f2 : bool) :
  n1 <> [] -> n2 <> [] -> plain_ids n1 -> plain_ids n2 ->
  cacheKeyOf m1 n1 f1 = cacheKeyOf m2 n2 f2 ->
  m1 = m2 /\ map id n1 = map id n2 /\ f1 = f2.
Proof.
  intros Hn1 Hn2 Hp1 Hp2 Hkey. unfold cacheKeyOf in Hkey.
  destruct (key_parts m1 m2 n1 n2 _ _ Hn1 Hn2 Hp1 Hp2
              (flag_word_plain f1) (flag_word_plain f2) Hkey) as (Hm & Hids & Hflag).
  split; [exact Hm|]. split; [exact Hids|].
  destruct f1, f2; first [reflexivity | discriminate Hflag].
Qed.

Lemma cacheKeyOf_injective_witness :
  cacheKeyOf "floor-1" (nodes lobby_to_lift) false
  = cacheKeyOf "floor-1" [mkNode "n1" "Entrance" "ROOM"; mkNode "n2" "Lift" "GATEWAY"] false /\
  map id (nodes lobby_to_lift) = ["n1"; "n2"].
Proof.
  split; [reflexivity|].
  destruct (cacheKeyOf_injective "floor-1" "floor-1" (nodes lobby_to_lift)
              [mkNode "n1" "Entrance" "ROOM"; mkNode "n2" "Lift" "GATEWAY"] false false)
    as (_ & H & _); try done.
  - repeat constructor.
  - repeat constructor.
Defined.

End SummaryCacheFacts.


(* --------------------------------------------------------------------- *)
(** ** The voice hook and the summary component *)

Section VoiceFacts.
Import JS UseVoice.

Lemma lookup_snoc_Speak (l : list SynthesisCall) (c : SynthesisCall) i text :
  (l ++ [c]) !! i = Some (Speak text) ->
  l !! i = Some (Speak text) \/ (i = length l /\ c = Speak text).
Proof.
  intros H. apply lookup_app_Some in H as [H|[Hi H]]; [by left|].
  right. apply list_lookup_singleton_Some in H as [Hz ->]. split; [lia|done].
Qed.

Lemma cancel_kept (l : list SynthesisCall) :
  (forall i text, l !! i = Some (Speak text) ->
     trim text <> "" /\ exists j, i = S j /\ l !! j = Some Cancel) ->
  forall i text, (l ++ [Cancel]) !! i = Some (Speak text) ->
     trim text <> "" /\ exists j, i = S j /\ (l ++ [Cancel]) !! j = Some Cancel.
Proof.
  intros Hl i text H. apply lookup_snoc_Speak in H as [H|[_ ?]]; [|done].
  destruct (Hl i text H) as (Ht & j & -> & Hj). split; [exact Ht|].
  exists j. split; [done|]. by apply lookup_app_l_Some.
Qed.

Lemma spoken_kept (l : list SynthesisCall) c :
  (exists i text, l !! i = Some (Speak text)) ->
  exists i text, (l ++ [c]) !! i = Some (Speak text).
Proof. intros (i & text & H). exists i, text. by apply lookup_app_l_Some. Qed.

Lemma voice_step_invariant (s : Step) (v : Voice) :
  voice_invariant v -> voice_invariant (step s v).
Proof.
  intros Hv. pose proof Hv as [Ha Hb Hc Hd].
  destruct s as [available| |text|i e|]; cbn [step].
  - unfold mounted. destruct available; [|exact Hv].
    constructor; cbn; auto. done.
  - unfold stop. destruct (synthesisRef v) eqn:Hs; [|exact Hv].
    constructor; cbn; auto; try done. by apply cancel_kept.
  - unfold speak. destruct (synthesisRef v) eqn:Hs; cbn [negb]; [|exact Hv].
    destruct (String.eqb (trim text) "") eqn:Hblank.
    + constructor; cbn; auto; try done. by apply cancel_kept.
    + constructor; cbn; auto; try done.
      * intros i t H. apply lookup_snoc_Speak in H as [H|[Hi [= <-]]].
        -- destruct (cancel_kept _ Ha i t H) as (Ht & j & -> & Hj).
           split; [exact Ht|]. exists j. split; [done|]. by apply lookup_app_l_Some.
        -- split.
           { intros Hc'. rewrite Hc' in Hblank. discriminate. }
           exists (length (calls v)). split.
           { rewrite Hi, length_app. cbn. lia. }
           apply lookup_app_l_Some. by rewrite lookup_app_r, Nat.sub_diag.
      * intros Hsp. apply spoken_kept, spoken_kept. auto.
  - unfold heard. destruct (calls v !! i) as [[|t]|] eqn:Hi; try exact Hv.
    constructor; cbn; auto.
    + intros Hs. destruct (Hc Hs) as [Hnil _]. rewrite Hnil in Hi. done.
    + intros _. eauto.
  - unfold unmounted. destruct (synthesisRef v) eqn:Hs; [|exact Hv].
    constructor; cbn; auto; try done.
    + by apply cancel_kept.
    + intros Hsp. apply spoken_kept. auto.
Qed.

Lemma voice_after_invariant (steps : list Step) (v : Voice) :
  voice_invariant v -> voice_invariant (after steps v).
Proof.
  revert v. induction steps as [|s steps IH]; intros v Hv; [done|].
  cbn. apply IH. by apply voice_step_invariant.
Qed.

(** X3: whatever is done with the hook (mounting, [stop], [speak], events
    of its utterances, unmounting), in any order: an utterance is handed
    to the synthesizer only right after a [cancel()], so new speech
    interrupts the old instead of queueing behind it; its text is never
    blank; without browser support nothing is ever called and
    [isSpeaking] stays false; and [isSpeaking] is true only if something
    was handed over to be spoken. *)
Theorem speech_interrupts_and_is_never_blank (steps : list Step) :
  let v := after steps initial in
  (forall i text, calls v !! i = Some (Speak text) ->
     trim text <> "" /\ exists j, i = S j /\ calls v !! j = Some Cancel) /\
  (hasBrowserSupport v = false -> calls v = [] /\ isSpeaking v = false) /\
  (isSpeaking v = true -> exists i text, calls v !! i = Some (Speak text)).
Proof.
  intros v.
  assert (Hv : voice_invariant v).
  { apply voice_after_invariant. constructor; cbn; try done. }
  destruct Hv as [Ha Hb Hc Hd]. split; [exact Ha|]. split; [|exact Hd].
  intros Hs. apply Hc. by rewrite Hb.
Qed.

End VoiceFacts.

Section NavigationSummaryFacts.
Import JS SummaryService NavigationSummary.

Lemma fetch_flag_plain (b : bool) :
  includes (if b then "true" else "false") "_" = false.
Proof. by destruct b. Qed.

(** After a run for a visible path of two nodes or more, the ref holds
    the key of that path. *)
Lemma fetch_effect_key (p : Props) (c : Component) :
  isVisible p = true -> (2 <= length (pathNodes p))%nat ->
  lastFetchKeyRef (fst (fetch_effect p c)) = fetchKeyOf (mapId p) (pathNodes p) (isLastMap p).
Proof.
  intros Hv Hl. unfold fetch_effect. rewrite Hv. cbn [negb orb].
  destruct (length (pathNodes p) <? 2)%nat eqn:Hlt; [apply Nat.ltb_lt in Hlt; lia|].
  destruct (String.eqb _ _) eqn:He; [|done].
  by apply String.eqb_eq in He.
Qed.

(** X4: the fetch effect of the summary component, run again for a
    visible path of two nodes or more after a run for such a path, starts
    no call of [fetchSummary] and changes nothing exactly when map id,
    node ids and flag are those of the earlier run, whatever came of that
    run; otherwise it starts one call, for the new path, after having
    reset the summary, set the loading flag and stopped the voice. Node
    ids are taken to contain neither "-" nor "_". *)
Theorem fetch_effect_refetches_on_change (p1 p2 : Props) (c : Component) :
  isVisible p1 = true -> isVisible p2 = true ->
  (2 <= length (pathNodes p1))%nat -> (2 <= length (pathNodes p2))%nat ->
  plain_ids (pathNodes p1) -> plain_ids (pathNodes p2) ->
  let c1 := fst (fetch_effect p1 c) in
  let same := mapId p2 = mapId p1 /\ map id (pathNodes p2) = map id (pathNodes p1)
              /\ isLastMap p2 = isLastMap p1 in
  (same -> fetch_effect p2 c1 = (c1, None)) /\
  (~ same ->
     fetch_effect p2 c1
     = (mkComponent None true (fetchKeyOf (mapId p2) (pathNodes p2) (isLastMap p2))
          (UseVoice.stop (voice c1)),
        Some (mkParams (pathNodes p2) (mapId p2) (isLastMap p2)))).
Proof.
  intros Hv1 Hv2 Hl1 Hl2 Hp1 Hp2 c1 same.
  pose proof (fetch_effect_key p1 c Hv1 Hl1) as Hkey. fold c1 in Hkey.
  assert (Hrun : fetch_effect p2 c1
    = if String.eqb (lastFetchKeyRef c1) (fetchKeyOf (mapId p2) (pathNodes p2) (isLastMap p2))
      then (c1, None)
      else (mkComponent None true (fetchKeyOf (mapId p2) (pathNodes p2) (isLastMap p2))
              (UseVoice.stop (voice c1)),
            Some (mkParams (pathNodes p2) (mapId p2) (isLastMap p2)))).
  { unfold fetch_effect at 1. rewrite Hv2. cbn [negb orb].
    by destruct (length (pathNodes p2) <? 2)%nat eqn:Hlt; [apply Nat.ltb_lt in Hlt; lia|]. }
  rewrite Hrun, Hkey. clear Hrun. split.
  - intros (Hm & Hids & Hf). unfold fetchKeyOf. rewrite Hm, Hids, Hf.
    by rewrite String.eqb_refl.
  - intros Hdiff.
    destruct (String.eqb _ _) eqn:He; [|done].
    exfalso. apply Hdiff. apply String.eqb_eq in He. unfold fetchKeyOf in He.
    assert (Hn1 : pathNodes p1 <> []).
    { intros H. rewrite H in Hl1. cbn in Hl1. lia. }
    assert (Hn2 : pathNodes p2 <> []).
    { intros H. rewrite H in Hl2. cbn in Hl2. lia. }
    destruct (key_parts (mapId p1) (mapId p2) (pathNodes p1) (pathNodes p2) _ _
                Hn1 Hn2 Hp1 Hp2 (fetch_flag_plain (isLastMap p1))
                (fetch_flag_plain (isLastMap p2)) He) as (Hm & Hids & Hflag).
    unfold same. repeat split; auto.
    destruct (isLastMap p1), (isLastMap p2); first [reflexivity | discriminate Hflag].
Qed.

Lemma fetch_effect_refetches_on_change_witness :
  let first := mkProps (nodes lobby_to_lift) "floor-1" false true in
  let again := mkProps [mkNode "n1" "Entrance" "ROOM"; mkNode "n2" "Lift" "GATEWAY"]
                 "floor-1" false true in
  let c1 := fst (fetch_effect first initial) in
  snd (fetch_effect first initial) = Some lobby_to_lift /\
  fetch_effect again c1 = (c1, None).
Proof.
  intros first again c1. split; [reflexivity|].
  destruct (fetch_effect_refetches_on_change first again initial
              eq_refl eq_refl (le_n 2) (le_n 2)
              ltac:(repeat constructor) ltac:(repeat constructor)) as [Hsame _].
  apply Hsame. repeat split.
Defined.

End NavigationSummaryFacts.


(* --------------------------------------------------------------------- *)
(** ** The summary endpoint *)

Section SummaryEndpointFacts.
Import JS JS.Notations.

(** A value one property can be read from lets every property be read. *)
Lemma get_prop_defined (v : Value) (k k' : string) (x : Value) :
  get_prop v k = Normal x -> exists x', get_prop v k' = Normal x'.
Proof. destruct v; cbn; intros Hx; try discriminate; eauto. Qed.

Lemma POST_invalid_nodes apiKey generateText parsed nodes :
  truthy_str apiKey = true ->
  get_prop parsed "nodes" = Normal nodes ->
  (forall items, nodes = VArr items -> (length items < 2)%nat) ->
  SummaryEndpoint.POST apiKey generateText (Normal parsed)
    = SummaryEndpoint.failure 400 "Invalid path nodes provided".
Proof.
  intros Hkey Hnodes Hshort.
  unfold SummaryEndpoint.POST, SummaryEndpoint.POST_try.
  destruct (get_prop_defined _ _ "isLastMap" _ Hnodes) as [flag Hflag].
  rewrite Hkey. unfold bindC. rewrite Hnodes, Hflag.
  destruct nodes as [| |flag'|q|s|items|fields]; try reflexivity.
  - by destruct flag'.
  - by destruct (negb (truthy (VNum q))).
  - by destruct (negb (truthy (VStr s))).
  - specialize (Hshort items eq_refl).
    apply Nat.ltb_lt in Hshort. cbn [truthy isArray array_items negb orb]. by rewrite Hshort.
Qed.

(** C8 (amended): with fewer than two nodes [fetchSummary] returns null
    at once, sends no request and leaves the cache as it was; and the
    summary endpoint, when the API key is set and the request body is a
    JSON value other than null, answers 400 when [nodes] is missing, is
    not an array or has fewer than two elements. *)
Theorem short_path_is_rejected :
  (forall fetch p st,
      (length (SummaryService.nodes p) < 2)%nat ->
      SummaryService.fetchSummary fetch p st = (Normal None, st)) /\
  (forall apiKey generateText parsed nodes,
      truthy_str apiKey = true ->
      get_prop parsed "nodes" = Normal nodes ->
      (forall items, nodes = VArr items -> (length items < 2)%nat) ->
      SummaryEndpoint.POST apiKey generateText (Normal parsed)
        = SummaryEndpoint.mkReply 400
            (VObj [("success", VBool false); ("error", VStr "Invalid path nodes provided")])).
Proof.
  split.
  - intros fetch p st Hlen. unfold SummaryService.fetchSummary.
    apply Nat.ltb_lt in Hlen. by rewrite Hlen.
  - intros apiKey generateText parsed nodes Hkey Hnodes Hshort.
    by apply (POST_invalid_nodes apiKey generateText parsed nodes).
Qed.

Lemma short_path_is_rejected_witness :
  SummaryService.fetchSummary SummaryService.server_error
    (SummaryService.mkParams [SummaryService.mkNode "n1" "Lobby" "ROOM"] "floor-1" true)
    SummaryService.initial = (Normal None, SummaryService.initial) /\
  SummaryEndpoint.status
    (SummaryEndpoint.POST (Some "key") (fun _ _ => Normal "Go on.")
       (Normal (VObj [("nodes", VArr [VStr "n1"]); ("isLastMap", VBool true)]))) = 400%Z /\
  SummaryEndpoint.status
    (SummaryEndpoint.POST (Some "key") (fun _ _ => Normal "Go on.")
       (Normal (VObj [("isLastMap", VBool true)]))) = 400%Z.
Proof.
  destruct short_path_is_rejected as [Hservice Hendpoint].
  split; [|split].
  - apply Hservice. cbn. lia.
  - rewrite (Hendpoint (Some "key") _ _ (VArr [VStr "n1"])); [reflexivity..|].
    intros items [= <-]. cbn. lia.
  - rewrite (Hendpoint (Some "key") _ _ VUndefined); [reflexivity..|].
    intros items [=].
Defined.

(** C8 as stated fails when the API key is not set: the endpoint answers
    500 to a request with an empty [nodes] array, the check of the key
    coming first. *)
Lemma summary_endpoint_without_key_answers_500 :
  SummaryEndpoint.POST None (fun _ _ => Normal "Go on.")
    (Normal (VObj [("nodes", VArr []); ("isLastMap", VBool true)]))
  = SummaryEndpoint.mkReply 500
      (VObj [("success", VBool false); ("error", VStr "GEMINI_API_KEY is not set")]).
Proof. reflexivity. Qed.

End SummaryEndpointFacts.


(* --------------------------------------------------------------------- *)
(** ** The summary endpoint: its replies, and the service reading them *)

Section SummaryReplyFacts.
Import JS JS.Notations.

(** The replies of the try block. *)
Lemma POST_try_replies apiKey generateText reqJson reply :
  SummaryEndpoint.POST_try apiKey generateText reqJson = Normal reply ->
  (exists summary,
      summary <> "" /\ trim summary = summary /\
      reply = SummaryEndpoint.mkReply 200
                (VObj [("success", VBool true); ("summary", VStr summary)])) \/
  reply = SummaryEndpoint.failure 500 "GEMINI_API_KEY is not set" \/
  reply = SummaryEndpoint.failure 400 "Invalid path nodes provided" \/
  reply = SummaryEndpoint.failure 502 "Empty summary response from model".
Proof.
  unfold SummaryEndpoint.POST_try, bindC.
  destruct (negb (truthy_str apiKey)); [intros [= <-]; auto|].
  destruct reqJson as [parsed|e]; [|discriminate].
  destruct (get_prop parsed "nodes") as [nodes|e]; [|discriminate].
  destruct (get_prop parsed "isLastMap") as [flag|e]; [|discriminate].
  destruct (_ || _); [intros [= <-]; auto|].
  destruct (generateText _ _) as [text|e]; [|discriminate].
  destruct (String.eqb (trim text) "") eqn:Hb; intros [= <-]; [auto|].
  left. exists (trim text). split; [|split; [apply trim_idempotent|done]].
  intros Hc. rewrite Hc in Hb. discriminate.
Qed.

(** X5: every reply of the summary endpoint is either a 200 whose summary
    is a non-empty string without surrounding whitespace, or a failure
    with [success: false] and status 400, 500 or 502; it never answers
    200 with a blank summary. *)
Theorem summary_endpoint_replies apiKey generateText reqJson :
  let reply := SummaryEndpoint.POST apiKey generateText reqJson in
  (exists summary,
      summary <> "" /\ trim summary = summary /\
      reply = SummaryEndpoint.mkReply 200
                (VObj [("success", VBool true); ("summary", VStr summary)])) \/
  (exists error,
      (SummaryEndpoint.status reply = 400 \/ SummaryEndpoint.status reply = 500
       \/ SummaryEndpoint.status reply = 502)%Z /\
      SummaryEndpoint.body reply = VObj [("success", VBool false); ("error", VStr error)]).
Proof.
  intros reply. unfold reply, SummaryEndpoint.POST.
  destruct (SummaryEndpoint.POST_try apiKey generateText reqJson) as [r|e] eqn:Htry.
  - destruct (POST_try_replies _ _ _ _ Htry) as [Hok|[-> |[-> | ->]]].
    + by left.
    + right. exists "GEMINI_API_KEY is not set". cbn. auto.
    + right. exists "Invalid path nodes provided". cbn. auto.
    + right. exists "Empty summary response from model". cbn. auto.
  - right. exists "Failed to generate summary". cbn. auto.
Qed.

(** A payload with a non-blank summary is cached after trimming. *)
Lemma fetchSummary_caches_payload fetch p st r data s :
  (2 <= length (SummaryService.nodes p))%nat ->
  let key := SummaryService.cacheKeyOf (SummaryService.mapId p) (SummaryService.nodes p)
               (SummaryService.isLastMap p) in
  let rq := SummaryService.mkRequest (SummaryService.nodes p) (SummaryService.isLastMap p) in
  SummaryService.summaryCache st !! key = None ->
  fetch rq = Normal r ->
  SummaryService.ok r = true ->
  SummaryService.json r = Normal data ->
  get_prop data "success" = Normal (VBool true) ->
  get_prop data "summary" = Normal (VStr s) ->
  trim s <> "" ->
  SummaryService.fetchSummary fetch p st
  = (Normal (Some (trim s)),
     SummaryService.mkService (<[key := trim s]> (SummaryService.summaryCache st))
       (SummaryService.requests st ++ [rq])).
Proof.
  intros Hlen key rq Hmiss Hfetch Hok Hjson Hsuccess Hsummary Hne.
  unfold SummaryService.fetchSummary.
  destruct (length (SummaryService.nodes p) <? 2)%nat eqn:Hl; [apply Nat.ltb_lt in Hl; lia|].
  unfold bind, SummaryService.cache_has, ret, catch. fold key.
  rewrite bool_decide_eq_false_2 by (rewrite Hmiss; by intros [? ?]).
  unfold SummaryService.fetchSummary_try, bind, SummaryService.do_fetch, lift, ret,
    SummaryService.cache_set.
  fold rq. rewrite Hfetch, Hok. cbn. rewrite Hjson, Hsuccess. cbn. rewrite Hsummary.
  destruct (String.eqb (trim s) "") eqn:Hb; [apply String.eqb_eq in Hb; done|].
  reflexivity.
Qed.

(** X6: the service and the endpoint fit together: when the collaborator's
    response is OK and carries the body of a 200 reply of the summary
    endpoint, a call of [fetchSummary] that misses the cache returns the
    summary of that reply unchanged and caches it under the key of the
    call. *)
Theorem endpoint_summary_is_cached_verbatim apiKey generateText reqJson
    (fetch : SummaryService.Fetch) (p : SummaryService.GenerateSummaryParams)
    (st : SummaryService.Service) (r : SummaryService.Response) :
  let reply := SummaryEndpoint.POST apiKey generateText reqJson in
  let key := SummaryService.cacheKeyOf (SummaryService.mapId p) (SummaryService.nodes p)
               (SummaryService.isLastMap p) in
  let rq := SummaryService.mkRequest (SummaryService.nodes p) (SummaryService.isLastMap p) in
  SummaryEndpoint.status reply = 200%Z ->
  (2 <= length (SummaryService.nodes p))%nat ->
  SummaryService.summaryCache st !! key = None ->
  fetch rq = Normal r ->
  SummaryService.ok r = true ->
  SummaryService.json r = Normal (SummaryEndpoint.body reply) ->
  exists summary,
    get_prop (SummaryEndpoint.body reply) "summary" = Normal (VStr summary) /\
    SummaryService.fetchSummary fetch p st
    = (Normal (Some summary),
       SummaryService.mkService (<[key := summary]> (SummaryService.summaryCache st))
         (SummaryService.requests st ++ [rq])).
Proof.
  intros reply key rq Hstatus Hlen Hmiss Hfetch Hok Hjson.
  assert (Hreply : exists summary, summary <> "" /\ trim summary = summary /\
            SummaryEndpoint.body reply
            = VObj [("success", VBool true); ("summary", VStr summary)]).
  { unfold reply in *. unfold SummaryEndpoint.POST in *.
    destruct (SummaryEndpoint.POST_try apiKey generateText reqJson) as [r'|e] eqn:Htry;
      [|discriminate].
    destruct (POST_try_replies _ _ _ _ Htry) as [(s & Hs & Ht & ->)|[-> |[-> | ->]]];
      try discriminate.
    exists s. auto. }
  destruct Hreply as (summary & Hne & Htrim & Hbody).
  exists summary. split; [by rewrite Hbody|].
  rewrite <- Htrim.
  apply (fetchSummary_caches_payload fetch p st r (SummaryEndpoint.body reply) summary);
    auto; try (by rewrite Hbody). by rewrite Htrim.
Qed.

Lemma endpoint_summary_is_cached_verbatim_witness :
  let reply := SummaryEndpoint.POST (Some "key") (fun _ _ => Normal " Pass the lobby. ")
                 (Normal (VObj [("nodes", VArr [VStr "n1"; VStr "n2"]);
                                ("isLastMap", VBool false)])) in
  SummaryEndpoint.status reply = 200%Z /\
  fst (SummaryService.fetchSummary
         (SummaryService.answering (SummaryEndpoint.body reply))
         SummaryService.lobby_to_lift SummaryService.initial)
  = Normal (Some "Pass the lobby.").
Proof.
  split; [reflexivity|].
  destruct (endpoint_summary_is_cached_verbatim (Some "key")
              (fun _ _ => Normal " Pass the lobby. ")
              (Normal (VObj [("nodes", VArr [VStr "n1"; VStr "n2"]);
                             ("isLastMap", VBool false)]))
              (SummaryService.answering
                 (VObj [("success", VBool true); ("summary", VStr "Pass the lobby.")]))
              SummaryService.lobby_to_lift SummaryService.initial
              (SummaryService.mkResponse true 200 (Normal "")
                 (Normal (VObj [("success", VBool true); ("summary", VStr "Pass the lobby.")])))
              eq_refl (le_n 2) eq_refl eq_refl eq_refl eq_refl)
    as (summary & Hsummary & Hcall).
  cbn in Hsummary. injection Hsummary as <-. exact (f_equal fst Hcall).
Defined.

End SummaryReplyFacts.


(* --------------------------------------------------------------------- *)
(** ** Image URLs *)

Section ImageUtilsFacts.
Import JS ImageUtils.

Lemma replace_first_prefix (s p : string) :
  startsWith s p = true -> replace_first_empty s p = drop_prefix s p.
Proof. intros H. destruct s; cbn [replace_first_empty]; by rewrite H. Qed.

Lemma startsWith_iff (s p : string) :
  startsWith s p = true <-> exists rest, s = p +:+ rest.
Proof.
  split.
  - intros H. exists (drop_prefix s p). by apply startsWith_split.
  - intros [rest ->]. apply startsWith_app.
Qed.

(** The image id of a database image URL is what follows the prefix. *)
Lemma database_image_id (url : string) :
  isDatabaseImage url = true ->
  getImageIdFromUrl url = Some (drop_prefix url "/api/images/") /\
  url = "/api/images/" +:+ drop_prefix url "/api/images/".
Proof.
  intros H. unfold getImageIdFromUrl. rewrite H. cbn [negb].
  unfold isDatabaseImage in H. rewrite (replace_first_prefix _ _ H).
  split; [done|]. by apply startsWith_split.
Qed.

(** X7: [getImageIdFromUrl] undoes the way a database image URL is built:
    it returns an id exactly for the URLs "/api/images/" followed by that
    id, also when the id is empty or itself contains "/api/images/". *)
Theorem getImageIdFromUrl_round_trip (url imageId : string) :
  getImageIdFromUrl url = Some imageId <-> url = "/api/images/" +:+ imageId.
Proof.
  split.
  - unfold getImageIdFromUrl.
    destruct (isDatabaseImage url) eqn:Hdb; [|discriminate].
    cbn [negb]. unfold isDatabaseImage in Hdb.
    rewrite (replace_first_prefix _ _ Hdb). intros [= <-].
    by apply startsWith_split.
  - intros ->. unfold getImageIdFromUrl, isDatabaseImage.
    rewrite startsWith_app. cbn [negb].
    by rewrite (replace_first_prefix _ _ (startsWith_app _ _)), drop_prefix_app.
Qed.

(** X8: the storage type is "database" exactly for the URLs that have an
    image id, "local" exactly for those beginning with "/maps/", and
    "external" for all others; no URL passes both tests, so their order
    does not matter. *)
Theorem getImageStorageType_classifies (url : string) :
  (getImageStorageType url = database <-> exists imageId, getImageIdFromUrl url = Some imageId) /\
  (getImageStorageType url = local <-> exists rest, url = "/maps/" +:+ rest) /\
  (getImageStorageType url = external <->
     isDatabaseImage url = false /\ isLocalImage url = false) /\
  (isDatabaseImage url && isLocalImage url = false).
Proof.
  assert (Hexcl : isDatabaseImage url && isLocalImage url = false).
  { destruct (isLocalImage url) eqn:Hloc; [|by rewrite andb_false_r].
    apply startsWith_iff in Hloc as [rest ->]. reflexivity. }
  unfold getImageStorageType, getImageIdFromUrl.
  destruct (isDatabaseImage url) eqn:Hdb; cbn [andb negb] in *.
  - rewrite Hexcl. repeat split; try done; try by intros [? ?].
    + intros _. eauto.
    + intros [rest ->]. unfold isLocalImage in Hexcl. by rewrite startsWith_app in Hexcl.
  - destruct (isLocalImage url) eqn:Hloc; repeat split; try done; try by intros [? ?].
    + intros _. by apply startsWith_iff.
    + intros [rest ->]. unfold isLocalImage in Hloc. by rewrite startsWith_app in Hloc.
Qed.

End ImageUtilsFacts.


(* --------------------------------------------------------------------- *)
(** ** The maps route *)

Section MapsRouteFacts.
Import JS JS.Notations ImageUtils MapsRoute.

Lemma filter_head_find {A} (P : A -> bool) (l : list A) :
  head (filter (fun x => P x = true) l) = List.find P l.
Proof.
  induction l as [|a l IH]; [done|].
  rewrite filter_cons. cbn. destruct (P a) eqn:Ha.
  - rewrite decide_True by done. done.
  - rewrite decide_False by congruence. done.
Qed.

Lemma where_id_eq_rejected faults wanted db e :
  faults (WhereIdEq wanted) = Some e ->
  where_id_eq faults wanted db = (Throw e, called db (WhereIdEq wanted)).
Proof. intros Hf. unfold where_id_eq, db_call. by rewrite Hf. Qed.

Lemma where_id_eq_answered faults wanted db :
  faults (WhereIdEq wanted) = None ->
  where_id_eq faults wanted db
  = (Normal (map snapshot_of (filter (fun e => has_id wanted e = true) (maps db))),
     called db (WhereIdEq wanted)).
Proof. intros Hf. unfold where_id_eq, db_call. by rewrite Hf. Qed.

Lemma doc_get_rejected faults docId db e :
  faults (DocGet docId) = Some e ->
  doc_get faults docId db = (Throw e, called db (DocGet docId)).
Proof. intros Hf. unfold doc_get, db_call. by rewrite Hf. Qed.

Lemma doc_get_answered faults docId db :
  faults (DocGet docId) = None ->
  doc_get faults docId db
  = (Normal (mkSnapshot docId (find_doc docId (maps db))), called db (DocGet docId)).
Proof. intros Hf. unfold doc_get, db_call. by rewrite Hf. Qed.

Lemma GET_run faults wanted db : GETRun faults wanted db (GET faults wanted db).
Proof.
  unfold GET, catch, bind.
  destruct (faults (WhereIdEq wanted)) as [e|] eqn:Hq.
  { rewrite (where_id_eq_rejected _ _ _ e Hq). by constructor. }
  rewrite (where_id_eq_answered _ _ _ Hq).
  pose proof (filter_head_find (has_id wanted) (maps db)) as Hhead.
  destruct (filter _ (maps db)) as [|[docId d] rest]; cbn in Hhead |- *.
  - destruct (faults (DocGet wanted)) as [e|] eqn:Hg.
    { rewrite (doc_get_rejected _ _ _ e Hg). by constructor. }
    rewrite (doc_get_answered _ _ _ Hg).
    change (maps (called db (WhereIdEq wanted))) with (maps db).
    destruct (find_doc wanted (maps db)) as [d|] eqn:Hd;
      unfold doc_exists, ret; cbn; by constructor.
  - unfold ret. by constructor.
Qed.


Lemma has_id_true wanted docId d :
  has_id wanted (docId, d) = true -> id d = Some wanted.
Proof.
  unfold has_id. cbn. destruct (id d) as [i|]; [|discriminate].
  intros Hi. apply String.eqb_eq in Hi. by subst.
Qed.

Lemma find_none_all {A} (P : A -> bool) (l : list A) :
  List.find P l = None -> forall x, x ∈ l -> P x = false.
Proof. intros Hf x Hx. apply (find_none P l Hf). by apply list_elem_of_In. Qed.

Lemma with_id_same wanted d docId :
  id d = Some wanted -> wanted <> "" -> with_id d docId = d.
Proof.
  intros Hid Hne. unfold with_id. rewrite Hid. cbn.
  destruct (String.eqb wanted "") eqn:He.
  - apply String.eqb_eq in He. done.
  - cbn. destruct d; cbn in *. by subst.
Qed.

(** C3: [GET /api/maps/[id]] queries first for a document whose [id]
    field equals the requested id and, when there is one, returns it
    without a second call; it fetches by document id only after that
    query came back empty; its answer is the one of the lookup rule of
    the spec; and it answers 404 only when no document has that [id]
    field and none is stored under that document id. *)
Theorem GET_tries_application_id_first
    (faults : Faults) (wanted : string) (db : Firestore) :
  let result := GET faults wanted db in
  (exists more,
      calls (snd result) = calls db ++ WhereIdEq wanted :: more /\
      (more = [] \/
       more = [DocGet wanted] /\ faults (WhereIdEq wanted) = None /\
       forall entry, entry ∈ maps db -> has_id wanted entry = false)) /\
  (forall docId d,
      faults (WhereIdEq wanted) = None ->
      List.find (has_id wanted) (maps db) = Some (docId, d) ->
      id d = Some wanted /\
      result = (Normal (mkReply 200 (Found (with_id d docId))),
                called db (WhereIdEq wanted)) /\
      (wanted <> "" -> with_id d docId = d)) /\
  (faults (WhereIdEq wanted) = None -> faults (DocGet wanted) = None ->
      fst result = Normal match lookup_spec wanted (maps db) with
                          | Some (docId, d) => mkReply 200 (Found (with_id d docId))
                          | None => not_found wanted
                          end) /\
  (forall reply, fst result = Normal reply -> status reply = 404%Z ->
      (forall entry, entry ∈ maps db -> has_id wanted entry = false) /\
      (forall entry, entry ∈ maps db -> fst entry <> wanted)).
Proof.
  intros result. subst result.
  destruct (GET_run faults wanted db)
    as [e Hq|docId d Hq Hfind|e Hq Hfind Hg|Hq Hfind Hg Hdoc|d Hq Hfind Hg Hdoc];
    cbn [fst snd called calls].
  - split; [exists []; split; [done|by left]|].
    split; [intros; congruence|]. split; [intros; congruence|].
    intros reply [= <-]. discriminate.
  - split; [exists []; split; [done|by left]|].
    split.
    { intros docId' d' _ Hfind'. rewrite Hfind in Hfind'. injection Hfind' as <- <-.
      assert (Hid : id d = Some wanted).
      { apply (has_id_true wanted docId). by apply (find_some _ _ Hfind). }
      split; [exact Hid|]. split; [done|]. intros Hne. by apply (with_id_same wanted). }
    split; [intros _ _; unfold lookup_spec; by rewrite Hfind|].
    intros reply [= <-]. discriminate.
  - split.
    { exists [DocGet wanted]. split; [by rewrite <- app_assoc|]. right.
      split; [done|]. split; [done|]. by apply find_none_all. }
    split; [intros; congruence|]. split; [intros; congruence|].
    intros reply [= <-]. discriminate.
  - split.
    { exists [DocGet wanted]. split; [by rewrite <- app_assoc|]. right.
      split; [done|]. split; [done|]. by apply find_none_all. }
    split; [intros; congruence|].
    split.
    { intros _ _. unfold lookup_spec. rewrite Hfind.
      unfold find_doc in Hdoc.
      by destruct (List.find (fun e => String.eqb (fst e) wanted) (maps db)). }
    intros reply _ _. split; [by apply find_none_all|].
    intros entry Hin Heq. unfold find_doc in Hdoc.
    destruct (List.find (fun e => String.eqb (fst e) wanted) (maps db)) eqn:Hf;
      [discriminate|].
    pose proof (find_none_all _ _ Hf entry Hin) as Hno. cbn in Hno.
    apply String.eqb_neq in Hno. done.
  - split.
    { exists [DocGet wanted]. split; [by rewrite <- app_assoc|]. right.
      split; [done|]. split; [done|]. by apply find_none_all. }
    split; [intros; congruence|].
    split.
    { intros _ _. unfold lookup_spec. rewrite Hfind.
      unfold find_doc in Hdoc.
      destruct (List.find (fun e => String.eqb (fst e) wanted) (maps db));
        [|discriminate].
      cbn in Hdoc. by injection Hdoc as ->. }
    intros reply [= <-]. discriminate.
Qed.

Lemma GET_tries_application_id_first_witness :
  GET no_faults "ground" two_maps
  = (Normal (mkReply 200 (Found ground_floor)), called two_maps (WhereIdEq "ground")).
Proof.
  destruct (GET_tries_application_id_first no_faults "ground" two_maps)
    as (_ & Hfound & _).
  destruct (Hfound "doc-A" ground_floor eq_refl eq_refl) as (_ & Hrun & Hsame).
  rewrite Hrun. by rewrite Hsame.
Defined.


Lemma isDatabaseImage_nonempty url : isDatabaseImage url = true -> url <> "".
Proof. intros Hdb ->. discriminate. Qed.

(** A rejected image deletion is caught: the step completes normally and
    only records the call. *)
Lemma delete_image_of_rejected faults d url imageId e db :
  imageUrl d = Some url ->
  getImageIdFromUrl url = Some imageId ->
  imageId <> "" ->
  faults (ImageDelete imageId) = Some e ->
  delete_image_of faults (Some d) db = (Normal tt, called db (ImageDelete imageId)).
Proof.
  intros Hurl Hid Hne Hfault. unfold delete_image_of. rewrite Hurl.
  assert (Hdb : isDatabaseImage url = true).
  { unfold getImageIdFromUrl in Hid. by destruct (isDatabaseImage url). }
  pose proof (isDatabaseImage_nonempty url Hdb) as Hu.
  apply String.eqb_neq in Hu. rewrite Hu, Hdb, Hid. cbn.
  apply String.eqb_neq in Hne. rewrite Hne. cbn.
  unfold catch, image_delete, db_call. by rewrite Hfault.
Qed.

Lemma doc_delete_answered faults docId db :
  faults (DocDelete docId) = None ->
  doc_delete faults docId db
  = (Normal tt,
     mkFirestore (filter (fun e => String.eqb (fst e) docId = false) (maps db))
                 (map_images db) (calls db ++ [DocDelete docId])).
Proof. intros Hf. unfold doc_delete, db_call. by rewrite Hf. Qed.

Lemma find_doc_deleted docId (l : list (string * MapData)) :
  find_doc docId (filter (fun e => String.eqb (fst e) docId = false) l) = None.
Proof.
  unfold find_doc.
  destruct (List.find _ (filter _ l)) as [entry|] eqn:Hf; [|done].
  apply find_some in Hf as [Hin Heq].
  apply list_elem_of_In, list_elem_of_filter in Hin as [Hne _]. congruence.
Qed.

(** C10: when the map is found, its [imageUrl] is a database image and
    the store rejects the deletion of that image, [DELETE /api/maps/[id]]
    still goes on to delete the map document and answers with success: the
    rejected call is the last one before the deletion of the map, the map
    document is gone afterwards and the image document is still there. *)
Theorem DELETE_survives_image_failure
    (faults : Faults) (wanted : string) (db : Firestore)
    (docRef : string) (d : MapData) (url imageId : string) (e : Error) :
  faults (WhereIdEq wanted) = None ->
  faults (DocGet wanted) = None ->
  lookup_spec wanted (maps db) = Some (docRef, d) ->
  imageUrl d = Some url ->
  getImageIdFromUrl url = Some imageId ->
  imageId <> "" ->
  faults (ImageDelete imageId) = Some e ->
  faults (DocDelete docRef) = None ->
  let result := DELETE faults wanted db in
  fst result
    = Normal (mkReply 200 (Done ("Map '" +:+ wanted +:+ "' deleted successfully"))) /\
  (exists lookups,
      calls (snd result)
      = calls db ++ lookups ++ [ImageDelete imageId; DocDelete docRef]) /\
  maps (snd result) = filter (fun e => String.eqb (fst e) docRef = false) (maps db) /\
  find_doc docRef (maps (snd result)) = None /\
  map_images (snd result) = map_images db.
Proof.
  intros Hq Hg Hlookup Hurl Hid Hne Himage Hdelete result. subst result.
  unfold DELETE, catch, bind.
  rewrite (where_id_eq_answered _ _ _ Hq).
  pose proof (filter_head_find (has_id wanted) (maps db)) as Hhead.
  unfold lookup_spec in Hlookup.
  destruct (filter _ (maps db)) as [|[docId d'] rest]; cbn in Hhead; cbn [map].
  - rewrite <- Hhead in Hlookup.
    rewrite (doc_get_answered _ _ _ Hg).
    change (maps (called db (WhereIdEq wanted))) with (maps db).
    unfold find_doc, doc_exists.
    destruct (List.find (fun e => String.eqb (fst e) wanted) (maps db)) as [entry|];
      [|discriminate].
    injection Hlookup as <- <-. cbn [fmap option_fmap option_map data negb ret].
    rewrite (delete_image_of_rejected _ _ url imageId e _ Hurl Hid Hne Himage).
    rewrite (doc_delete_answered _ _ _ Hdelete). cbn.
    split; [done|]. split.
    { exists [WhereIdEq wanted; DocGet wanted]. by rewrite <- !app_assoc. }
    split; [done|]. split; [apply find_doc_deleted|done].
  - rewrite <- Hhead in Hlookup. injection Hlookup as <- <-.
    cbn [map snapshot_of fst snd doc_id data ret].
    rewrite (delete_image_of_rejected _ _ url imageId e _ Hurl Hid Hne Himage).
    rewrite (doc_delete_answered _ _ _ Hdelete). cbn.
    split; [done|]. split.
    { exists [WhereIdEq wanted]. by rewrite <- !app_assoc. }
    split; [done|]. split; [apply find_doc_deleted|done].
Qed.

Lemma DELETE_survives_image_failure_witness :
  let result := DELETE image_delete_fails "ground" two_maps in
  fst result = Normal (mkReply 200 (Done "Map 'ground' deleted successfully")) /\
  calls (snd result) = [WhereIdEq "ground"; ImageDelete "map-17-abc"; DocDelete "doc-A"] /\
  maps (snd result) = [("doc-B", first_floor)] /\
  map_images (snd result) = ["map-17-abc"].
Proof.
  destruct (DELETE_survives_image_failure image_delete_fails "ground" two_maps
              "doc-A" ground_floor "/api/images/map-17-abc" "map-17-abc"
              (mkError "UNAVAILABLE" None)
              eq_refl eq_refl eq_refl eq_refl eq_refl
              ltac:(discriminate) eq_refl eq_refl)
    as (Hreply & _ & Hmaps & _ & Himages).
  split; [exact Hreply|]. split; [reflexivity|]. split; [exact Hmaps|exact Himages].
Defined.

End MapsRouteFacts.


(* --------------------------------------------------------------------- *)
(** ** The maps route: what a deletion removes *)

Section MapsDeleteFacts.
Import JS JS.Notations ImageUtils MapsRoute.

Lemma doc_delete_rejected faults docId db e :
  faults (DocDelete docId) = Some e ->
  doc_delete faults docId db = (Throw e, called db (DocDelete docId)).
Proof. intros Hf. unfold doc_delete, db_call. by rewrite Hf. Qed.

(** The image step never throws and never touches the maps; it removes
    at most the image the map's URL names. *)
Lemma delete_image_of_effect faults mapData db :
  fst (delete_image_of faults mapData db) = Normal tt /\
  maps (snd (delete_image_of faults mapData db)) = maps db /\
  (map_images (snd (delete_image_of faults mapData db)) = map_images db \/
   exists d imageId,
     mapData = Some d /\ imageUrl d = Some ("/api/images/" +:+ imageId) /\
     map_images (snd (delete_image_of faults mapData db))
     = filter (fun i => String.eqb i imageId = false) (map_images db)).
Proof.
  unfold delete_image_of.
  destruct mapData as [d|]; [|by repeat split; auto].
  destruct (imageUrl d) as [url|] eqn:Hurl; [|by repeat split; auto].
  destruct (negb (String.eqb url "") && isDatabaseImage url) eqn:Hdb;
    [|by repeat split; auto].
  apply andb_true_iff in Hdb as [_ Hdb].
  destruct (database_image_id url Hdb) as [-> Hsplit].
  destruct (negb (String.eqb _ "")); [|by repeat split; auto].
  unfold catch, image_delete, db_call, ret.
  destruct (faults (ImageDelete _)); cbn; repeat split; auto.
  right. exists d, (drop_prefix url "/api/images/"). by rewrite <- Hsplit.
Qed.

Lemma target_of_first wanted (stored : list (string * MapData)) first rest :
  filter (fun e => has_id wanted e = true) stored = first :: rest ->
  target_of wanted stored = Some first.
Proof.
  intros Hf. unfold target_of.
  by rewrite <- (filter_head_find (has_id wanted) stored), Hf.
Qed.

Lemma target_of_fallback wanted (stored : list (string * MapData)) :
  filter (fun e => has_id wanted e = true) stored = [] ->
  target_of wanted stored = (fun d => (wanted, d)) <$> find_doc wanted stored.
Proof.
  intros Hf. unfold target_of.
  rewrite <- (filter_head_find (has_id wanted) stored), Hf. cbn.
  by destruct (find_doc wanted stored).
Qed.

(** Every run of [DELETE] ends with a reply; the maps are as before
    unless the reply is 200, and then the documents stored under the id
    of the target are gone; of the images at most the target's is gone. *)
Lemma DELETE_outcome faults wanted db :
  exists reply,
    fst (DELETE faults wanted db) = Normal reply /\
    ((status reply <> 200%Z /\ maps (snd (DELETE faults wanted db)) = maps db) \/
     (status reply = 200%Z /\
      exists docRef d,
        target_of wanted (maps db) = Some (docRef, d) /\
        maps (snd (DELETE faults wanted db))
        = filter (fun e => String.eqb (fst e) docRef = false) (maps db))) /\
    (map_images (snd (DELETE faults wanted db)) = map_images db \/
     exists docRef d imageId,
       target_of wanted (maps db) = Some (docRef, d) /\
       imageUrl d = Some ("/api/images/" +:+ imageId) /\
       map_images (snd (DELETE faults wanted db))
       = filter (fun i => String.eqb i imageId = false) (map_images db)).
Proof.
  assert (Hstep : forall docRef d db1,
    maps db1 = maps db -> map_images db1 = map_images db ->
    target_of wanted (maps db) = Some (docRef, d) ->
    let out :=
      (let* _ := delete_image_of faults (Some d) in
       let* _ := doc_delete faults docRef in
       ret (mkReply 200 (Done ("Map '" +:+ wanted +:+ "' deleted successfully")))) db1 in
    exists reply,
      catch (fun _ => out) (fun error => ret (mkReply 500 (Failed (message error)))) db1
      = (Normal reply, snd (catch (fun _ => out)
                              (fun error => ret (mkReply 500 (Failed (message error)))) db1)) /\
      ((status reply <> 200%Z /\
        maps (snd (catch (fun _ => out)
                     (fun error => ret (mkReply 500 (Failed (message error)))) db1)) = maps db) \/
       (status reply = 200%Z /\
        maps (snd (catch (fun _ => out)
                     (fun error => ret (mkReply 500 (Failed (message error)))) db1))
        = filter (fun e => String.eqb (fst e) docRef = false) (maps db))) /\
      (map_images (snd (catch (fun _ => out)
                          (fun error => ret (mkReply 500 (Failed (message error)))) db1))
       = map_images db \/
       exists imageId,
         imageUrl d = Some ("/api/images/" +:+ imageId) /\
         map_images (snd (catch (fun _ => out)
                            (fun error => ret (mkReply 500 (Failed (message error)))) db1))
         = filter (fun i => String.eqb i imageId = false) (map_images db))).
  { intros docRef d db1 Hm Hi Ht out. subst out. unfold catch, bind.
    destruct (delete_image_of_effect faults (Some d) db1) as (Hr & Hmaps & Himg).
    destruct (delete_image_of faults (Some d) db1) as [c db2]. cbn in Hr, Hmaps, Himg.
    subst c.
    assert (Himg' : map_images db2 = map_images db \/
              exists imageId, imageUrl d = Some ("/api/images/" +:+ imageId) /\
                map_images db2 = filter (fun i => String.eqb i imageId = false) (map_images db)).
    { destruct Himg as [->|(d' & imageId & [= <-] & Hurl & ->)]; [by left|].
      right. exists imageId. by rewrite Hi. }
    destruct (faults (DocDelete docRef)) as [e|] eqn:Hd.
    - rewrite (doc_delete_rejected _ _ _ e Hd). cbn.
      eexists. split; [reflexivity|]. split; [left; split; [done|congruence]|exact Himg'].
    - rewrite (doc_delete_answered _ _ _ Hd). cbn.
      eexists. split; [reflexivity|]. split; [right; split; [done|by rewrite Hmaps, Hm]|exact Himg']. }
  unfold DELETE.
  destruct (faults (WhereIdEq wanted)) as [e|] eqn:Hq.
  { unfold catch, bind. rewrite (where_id_eq_rejected _ _ _ e Hq). cbn.
    eexists. split; [reflexivity|]. split; [left; split; [done|reflexivity]|by left]. }
  destruct (filter (fun e => has_id wanted e = true) (maps db)) as [|[docId d] rest] eqn:Hf.
  - destruct (faults (DocGet wanted)) as [e|] eqn:Hg.
    { unfold catch, bind. rewrite (where_id_eq_answered _ _ _ Hq), Hf. cbn [map].
      rewrite (doc_get_rejected _ _ _ e Hg). cbn.
      eexists. split; [reflexivity|]. split; [left; split; [done|reflexivity]|by left]. }
    pose proof (target_of_fallback wanted (maps db) Hf) as Ht.
    destruct (find_doc wanted (maps db)) as [d|] eqn:Hd.
    + specialize (Hstep wanted d (called (called db (WhereIdEq wanted)) (DocGet wanted))
                    eq_refl eq_refl Ht).
      cbn zeta in Hstep. destruct Hstep as (reply & Hrun & Hmaps & Himg).
      assert (Hsame : DELETE faults wanted db
                = catch (fun _ => (let* _ := delete_image_of faults (Some d) in
                                   let* _ := doc_delete faults wanted in
                                   ret (mkReply 200 (Done ("Map '" +:+ wanted +:+ "' deleted successfully"))))
                                    (called (called db (WhereIdEq wanted)) (DocGet wanted)))
                    (fun error => ret (mkReply 500 (Failed (message error))))
                    (called (called db (WhereIdEq wanted)) (DocGet wanted))).
      { unfold DELETE, catch, bind. rewrite (where_id_eq_answered _ _ _ Hq), Hf. cbn [map].
        rewrite (doc_get_answered _ _ _ Hg).
        change (maps (called db (WhereIdEq wanted))) with (maps db). rewrite Hd.
        reflexivity. }
      fold (DELETE faults wanted db). rewrite Hsame, Hrun. cbn [fst snd].
      exists reply. split; [done|]. split.
      * destruct Hmaps as [?|[? ?]]; [by left|right; split; [done|eauto]].
      * destruct Himg as [?|(imageId & ? & ?)]; [by left|right; eauto 6].
    + unfold catch, bind. rewrite (where_id_eq_answered _ _ _ Hq), Hf. cbn [map].
      rewrite (doc_get_answered _ _ _ Hg).
      change (maps (called db (WhereIdEq wanted))) with (maps db). rewrite Hd. cbn.
      eexists. split; [reflexivity|]. split; [left; split; [done|reflexivity]|by left].
  - pose proof (target_of_first wanted (maps db) _ _ Hf) as Ht.
    specialize (Hstep docId d (called db (WhereIdEq wanted)) eq_refl eq_refl Ht).
    cbn zeta in Hstep. destruct Hstep as (reply & Hrun & Hmaps & Himg).
    assert (Hsame : DELETE faults wanted db
              = catch (fun _ => (let* _ := delete_image_of faults (Some d) in
                                 let* _ := doc_delete faults docId in
                                 ret (mkReply 200 (Done ("Map '" +:+ wanted +:+ "' deleted successfully"))))
                                  (called db (WhereIdEq wanted)))
                  (fun error => ret (mkReply 500 (Failed (message error))))
                  (called db (WhereIdEq wanted))).
    { unfold DELETE, catch, bind. rewrite (where_id_eq_answered _ _ _ Hq), Hf.
      reflexivity. }
    fold (DELETE faults wanted db). rewrite Hsame, Hrun. cbn [fst snd].
    exists reply. split; [done|]. split.
    * destruct Hmaps as [?|[? ?]]; [by left|right; split; [done|eauto]].
    * destruct Himg as [?|(imageId & ? & ?)]; [by left|right; eauto 6].
Qed.

(** X9: [DELETE] removes nothing but its target: it always ends with a
    reply; unless the reply is 200 the maps are all still there; a map
    that is gone was stored under the document id of the target; and an
    image that is gone is the one the target's [imageUrl] names. The
    image may be gone although the map is not, when the deletion of the
    map is rejected after that of the image. *)
Theorem DELETE_removes_only_its_target (faults : Faults) (wanted : string) (db : Firestore) :
  let out := DELETE faults wanted db in
  exists reply,
    fst out = Normal reply /\
    (status reply <> 200%Z -> maps (snd out) = maps db) /\
    (forall e, e ∈ maps db -> e ∉ maps (snd out) ->
       status reply = 200%Z /\
       exists d, target_of wanted (maps db) = Some (fst e, d)) /\
    (forall i, i ∈ map_images db -> i ∉ map_images (snd out) ->
       exists docRef d,
         target_of wanted (maps db) = Some (docRef, d) /\
         imageUrl d = Some ("/api/images/" +:+ i)).
Proof.
  intros out. subst out.
  destruct (DELETE_outcome faults wanted db) as (reply & Hreply & Hmaps & Himages).
  exists reply. split; [exact Hreply|]. split; [|split].
  - intros Hstatus. destruct Hmaps as [[_ ?]|[? _]]; done.
  - intros e Hin Hgone.
    destruct Hmaps as [[_ Hsame]|(Hok & docRef & d & Ht & Hfilter)].
    { rewrite Hsame in Hgone. done. }
    split; [exact Hok|]. exists d.
    destruct (String.eqb (fst e) docRef) eqn:He.
    + apply String.eqb_eq in He. by rewrite He.
    + exfalso. apply Hgone. rewrite Hfilter. by apply list_elem_of_filter.
  - intros i Hin Hgone.
    destruct Himages as [Hsame|(docRef & d & imageId & Ht & Hurl & Hfilter)].
    { rewrite Hsame in Hgone. done. }
    exists docRef, d. split; [exact Ht|].
    destruct (String.eqb i imageId) eqn:Hi.
    + apply String.eqb_eq in Hi. by subst.
    + exfalso. apply Hgone. rewrite Hfilter. by apply list_elem_of_filter.
Qed.

Lemma find_doc_some docId (stored : list (string * MapData)) d :
  find_doc docId stored = Some d -> (docId, d) ∈ stored.
Proof.
  unfold find_doc. destruct (List.find _ stored) as [[i d']|] eqn:Hf; [|done].
  intros [= <-]. apply find_some in Hf as [Hin Heq]. cbn in Heq.
  apply String.eqb_eq in Heq. subst i. by apply list_elem_of_In.
Qed.

Lemma target_of_addressed wanted (stored : list (string * MapData)) docRef d :
  target_of wanted stored = Some (docRef, d) ->
  (docRef, d) ∈ stored /\ addressed wanted (docRef, d) = true.
Proof.
  unfold target_of, addressed.
  destruct (List.find (has_id wanted) stored) as [entry|] eqn:Hf.
  - intros [= ->]. apply find_some in Hf as [Hin Hid].
    split; [by apply list_elem_of_In|by rewrite Hid].
  - destruct (find_doc wanted stored) as [d'|] eqn:Hd; [|done].
    intros [= <- <-]. split; [by apply find_doc_some|].
    cbn. rewrite String.eqb_refl. apply orb_true_r.
Qed.

(** X10: after a [DELETE] that answered 200, a [GET] of the same id answers
    404, provided the id addressed the documents of one document id only:
    an id that is the [id] field of one document and the document id of
    another addresses both, and the second would be found afterwards. *)
Theorem DELETE_then_GET_not_found
    (faults : Faults) (wanted : string) (db : Firestore) (reply : Reply) :
  (forall e1 e2, e1 ∈ maps db -> e2 ∈ maps db ->
     addressed wanted e1 = true -> addressed wanted e2 = true -> fst e1 = fst e2) ->
  fst (DELETE faults wanted db) = Normal reply ->
  status reply = 200%Z ->
  fst (GET no_faults wanted (snd (DELETE faults wanted db))) = Normal (not_found wanted).
Proof.
  intros Hone Hreply Hok.
  destruct (DELETE_outcome faults wanted db) as (reply' & Hreply' & Hmaps & _).
  rewrite Hreply in Hreply'. injection Hreply' as <-.
  destruct Hmaps as [[Hno _]|(_ & docRef & d & Ht & Hfilter)]; [done|].
  destruct (target_of_addressed _ _ _ _ Ht) as [Hin Haddr].
  set (db' := snd (DELETE faults wanted db)) in *.
  assert (Hleft : forall e, e ∈ maps db' -> addressed wanted e = true -> False).
  { intros e He Ha. rewrite Hfilter in He. apply list_elem_of_filter in He as [Hne He].
    pose proof (Hone e (docRef, d) He Hin Ha Haddr) as Heq. cbn in Heq.
    rewrite Heq, String.eqb_refl in Hne. done. }
  destruct (GET_run no_faults wanted db') as [e Hf|docId d1 _ Hf|e _ _ Hf| |d1 _ _ _ Hd];
    try done.
  - exfalso. apply find_some in Hf as [Hin1 Hid].
    apply (Hleft (docId, d1)); [by apply list_elem_of_In|].
    unfold addressed. by rewrite Hid.
  - exfalso. apply find_doc_some in Hd.
    apply (Hleft (wanted, d1)); [done|].
    unfold addressed. cbn. rewrite String.eqb_refl. apply orb_true_r.
Qed.

Lemma DELETE_then_GET_not_found_witness :
  fst (DELETE image_delete_fails "ground" two_maps)
  = Normal (mkReply 200 (Done "Map 'ground' deleted successfully")) /\
  fst (GET no_faults "ground" (snd (DELETE image_delete_fails "ground" two_maps)))
  = Normal (mkReply 404 (Failed "Map 'ground' not found")).
Proof.
  split; [reflexivity|].
  apply (DELETE_then_GET_not_found image_delete_fails "ground" two_maps
           (mkReply 200 (Done "Map 'ground' deleted successfully"))); [|reflexivity..].
  intros e1 e2 H1 H2 A1 A2.
  apply list_elem_of_In in H1, H2. cbn in H1, H2.
  destruct H1 as [<-|[<-|[]]], H2 as [<-|[<-|[]]]; done.
Defined.

End MapsDeleteFacts.


(* --------------------------------------------------------------------- *)
(** ** The maps route: updates *)

Section MapsPutFacts.
Import JS JS.Notations ImageUtils MapsRoute.

Lemma update_entry_fst docId body e : fst (update_entry docId body e) = fst e.
Proof. unfold update_entry. by destruct (String.eqb (fst e) docId). Qed.

Lemma update_entry_id docId body e : id (snd (update_entry docId body e)) = id (snd e).
Proof. unfold update_entry. by destruct (String.eqb (fst e) docId). Qed.

Lemma update_entry_has_id wanted docId body e :
  has_id wanted (update_entry docId body e) = has_id wanted e.
Proof. unfold has_id. by rewrite update_entry_id. Qed.

Lemma find_map_kept {A} (P : A -> bool) (f : A -> A) (l : list A) :
  (forall x, P (f x) = P x) ->
  List.find P (map f l) = f <$> List.find P l.
Proof.
  intros HP. induction l as [|a l IH]; [done|].
  cbn. rewrite HP. by destruct (P a).
Qed.

Lemma find_updated_by_field wanted docId body (l : list (string * MapData)) :
  List.find (has_id wanted) (map (update_entry docId body) l)
  = update_entry docId body <$> List.find (has_id wanted) l.
Proof. apply find_map_kept. intros e. apply update_entry_has_id. Qed.

Lemma find_doc_updated k docId body (l : list (string * MapData)) :
  find_doc k (map (update_entry docId body) l)
  = (fun d => if String.eqb k docId then updated body d else d) <$> find_doc k l.
Proof.
  unfold find_doc.
  rewrite (find_map_kept (fun e => String.eqb (fst e) k) (update_entry docId body)).
  2:{ intros e. by rewrite update_entry_fst. }
  destruct (List.find _ l) as [[i d]|] eqn:Hf; [|done].
  apply find_some in Hf as [_ Hi]. cbn in Hi. apply String.eqb_eq in Hi. subst i.
  cbn. unfold update_entry. cbn. by destruct (String.eqb k docId).
Qed.

Lemma find_doc_elem k d (l : list (string * MapData)) :
  (k, d) ∈ l -> exists d1, find_doc k l = Some d1.
Proof.
  intros Hin. unfold find_doc.
  destruct (List.find (fun e => String.eqb (fst e) k) l) as [e|] eqn:Hf; [by eexists|].
  exfalso. pose proof (find_none _ _ Hf (k, d)) as Hno. cbn in Hno.
  rewrite String.eqb_refl in Hno. apply list_elem_of_In in Hin. by specialize (Hno Hin).
Qed.

Lemma NoDup_fst_unique {A} (l : list (string * A)) k a b :
  NoDup (map fst l) -> (k, a) ∈ l -> (k, b) ∈ l -> a = b.
Proof.
  induction l as [|[k' c] l IH]; intros Hnd Ha Hb; [by apply elem_of_nil in Ha|].
  cbn in Hnd. apply NoDup_cons in Hnd as [Hk Hnd].
  assert (Hfst : forall x, (k, x) ∈ l -> k ∈ map fst l).
  { intros x Hx. change k with (fst (k, x)). by apply list_elem_of_fmap_2. }
  apply elem_of_cons in Ha as [Ha|Ha], Hb as [Hb|Hb].
  - congruence.
  - injection Ha as Hkk _. subst k'. exfalso. by apply Hk, (Hfst b).
  - injection Hb as Hkk _. subst k'. exfalso. by apply Hk, (Hfst a).
  - by apply IH.
Qed.

Lemma target_of_stored wanted (stored : list (string * MapData)) docRef d :
  target_of wanted stored = Some (docRef, d) ->
  exists d1, find_doc docRef stored = Some d1.
Proof.
  intros Ht. destruct (target_of_addressed _ _ _ _ Ht) as [Hin _].
  by apply (find_doc_elem docRef d).
Qed.

(** Every run of [PUT] ends with a reply. Either something stood in the
    way (the body could not be read, a lookup or the update was rejected,
    or no document has the id), the reply is no 200 and the maps are as
    before; or the target was updated, and then the reply is a 500
    because the final read was rejected, or a 200 with what is stored
    under the id of the target after the update. *)
Lemma PUT_outcome faults rejected faults_after wanted reqJson db :
  let out := PUT faults rejected faults_after wanted reqJson db in
  exists reply,
    fst out = Normal reply /\
    map_images (snd out) = map_images db /\
    ((status reply <> 200%Z /\ maps (snd out) = maps db /\
      ((exists e, reqJson = Throw e) \/ faults (WhereIdEq wanted) <> None \/
       faults (DocGet wanted) <> None \/ rejected <> None \/
       (target_of wanted (maps db) = None /\ reply = not_found wanted))) \/
     (exists docRef d body,
        reqJson = Normal body /\
        target_of wanted (maps db) = Some (docRef, d) /\
        maps (snd out) = map (update_entry docRef body) (maps db) /\
        ((status reply = 500%Z /\ faults_after (DocGet docRef) <> None) \/
         exists stored,
           find_doc docRef (maps (snd out)) = Some stored /\
           reply = mkReply 200 (Found (with_id stored docRef))))).
Proof.
  intros out. subst out.
  pose (Q := fun (res : Completion Reply * Firestore) =>
    exists reply,
      fst res = Normal reply /\
      map_images (snd res) = map_images db /\
      ((status reply <> 200%Z /\ maps (snd res) = maps db /\
        ((exists e, reqJson = Throw e) \/ faults (WhereIdEq wanted) <> None \/
         faults (DocGet wanted) <> None \/ rejected <> None \/
         (target_of wanted (maps db) = None /\ reply = not_found wanted))) \/
       (exists docRef d body,
          reqJson = Normal body /\
          target_of wanted (maps db) = Some (docRef, d) /\
          maps (snd res) = map (update_entry docRef body) (maps db) /\
          ((status reply = 500%Z /\ faults_after (DocGet docRef) <> None) \/
           exists stored,
             find_doc docRef (maps (snd res)) = Some stored /\
             reply = mkReply 200 (Found (with_id stored docRef)))))).
  assert (Hfail : forall msg db1,
            maps db1 = maps db -> map_images db1 = map_images db ->
            ((exists e, reqJson = Throw e) \/ faults (WhereIdEq wanted) <> None \/
             faults (DocGet wanted) <> None \/ rejected <> None) ->
            Q (Normal (mkReply 500 (Failed msg)), db1)).
  { intros msg db1 Hm Hi Hwhy. exists (mkReply 500 (Failed msg)).
    split; [done|]. split; [done|]. left. split; [done|]. split; [done|].
    destruct Hwhy as [?|[?|[?|?]]]; auto. }
  change (Q (PUT faults rejected faults_after wanted reqJson db)).
  assert (Hstep : forall body docRef d db1,
    reqJson = Normal body ->
    maps db1 = maps db -> map_images db1 = map_images db ->
    target_of wanted (maps db) = Some (docRef, d) ->
    Q (catch
         (let* _ := doc_update rejected docRef body in
          let* updatedDoc := doc_get faults_after docRef in
          ret (mkReply 200
                 (Found match data updatedDoc with
                        | Some updatedData => with_id updatedData (doc_id updatedDoc)
                        | None => mkMapData (Some (doc_id updatedDoc)) None None None None
                        end)))
         (fun error => ret (mkReply 500 (Failed (message error)))) db1)).
  { intros body docRef d db1 Hbody Hm Hi Ht. unfold catch, bind, doc_update.
    destruct rejected as [e|] eqn:Hrej; [apply Hfail; auto 6; by right; right; right|].
    destruct (target_of_stored _ _ _ _ Ht) as [d1 Hd1]. rewrite Hm, Hd1.
    destruct (faults_after (DocGet docRef)) as [e|] eqn:Hg.
    - rewrite (doc_get_rejected _ _ _ e Hg). cbn.
      eexists. split; [reflexivity|]. split; [exact Hi|]. right.
      exists docRef, d, body. repeat split; auto. left. split; [done|congruence].
    - rewrite (doc_get_answered _ _ _ Hg). cbn [maps called ret data doc_id fst snd].
      rewrite find_doc_updated, Hd1. cbn [fmap option_fmap option_map].
      rewrite String.eqb_refl.
      eexists. split; [reflexivity|]. split; [exact Hi|]. right.
      exists docRef, d, body. repeat split; auto.
      right. eexists. split; [|reflexivity].
      cbn [maps snd called]. by rewrite find_doc_updated, Hd1, String.eqb_refl. }
  unfold PUT. destruct reqJson as [body|e].
  2:{ unfold catch, bind, lift. cbn. apply Hfail; eauto. }
  destruct (faults (WhereIdEq wanted)) as [e|] eqn:Hq.
  { unfold catch, bind, lift. rewrite (where_id_eq_rejected _ _ _ e Hq).
    apply Hfail; auto. }
  destruct (filter (fun e => has_id wanted e = true) (maps db)) as [|[docId d] rest] eqn:Hf.
  - destruct (faults (DocGet wanted)) as [e|] eqn:Hg.
    { unfold catch, bind, lift. rewrite (where_id_eq_answered _ _ _ Hq), Hf. cbn [map].
      rewrite (doc_get_rejected _ _ _ e Hg). apply Hfail; auto. }
    pose proof (target_of_fallback wanted (maps db) Hf) as Ht.
    destruct (find_doc wanted (maps db)) as [d|] eqn:Hd.
    + specialize (Hstep body wanted d (called (called db (WhereIdEq wanted)) (DocGet wanted))
                    eq_refl eq_refl eq_refl Ht).
      unfold catch, bind, lift in Hstep |- *.
      rewrite (where_id_eq_answered _ _ _ Hq), Hf. cbn [map].
      rewrite (doc_get_answered _ _ _ Hg).
      change (maps (called db (WhereIdEq wanted))) with (maps db). rewrite Hd.
      exact Hstep.
    + unfold catch, bind, lift. rewrite (where_id_eq_answered _ _ _ Hq), Hf. cbn [map].
      rewrite (doc_get_answered _ _ _ Hg).
      change (maps (called db (WhereIdEq wanted))) with (maps db). rewrite Hd. cbn.
      exists (not_found wanted). split; [done|]. split; [done|]. left.
      split; [done|]. split; [done|]. right; right; right; right. by split.
  - pose proof (target_of_first wanted (maps db) _ _ Hf) as Ht.
    specialize (Hstep body docId d (called db (WhereIdEq wanted)) eq_refl eq_refl eq_refl Ht).
    unfold catch, bind, lift in Hstep |- *.
    rewrite (where_id_eq_answered _ _ _ Hq), Hf. exact Hstep.
Qed.

(** X11: [PUT] can neither create, delete nor rename a map, whatever the
    body and whatever the store rejects: it always ends with a reply, the
    document ids and the [id] fields of the stored maps are as before, in
    the same order, the images are untouched, and every document that is
    not stored under the document id of the target is as before; after a
    404, and when the body cannot be read, all maps are as before. *)
Theorem PUT_keeps_documents_and_ids
    (faults : Faults) (rejected : option Error) (faults_after : Faults)
    (wanted : string) (reqJson : Completion MapData) (db : Firestore) :
  let out := PUT faults rejected faults_after wanted reqJson db in
  exists reply,
    fst out = Normal reply /\
    map fst (maps (snd out)) = map fst (maps db) /\
    map (fun e => id (snd e)) (maps (snd out)) = map (fun e => id (snd e)) (maps db) /\
    map_images (snd out) = map_images db /\
    (forall e, e ∈ maps db ->
       (forall d, target_of wanted (maps db) <> Some (fst e, d)) -> e ∈ maps (snd out)) /\
    (status reply = 404%Z \/ (exists e, reqJson = Throw e) -> maps (snd out) = maps db).
Proof.
  intros out. subst out.
  destruct (PUT_outcome faults rejected faults_after wanted reqJson db)
    as (reply & Hreply & Himg & Hcases).
  exists reply. split; [exact Hreply|].
  destruct Hcases as [(Hs & Hm & _)|(docRef & d & body & Hb & Ht & Hm & Hr)].
  { rewrite Hm. repeat split; auto. }
  rewrite Hm. split; [|split; [|split; [exact Himg|split]]].
  - rewrite map_map. apply map_ext. intros e. apply update_entry_fst.
  - rewrite map_map. apply map_ext. intros e. apply update_entry_id.
  - intros e Hin Hother.
    apply list_elem_of_fmap. exists e. split; [|exact Hin].
    unfold update_entry. destruct (String.eqb (fst e) docRef) eqn:He; [|done].
    apply String.eqb_eq in He. subst docRef. by specialize (Hother d).
  - intros [H404|[e He]]; [|congruence].
    destruct Hr as [[H500 _]|(stored & _ & ->)]; [congruence|discriminate].
Qed.

(** X12: [PUT] is a partial update, not a replacement: when nothing is
    rejected and document ids are unique, the reply is a 200 with the
    stored map in which exactly the fields [name], [imageUrl], [nodes] and
    [adjacencyList] that the body gives are replaced, and this is what is
    stored afterwards; a field the body leaves out keeps its stored value,
    and an [id] in the body is ignored. *)
Theorem PUT_updates_given_fields
    (faults faults_after : Faults) (wanted : string) (body : MapData) (db : Firestore)
    (docRef : string) (d : MapData) :
  NoDup (map fst (maps db)) ->
  target_of wanted (maps db) = Some (docRef, d) ->
  faults (WhereIdEq wanted) = None ->
  faults (DocGet wanted) = None ->
  faults_after (DocGet docRef) = None ->
  let out := PUT faults None faults_after wanted (Normal body) db in
  let new := updated body d in
  fst out = Normal (mkReply 200 (Found (with_id new docRef))) /\
  find_doc docRef (maps (snd out)) = Some new /\
  id new = id d /\
  name new = (if name body is Some _ then name body else name d) /\
  imageUrl new = (if imageUrl body is Some _ then imageUrl body else imageUrl d) /\
  nodes new = (if nodes body is Some _ then nodes body else nodes d) /\
  adjacencyList new
  = (if adjacencyList body is Some _ then adjacencyList body else adjacencyList d).
Proof.
  intros Hnd Ht Hq Hg Hafter out new. subst out.
  destruct (PUT_outcome faults None faults_after wanted (Normal body) db)
    as (reply & Hreply & _ & Hcases).
  destruct Hcases as [(_ & _ & Hwhy)|(docRef' & d' & body' & Hb & Ht' & Hm & Hr)].
  { exfalso. destruct Hwhy as [[e ?]|[?|[?|[?|[? _]]]]]; congruence. }
  injection Hb as <-. rewrite Ht in Ht'. injection Ht' as <- <-.
  destruct Hr as [[_ ?]|(stored & Hstored & ->)]; [done|].
  assert (Hnew : stored = new).
  { rewrite Hm, find_doc_updated, String.eqb_refl in Hstored.
    destruct (find_doc docRef (maps db)) as [d1|] eqn:Hd1; [|done].
    injection Hstored as <-. unfold new. f_equal.
    destruct (target_of_addressed _ _ _ _ Ht) as [Hin _].
    apply find_doc_some in Hd1.
    by apply (NoDup_fst_unique (maps db) docRef). }
  subst stored. split; [exact Hreply|]. split; [exact Hstored|].
  unfold new, updated. cbn.
  repeat split;
    first [done | by destruct (name body) | by destruct (imageUrl body)
          | by destruct (nodes body) | by destruct (adjacencyList body)].
Qed.

Lemma PUT_updates_given_fields_witness :
  let body := mkMapData (Some "other") (Some "Ground level") None None None in
  fst (PUT no_faults None no_faults "ground" (Normal body) two_maps)
  = Normal (mkReply 200
              (Found (mkMapData (Some "ground") (Some "Ground level")
                        (Some "/api/images/map-17-abc") None None))).
Proof.
  apply (PUT_updates_given_fields no_faults no_faults "ground"
           (mkMapData (Some "other") (Some "Ground level") None None None)
           two_maps "doc-A" ground_floor); try reflexivity.
  cbn. by apply (bool_decide_unpack _).
Defined.

(** X13: what a [PUT] answers with 200 is what a [GET] of the same id
    answers next, when document ids are unique. *)
Theorem PUT_then_GET_agree
    (faults : Faults) (rejected : option Error) (faults_after : Faults)
    (wanted : string) (reqJson : Completion MapData) (db : Firestore) (reply : Reply) :
  NoDup (map fst (maps db)) ->
  fst (PUT faults rejected faults_after wanted reqJson db) = Normal reply ->
  status reply = 200%Z ->
  fst (GET no_faults wanted (snd (PUT faults rejected faults_after wanted reqJson db)))
  = Normal reply.
Proof.
  intros Hnd Hreply Hok.
  destruct (PUT_outcome faults rejected faults_after wanted reqJson db)
    as (reply' & Hreply' & _ & Hcases).
  rewrite Hreply in Hreply'. injection Hreply' as <-.
  destruct Hcases as [(Hno & _)|(docRef & d & body & Hb & Ht & Hm & Hr)]; [done|].
  destruct Hr as [[H500 _]|(stored & Hstored & ->)]; [congruence|].
  set (db' := snd (PUT faults rejected faults_after wanted reqJson db)) in *.
  assert (Hfield : List.find (has_id wanted) (maps db')
                   = update_entry docRef body <$> List.find (has_id wanted) (maps db)).
  { rewrite Hm. apply find_updated_by_field. }
  unfold target_of in Ht.
  destruct (List.find (has_id wanted) (maps db)) as [entry|] eqn:Hfind.
  - injection Ht as ->. cbn in Hfield.
    assert (Hsame : stored = updated body d).
    { rewrite Hm, find_doc_updated, String.eqb_refl in Hstored.
      destruct (find_doc docRef (maps db)) as [d1|] eqn:Hd1; [|done].
      injection Hstored as <-. f_equal.
      apply find_some in Hfind as [Hin _]. apply list_elem_of_In in Hin.
      apply find_doc_some in Hd1.
      by apply (NoDup_fst_unique (maps db) docRef). }
    unfold update_entry in Hfield. cbn in Hfield. rewrite String.eqb_refl in Hfield.
    destruct (GET_run no_faults wanted db') as [e Hf|docId d1 _ Hf|e _ _ Hf|_ Hf|d1 _ Hf];
      try done; try congruence.
    rewrite Hfield in Hf. injection Hf as <- <-. by rewrite Hsame.
  - cbn in Hfield.
    destruct (find_doc wanted (maps db)) as [d0|] eqn:Hd0; [|done].
    injection Ht as <- <-.
    destruct (GET_run no_faults wanted db') as [e Hf|docId d1 _ Hf|e _ _ Hf|_ _ _ Hd|d1 _ _ _ Hd];
      try done; try congruence.
    rewrite Hstored in Hd. by injection Hd as <-.
Qed.

Lemma PUT_then_GET_agree_witness :
  let body := mkMapData None (Some "Ground level") None None None in
  let out := PUT no_faults None no_faults "ground" (Normal body) two_maps in
  fst (GET no_faults "ground" (snd out))
  = Normal (mkReply 200
              (Found (mkMapData (Some "ground") (Some "Ground level")
                        (Some "/api/images/map-17-abc") None None))).
Proof.
  apply (PUT_then_GET_agree no_faults None no_faults "ground"
           (Normal (mkMapData None (Some "Ground level") None None None)) two_maps);
    try reflexivity.
  cbn. by apply (bool_decide_unpack _).
Defined.

End MapsPutFacts.


(* --------------------------------------------------------------------- *)
(** ** The images route *)

Section ImagesRouteFacts.
Import JS JS.Notations ImagesRoute.

Lemma doc_get_run faults id db :
  doc_get faults id db
  = match faults (DocGet id) with
    | Some e => (Throw e, db)
    | None => (Normal (db !! id), db)
    end.
Proof. unfold doc_get, store_call. by destruct (faults (DocGet id)). Qed.

Lemma doc_delete_run faults id db :
  doc_delete faults id db
  = match faults (DocDelete id) with
    | Some e => (Throw e, db)
    | None => (Normal tt, delete id db)
    end.
Proof. unfold doc_delete, store_call. by destruct (faults (DocDelete id)). Qed.

Lemma doc_set_run faults id doc db :
  doc_set faults id doc db
  = match faults (DocSet id) with
    | Some e => (Throw e, db)
    | None => (Normal tt, <[id := doc]> db)
    end.
Proof. unfold doc_set, store_call. by destruct (faults (DocSet id)). Qed.

(** [GET] never changes the collection. *)
Lemma GET_reads_only fromBase64 faults id db :
  snd (GET fromBase64 faults id db) = db.
Proof.
  unfold GET, catch, bind, ret. rewrite doc_get_run.
  destruct (faults (DocGet id)); [done|].
  destruct (db !! id) as [data|]; [|done].
  by destruct (negb (truthy_str (imageData data))).
Qed.

Lemma GET_missing fromBase64 id db :
  db !! id = None ->
  fst (GET fromBase64 no_faults id db) = Normal (Json 404 (Failed "Image not found")).
Proof. intros H. unfold GET, catch, bind, ret. rewrite doc_get_run. cbn. by rewrite H. Qed.

Lemma DELETE_missing id db :
  db !! id = None ->
  fst (DELETE no_faults id db) = Normal (Json 404 (Failed "Image not found")).
Proof. intros H. unfold DELETE, catch, bind, ret. rewrite doc_get_run. cbn. by rewrite H. Qed.

(** X14: [DELETE /api/images/[id]] removes the named image and nothing
    else, and only when it answers 200: it always ends with a reply; any
    other reply leaves the collection as it was; it answers 404 exactly
    when the read is not rejected and no image has the id; and after a
    200 a [GET] and a second [DELETE] of the same id answer 404. *)
Theorem image_DELETE_removes_the_image
    (fromBase64 : string -> list Byte.byte) (faults : Faults) (id : string) (db : Images) :
  let out := DELETE faults id db in
  exists reply,
    fst out = Normal reply /\
    (status_of reply <> 200%Z -> snd out = db) /\
    (status_of reply = 404%Z <-> faults (DocGet id) = None /\ db !! id = None) /\
    (status_of reply = 200%Z ->
       is_Some (db !! id) /\ snd out = delete id db /\
       fst (GET fromBase64 no_faults id (snd out))
       = Normal (Json 404 (Failed "Image not found")) /\
       fst (DELETE no_faults id (snd out))
       = Normal (Json 404 (Failed "Image not found"))).
Proof.
  intros out. subst out.
  assert (Hrun : DELETE faults id db
    = match faults (DocGet id) with
      | Some e => (Normal (Json 500 (Failed (message e))), db)
      | None =>
          match db !! id with
          | None => (Normal (Json 404 (Failed "Image not found")), db)
          | Some _ =>
              match faults (DocDelete id) with
              | Some e => (Normal (Json 500 (Failed (message e))), db)
              | None =>
                  (Normal (Json 200 (Done ("Image '" +:+ id +:+ "' deleted successfully"))),
                   delete id db)
              end
          end
      end).
  { unfold DELETE, catch, bind, ret. rewrite doc_get_run.
    destruct (faults (DocGet id)); [done|].
    destruct (db !! id); [|done].
    rewrite doc_delete_run. by destruct (faults (DocDelete id)). }
  rewrite Hrun. clear Hrun.
  destruct (faults (DocGet id)) as [e|] eqn:Hg.
  { eexists. split; [reflexivity|]. cbn. repeat split; try done. by intros [? _]. }
  destruct (db !! id) as [data|] eqn:Hdoc.
  - destruct (faults (DocDelete id)) as [e|] eqn:Hd.
    + eexists. split; [reflexivity|]. cbn. repeat split; try done. by intros [_ ?].
    + eexists. split; [reflexivity|]. cbn. split; [done|]. split.
      { split; [done|by intros [_ ?]]. }
      intros _. split; [by eexists|]. split; [done|].
      split; [apply GET_missing|apply DELETE_missing]; apply lookup_delete_eq.
  - eexists. split; [reflexivity|]. cbn. repeat split; try done.
Qed.

End ImagesRouteFacts.


(* --------------------------------------------------------------------- *)
(** ** The upload endpoint *)

Section UploadDimensionFacts.
Import JS JS.Notations Upload.
Import Lqa.
Local Open Scope Q_scope.

(** *** The dimensions asked of the compressor *)

(** Rounding a Number [q] that is within 2^-41 of the exact 2048 * m / M,
    for sides 0 < m <= M below 2^31. *)
Lemma rounded_side (q : Q) (m M : Z) :
  (0 < m <= M)%Z -> (M < 2 ^ 31)%Z ->
  0 <= q -> q <= 2048 ->
  Qabs (q - inject_Z (2048 * m) / inject_Z M) <= 2 ^ (-41) ->
  ((M <= 4096 * m)%Z -> 1 # 2 <= q) ->
  (0 <= Math_round q <= 2048)%Z /\
  (2 * Z.abs (M * Math_round q - 2048 * m) <= M)%Z /\
  (Math_round q = 0%Z <-> (4096 * m < M)%Z).
Proof.
  intros Hm HM Hq0 Hq1 Herr Hhalf. unfold Math_round.
  set (k := Qfloor (q + (1 # 2))).
  pose proof (Qfloor_le (q + (1 # 2))) as Hlo. fold k in Hlo.
  pose proof (Qlt_floor (q + (1 # 2))) as Hhi. fold k in Hhi.
  rewrite inject_Z_plus in Hhi. change (inject_Z 1) with 1 in Hhi.
  set (e := inject_Z (2048 * m) / inject_Z M) in *.
  assert (HMq : 0 < inject_Z M) by (change 0 with (inject_Z 0); rewrite <- Zlt_Qlt; lia).
  assert (HMb : inject_Z M <= 2147483647).
  { change 2147483647 with (inject_Z 2147483647). rewrite <- Zle_Qle. lia. }
  assert (He : inject_Z M * e == 2048 * inject_Z m).
  { unfold e. rewrite inject_Z_mult. change (inject_Z 2048) with 2048. field. lra. }
  apply Qabs_Qle_condition in Herr as [Herr1 Herr2].
  change (2 ^ (-41)) with (1 # 2199023255552) in Herr1, Herr2.
  assert (Hup : inject_Z (2 * M * k) < inject_Z (4096 * m + M + 1)).
  { rewrite !inject_Z_plus, !inject_Z_mult.
    change (inject_Z 2) with 2. change (inject_Z 4096) with 4096. change (inject_Z 1) with 1.
    nra. }
  assert (Hdn : inject_Z (4096 * m - M - 1) < inject_Z (2 * M * k)).
  { unfold Z.sub. rewrite !inject_Z_plus, !inject_Z_opp, !inject_Z_mult.
    change (inject_Z 2) with 2. change (inject_Z 4096) with 4096. change (inject_Z 1) with 1.
    nra. }
  rewrite <- Zlt_Qlt in Hup, Hdn.
  assert (Hk0 : (0 <= k)%Z).
  { assert (H : inject_Z (-1) < inject_Z k) by (change (inject_Z (-1)) with (-1); lra).
    rewrite <- Zlt_Qlt in H. lia. }
  assert (Hk1 : (k <= 2048)%Z).
  { assert (H : inject_Z k < inject_Z 2049) by (change (inject_Z 2049) with 2049; lra).
    rewrite <- Zlt_Qlt in H. lia. }
  split; [lia|]. split; [lia|]. split.
  - intros Hk. destruct (Z.lt_ge_cases (4096 * m) M) as [|Hge]; [done|].
    specialize (Hhalf Hge). rewrite Hk in Hhi. change (inject_Z 0) with 0 in Hhi. lra.
  - intros Hlt. nia.
Qed.

Lemma small_is_normal (a : Q) : 1 # 4294967296 <= a -> 2 ^ (-1022) <= a.
Proof.
  intros H. eapply Qle_trans; [|exact H].
  apply Qle_bool_imp_le. vm_compute. reflexivity.
Qed.

Lemma large_is_normal (a : Q) : a <= 4294967296 -> a <= 2 ^ 1023.
Proof.
  intros H. eapply Qle_trans; [exact H|].
  apply Qle_bool_imp_le. vm_compute. reflexivity.
Qed.

Lemma rounding_bounds (binary64 : Q -> Q) (rounds : rounds_to_nearest binary64)
    (a : Q) :
  1 # 4294967296 <= a -> a <= 4294967296 ->
  a - a * (1 # 9007199254740992) <= binary64 a /\
  binary64 a <= a + a * (1 # 9007199254740992).
Proof.
  intros Hlo Hhi.
  pose proof (rounding_error binary64 rounds a (small_is_normal a Hlo) (large_is_normal a Hhi))
    as Herr.
  change (2 ^ (-53)) with (1 # 9007199254740992) in Herr.
  apply Qabs_Qle_condition in Herr as [H1 H2]. split; lra.
Qed.

(** The height computed for a wide image: [width / aspectRatio]. *)
Lemma scaled_height (binary64 : Q -> Q) (rounds : rounds_to_nearest binary64)
    (w h : Z) :
  (0 < h <= w)%Z -> (w < 2 ^ 31)%Z ->
  let q := binary64 (inject_Z maxWidth / binary64 (inject_Z w / inject_Z h)) in
  0 <= q /\ q <= 2048 /\
  Qabs (q - inject_Z (2048 * h) / inject_Z w) <= 2 ^ (-41) /\
  ((w <= 4096 * h)%Z -> 1 # 2 <= q).
Proof.
  intros Hh Hw. change (inject_Z maxWidth) with 2048.
  set (a := inject_Z w / inject_Z h).
  set (r := binary64 a). set (q0 := 2048 / r). intros q. subst q.
  assert (Hhq : 0 < inject_Z h) by (change 0 with (inject_Z 0); rewrite <- Zlt_Qlt; lia).
  assert (Hwq : 0 < inject_Z w) by (change 0 with (inject_Z 0); rewrite <- Zlt_Qlt; lia).
  assert (Hhw : inject_Z h <= inject_Z w) by (rewrite <- Zle_Qle; lia).
  assert (Hwb : inject_Z w <= 2147483647).
  { change 2147483647 with (inject_Z 2147483647). rewrite <- Zle_Qle. lia. }
  assert (Hh1 : 1 <= inject_Z h).
  { change 1 with (inject_Z 1). rewrite <- Zle_Qle. lia. }
  assert (Ha : a * inject_Z h == inject_Z w) by (unfold a; field; lra).
  assert (Ha1 : 1 <= a) by nra.
  assert (Ha2 : a <= 2147483647) by nra.
  destruct (rounding_bounds binary64 rounds a) as [Hr1 Hr2]; [lra|lra|]. fold r in Hr1, Hr2.
  assert (Hr : 1 <= r).
  { pose proof (rounding_monotone binary64 rounds 1 a Ha1) as H.
    pose proof (rounding_power binary64 rounds 0 ltac:(lia)) as H0.
    change (2 ^ 0) with 1 in H0. fold r in H. lra. }
  assert (Hq0 : q0 * r == 2048) by (unfold q0; field; lra).
  assert (Hq0a : 0 < q0) by nra.
  assert (Hq0b : q0 <= 2048) by nra.
  assert (Hq0c : 1 # 4294967296 <= q0) by nra.
  destruct (rounding_bounds binary64 rounds q0) as [Hq1 Hq2]; [lra|lra|].
  set (e := inject_Z (2048 * h) / inject_Z w).
  assert (He : e * a == 2048).
  { unfold e, a. rewrite inject_Z_mult. change (inject_Z 2048) with 2048. field. lra. }
  assert (He0 : 0 < e) by nra.
  split; [|split; [|split]].
  - pose proof (rounding_monotone binary64 rounds 0 q0 ltac:(lra)) as H.
    pose proof (rounding_zero binary64 rounds) as H0. lra.
  - pose proof (rounding_monotone binary64 rounds q0 (2 ^ 11) Hq0b) as H.
    pose proof (rounding_power binary64 rounds 11 ltac:(lia)) as H0.
    change (2 ^ 11) with 2048 in H, H0. lra.
  - assert (Hd1 : q0 - e <= 1 # 4398046511104) by nra.
    assert (Hd2 : e - q0 <= 1 # 4398046511104) by nra.
    apply Qabs_Qle_condition. change (2 ^ (-41)) with (1 # 2199023255552).
    split; lra.
  - intros Hratio.
    assert (Hle : inject_Z w <= 4096 * inject_Z h).
    { change 4096 with (inject_Z 4096). rewrite <- inject_Z_mult, <- Zle_Qle. lia. }
    assert (Ha3 : a <= 2 ^ 12) by (change (2 ^ 12) with 4096; nra).
    pose proof (rounding_monotone binary64 rounds a (2 ^ 12) Ha3) as H.
    pose proof (rounding_power binary64 rounds 12 ltac:(lia)) as H0.
    fold r in H. change (2 ^ 12) with 4096 in H, H0.
    assert (Hq0h : 2 ^ (-1) <= q0) by (change (2 ^ (-1)) with (1 # 2); nra).
    pose proof (rounding_monotone binary64 rounds (2 ^ (-1)) q0 Hq0h) as H1.
    pose proof (rounding_power binary64 rounds (-1) ltac:(lia)) as H2.
    change (2 ^ (-1)) with (1 # 2) in H1, H2. lra.
Qed.

(** The width computed for a tall image: [height * aspectRatio]. *)
Lemma scaled_width (binary64 : Q -> Q) (rounds : rounds_to_nearest binary64)
    (w h : Z) :
  (0 < w <= h)%Z -> (h < 2 ^ 31)%Z ->
  let q := binary64 (inject_Z maxHeight * binary64 (inject_Z w / inject_Z h)) in
  0 <= q /\ q <= 2048 /\
  Qabs (q - inject_Z (2048 * w) / inject_Z h) <= 2 ^ (-41) /\
  ((h <= 4096 * w)%Z -> 1 # 2 <= q).
Proof.
  intros Hw Hh. change (inject_Z maxHeight) with 2048.
  set (a := inject_Z w / inject_Z h).
  set (r := binary64 a). set (p0 := 2048 * r). intros q. subst q.
  assert (Hhq : 0 < inject_Z h) by (change 0 with (inject_Z 0); rewrite <- Zlt_Qlt; lia).
  assert (Hwh : inject_Z w <= inject_Z h) by (rewrite <- Zle_Qle; lia).
  assert (Hhb : inject_Z h <= 2147483647).
  { change 2147483647 with (inject_Z 2147483647). rewrite <- Zle_Qle. lia. }
  assert (Hw1 : 1 <= inject_Z w).
  { change 1 with (inject_Z 1). rewrite <- Zle_Qle. lia. }
  assert (Ha : a * inject_Z h == inject_Z w) by (unfold a; field; lra).
  assert (Ha1 : a <= 1) by nra.
  assert (Ha2 : 1 # 2147483647 <= a) by nra.
  destruct (rounding_bounds binary64 rounds a) as [Hr1 Hr2]; [lra|lra|]. fold r in Hr1, Hr2.
  assert (Hr : r <= 1).
  { pose proof (rounding_monotone binary64 rounds a 1 Ha1) as H.
    pose proof (rounding_power binary64 rounds 0 ltac:(lia)) as H0.
    change (2 ^ 0) with 1 in H0. fold r in H. lra. }
  assert (Hp0 : p0 == 2048 * r) by reflexivity.
  destruct (rounding_bounds binary64 rounds p0) as [Hp1 Hp2]; [lra|lra|].
  set (e := inject_Z (2048 * w) / inject_Z h).
  assert (He : e == 2048 * a).
  { unfold e, a. rewrite inject_Z_mult. change (inject_Z 2048) with 2048. field. lra. }
  split; [|split; [|split]].
  - pose proof (rounding_monotone binary64 rounds 0 p0 ltac:(lra)) as H.
    pose proof (rounding_zero binary64 rounds) as H0. lra.
  - pose proof (rounding_monotone binary64 rounds p0 (2 ^ 11) ltac:(change (2 ^ 11) with 2048; lra)) as H.
    pose proof (rounding_power binary64 rounds 11 ltac:(lia)) as H0.
    change (2 ^ 11) with 2048 in H, H0. lra.
  - apply Qabs_Qle_condition. change (2 ^ (-41)) with (1 # 2199023255552).
    split; lra.
  - intros Hratio.
    assert (Hle : inject_Z h <= 4096 * inject_Z w).
    { change 4096 with (inject_Z 4096). rewrite <- inject_Z_mult, <- Zle_Qle. lia. }
    assert (Ha3 : 2 ^ (-12) <= a) by (change (2 ^ (-12)) with (1 # 4096); nra).
    pose proof (rounding_monotone binary64 rounds (2 ^ (-12)) a Ha3) as H.
    pose proof (rounding_power binary64 rounds (-12) ltac:(lia)) as H0.
    fold r in H. change (2 ^ (-12)) with (1 # 4096) in H, H0.
    assert (Hp0h : 2 ^ (-1) <= p0) by (change (2 ^ (-1)) with (1 # 2); lra).
    pose proof (rounding_monotone binary64 rounds (2 ^ (-1)) p0 Hp0h) as H1.
    pose proof (rounding_power binary64 rounds (-1) ltac:(lia)) as H2.
    change (2 ^ (-1)) with (1 # 2) in H1, H2. lra.
Qed.

(** X15: the dimensions [compressImage] asks for, for an image of [w] by
    [h] pixels, both below 2^31, with the quotient and the product
    rounded as binary64 arithmetic rounds them: they never exceed 2048 by
    2048; an image within that box keeps its dimensions; a larger one
    gets its longer side set to 2048 and the other rounded along the
    aspect ratio, which is kept up to that rounding; and a dimension is 0
    exactly when the image is larger than the box and its longer side is
    more than 4096 times the shorter one. *)
Theorem resized_fits_the_box (binary64 : Q -> Q) (w h : Z) :
  rounds_to_nearest binary64 ->
  (0 < w < 2 ^ 31)%Z -> (0 < h < 2 ^ 31)%Z ->
  let w' := fst (resized binary64 (mkMetadata (Some w) (Some h))) in
  let h' := snd (resized binary64 (mkMetadata (Some w) (Some h))) in
  (0 <= w' <= 2048)%Z /\ (0 <= h' <= 2048)%Z /\
  ((w <= 2048)%Z -> (h <= 2048)%Z -> w' = w /\ h' = h) /\
  ((2048 < w)%Z \/ (2048 < h)%Z ->
     (h < w -> w' = 2048)%Z /\ (w <= h -> h' = 2048)%Z) /\
  (2 * Z.abs (w * h' - w' * h) <= Z.max w h)%Z /\
  (w' = 0%Z \/ h' = 0%Z <->
     ((2048 < w)%Z \/ (2048 < h)%Z) /\ (4096 * Z.min w h < Z.max w h)%Z).
Proof.
  intros Hrounds Hw Hh w' h'. subst w' h'. unfold resized. cbn [meta_width meta_height].
  destruct (Z.eqb_spec w 0) as [?|_]; [lia|].
  destruct (Z.eqb_spec h 0) as [?|_]; [lia|].
  destruct (Z.ltb_spec maxWidth w) as [Hbw|Hbw], (Z.ltb_spec maxHeight h) as [Hbh|Hbh];
    unfold maxWidth, maxHeight in Hbw, Hbh; cbn [orb].
  4:{ cbn [fst snd]. repeat split; try lia. }
  all: destruct (Z.ltb_spec h w) as [Hlt|Hge]; cbn [fst snd].
  all: match goal with
       | |- context [(inject_Z maxWidth / _)%Q] =>
           destruct (scaled_height binary64 Hrounds w h ltac:(lia) ltac:(lia))
             as (Hq0 & Hq1 & Herr & Hhalf);
           destruct (rounded_side _ h w ltac:(lia) ltac:(lia) Hq0 Hq1 Herr Hhalf)
             as (Hk & Hkeep & Hzero);
           set (k := Math_round _) in *
       | |- context [(inject_Z maxHeight * _)%Q] =>
           destruct (scaled_width binary64 Hrounds w h ltac:(lia) ltac:(lia))
             as (Hq0 & Hq1 & Herr & Hhalf);
           destruct (rounded_side _ w h ltac:(lia) ltac:(lia) Hq0 Hq1 Herr Hhalf)
             as (Hk & Hkeep & Hzero);
           set (k := Math_round _) in *
       end.
  all: unfold maxWidth, maxHeight.
  all: repeat split; try lia.
Qed.

Lemma unrounded_rounds_to_nearest : rounds_to_nearest unrounded.
Proof.
  split; unfold unrounded; try done.
  - intros a Hlo _.
    assert (H1 : a - a == 0) by ring. rewrite H1.
    apply Qmult_le_0_compat; [|done].
    eapply Qle_trans; [|exact Hlo]. done.
Qed.

Lemma resized_fits_the_box_witness :
  resized unrounded (mkMetadata (Some 3000%Z) (Some 1500%Z)) = (2048%Z, 1024%Z) /\
  (fst (resized unrounded (mkMetadata (Some 3000%Z) (Some 1500%Z))) <= 2048)%Z.
Proof.
  split; [reflexivity|].
  destruct (resized_fits_the_box unrounded 3000 1500 unrounded_rounds_to_nearest)
    as ([_ H] & _); [lia|lia|exact H].
Defined.

End UploadDimensionFacts.

Section UploadFacts.
Import JS JS.Notations Upload.

(** *** The handler *)

Section Handler.
Variable binary64 : Q -> Q.
Variable metadata : list Byte.byte -> Completion Metadata.
Variable toBuffer : list Byte.byte -> Z -> Z -> Completion (list Byte.byte).
Variable toBase64 : list Byte.byte -> string.
Variable toFixed1 : Number -> string.
Variable timestamp : Z.
Variable randomStr : string.
Variable now : Z.

Local Abbreviation upload := (POST binary64 metadata toBuffer toBase64 toFixed1 timestamp randomStr now).
Local Abbreviation imageId := ("map-" +:+ pretty timestamp +:+ "-" +:+ randomStr).

(** Every run of the handler ends with a reply. Either the reply is no
    200 and the collection is as before, or a valid file was read and
    compressed, its document written under the new id, and the reply is
    the 200 that describes it. *)
Lemma POST_outcome faults formData storage db :
  exists reply,
    fst (upload faults formData storage db) = Normal reply /\
    ((status reply <> 200%Z /\ (exists error, body reply = Failed error) /\
      snd (upload faults formData storage db) = db) \/
     (exists file buffer compressed,
        formData = Normal (Some file) /\
        type file ∈ validTypes /\ (size file <= maxSize)%Z /\
        arrayBuffer file = Normal buffer /\
        compressImage binary64 metadata toBuffer buffer = Normal compressed /\
        faults (ImagesRoute.DocSet imageId) = None /\
        snd (upload faults formData storage db)
        = <[imageId :=
              ImagesRoute.mkImageDoc imageId (name file)
                (originalSize compressed) (compressedSize compressed)
                (width compressed) (height compressed)
                (Some "image/webp") (Some (toBase64 (data compressed))) now]> db /\
        reply = mkReply 200
                  (Stored (mkUploaded ("/api/images/" +:+ imageId) imageId (name file)
                             (originalSize compressed) (compressedSize compressed)
                             (toFixed1 (saved_percent (compressedSize compressed)
                                          (originalSize compressed)) +:+ "%")
                             (width compressed) (height compressed)
                             "image/webp" "database")))).
Proof.
  unfold POST, catch, bind, lift, ret.
  destruct formData as [[file|]|e].
  2,3: (eexists; split; [reflexivity|]; left; cbn; eauto).
  destruct (bool_decide (type file ∈ validTypes)) eqn:Htype; cbn [negb].
  2: (eexists; split; [reflexivity|]; left; cbn; eauto).
  apply bool_decide_eq_true_1 in Htype.
  destruct (Z.ltb_spec maxSize (size file)) as [Hbig|Hsize].
  { eexists; split; [reflexivity|]; left; cbn; eauto. }
  destruct (arrayBuffer file) as [buffer|e] eqn:Hbuffer.
  2: (eexists; split; [reflexivity|]; left; cbn; eauto).
  destruct (compressImage binary64 metadata toBuffer buffer) as [compressed|e] eqn:Hcompressed.
  2: (eexists; split; [reflexivity|]; left; cbn; eauto).
  rewrite doc_set_run.
  destruct (faults (ImagesRoute.DocSet imageId)) as [e|] eqn:Hset.
  { eexists; split; [reflexivity|]; left; cbn; eauto. }
  eexists. split; [reflexivity|]. right.
  exists file, buffer, compressed. repeat split; auto.
Qed.

(** What [compressImage] returns when it returns. *)
Lemma compressImage_returns buffer compressed :
  compressImage binary64 metadata toBuffer buffer = Normal compressed ->
  exists found,
    metadata buffer = Normal found /\
    toBuffer buffer (width compressed) (height compressed) = Normal (data compressed) /\
    (width compressed, height compressed) = resized binary64 found /\
    originalSize compressed = length buffer /\
    compressedSize compressed = length (data compressed).
Proof.
  unfold compressImage, bindC.
  destruct (metadata buffer) as [found|e]; [|discriminate].
  destruct (resized binary64 found) as [w h] eqn:Hr.
  destruct (toBuffer buffer w h) as [bytes|e] eqn:Hb; [|discriminate].
  intros [= <-]. exists found. cbn. by rewrite Hb.
Qed.

(** X16: the upload endpoint writes only when it answers 200: it always
    ends with a reply; any other reply leaves the collection as it was;
    a 200 means that the file was of one of the five image types and of
    at most 10 MB (10485760 bytes), and that exactly the document of the
    new id was written, with the WebP media type; the URL of the reply is
    the database image URL whose image id is that id; and the [storage]
    query parameter changes neither the reply nor what is stored. *)
Theorem upload_writes_only_on_success
    (faults : ImagesRoute.Faults) (formData : Completion (option File))
    (storage : option string) (db : ImagesRoute.Images) :
  let out := upload faults formData storage db in
  exists reply,
    fst out = Normal reply /\
    (status reply <> 200%Z -> snd out = db) /\
    (status reply = 200%Z ->
       exists file uploaded doc,
         formData = Normal (Some file) /\
         type file ∈ ["image/png"; "image/jpeg"; "image/jpg"; "image/webp"; "image/gif"] /\
         (size file <= 10485760)%Z /\
         body reply = Stored uploaded /\
         snd out = <[up_id uploaded := doc]> db /\
         ImagesRoute.id doc = up_id uploaded /\
         ImagesRoute.mimeType doc = Some "image/webp" /\
         ImagesRoute.compressedSize doc = up_compressedSize uploaded /\
         up_url uploaded = "/api/images/" +:+ up_id uploaded /\
         ImageUtils.getImageIdFromUrl (up_url uploaded) = Some (up_id uploaded) /\
         ImageUtils.getImageStorageType (up_url uploaded) = ImageUtils.database) /\
    (forall other, upload faults formData other db = out).
Proof.
  intros out. subst out.
  destruct (POST_outcome faults formData storage db) as (reply & Hreply & Hcases).
  exists reply. split; [exact Hreply|].
  split; [|split; [|done]].
  - intros Hno. destruct Hcases as [(_ & _ & ?)|(? & ? & ? & _ & _ & _ & _ & _ & _ & _ & ->)]; done.
  - intros Hok.
    destruct Hcases as [(? & _)|(file & buffer & compressed & Hform & Htype & Hsize & _ & _
                                & _ & Hstore & ->)]; [done|].
    eexists file, _, _. cbn [body up_id up_url up_compressedSize].
    repeat split; done.
Qed.

(** X17: an uploaded image can be fetched under the id of the reply: after
    an upload that answered with [data], when the compressed image is
    not empty (and its Base64 text so neither), a [GET] of the images
    route for [data.id] answers 200 with the decoding of the Base64 text
    of the compressed bytes, their length as Content-Length and
    "image/webp" as Content-Type, and leaves the collection as it is. *)
Theorem uploaded_image_is_served
    (fromBase64 : string -> list Byte.byte)
    (faults : ImagesRoute.Faults) (formData : Completion (option File))
    (storage : option string) (db : ImagesRoute.Images)
    (reply : Reply) (uploaded : Uploaded) :
  fst (upload faults formData storage db) = Normal reply ->
  body reply = Stored uploaded ->
  up_compressedSize uploaded <> 0%nat ->
  (forall bytes, bytes <> [] -> toBase64 bytes <> "") ->
  exists buffer bytes,
    toBuffer buffer (up_width uploaded) (up_height uploaded) = Normal bytes /\
    length bytes = up_compressedSize uploaded /\
    ImagesRoute.GET fromBase64 ImagesRoute.no_faults (up_id uploaded)
      (snd (upload faults formData storage db))
    = (Normal
         (ImagesRoute.Binary 200 (fromBase64 (toBase64 bytes))
            [("Content-Type", "image/webp");
             ("Content-Length", pretty (length (fromBase64 (toBase64 bytes))));
             ("Cache-Control", "public, max-age=31536000, immutable")]),
       snd (upload faults formData storage db)).
Proof.
  intros Hreply Hbody Hsize Hcodec.
  destruct (POST_outcome faults formData storage db) as (reply' & Hreply' & Hcases).
  rewrite Hreply in Hreply'. injection Hreply' as <-.
  destruct Hcases as [(_ & [error Hfailed] & _)
                     |(file & buffer & compressed & _ & _ & _ & _ & Hc & _ & Hstore & ->)];
    [congruence|].
  cbn in Hbody. injection Hbody as <-. cbn [up_compressedSize up_id up_width up_height] in *.
  destruct (compressImage_returns _ _ Hc) as (found & _ & Hbytes & _ & _ & Hlen).
  exists buffer, (data compressed). split; [exact Hbytes|]. split; [by rewrite Hlen|].
  rewrite Hstore. unfold ImagesRoute.GET, catch, bind, ret. rewrite doc_get_run.
  unfold ImagesRoute.no_faults. rewrite lookup_insert_eq.
  cbn [ImagesRoute.imageData ImagesRoute.mimeType truthy_str default].
  assert (Hne : toBase64 (data compressed) <> "").
  { apply Hcodec. intros Hnil. rewrite Hnil in Hlen. cbn in Hlen. congruence. }
  destruct (String.eqb (toBase64 (data compressed)) "") eqn:He;
    [apply String.eqb_eq in He; done|].
  reflexivity.
Qed.

End Handler.

Lemma uploaded_image_is_served_witness :
  let metadata := fun _ : list Byte.byte => Normal (mkMetadata (Some 3000%Z) (Some 1500%Z)) in
  let toBase64 := fun bytes : list Byte.byte => if bytes is [] then "" else "UklG" in
  let fromBase64 := fun _ : string => [Byte.x52; Byte.x49; Byte.x46] in
  let out := POST unrounded metadata three_bytes toBase64 (fun _ => "25.0") 17 "k3x9ab" 18
               ImagesRoute.no_faults (Normal (Some floor_plan)) None ∅ in
  exists reply uploaded,
    fst out = Normal reply /\ body reply = Stored uploaded /\
    up_id uploaded = "map-17-k3x9ab" /\
    fst (ImagesRoute.GET fromBase64 ImagesRoute.no_faults "map-17-k3x9ab" (snd out))
    = Normal (ImagesRoute.Binary 200 [Byte.x52; Byte.x49; Byte.x46]
                [("Content-Type", "image/webp"); ("Content-Length", "3");
                 ("Cache-Control", "public, max-age=31536000, immutable")]).
Proof.
  intros metadata toBase64 fromBase64 out.
  eexists _, _. split; [reflexivity|]. split; [reflexivity|]. split; [reflexivity|].
  destruct (uploaded_image_is_served unrounded metadata three_bytes toBase64 (fun _ => "25.0")
              17 "k3x9ab" 18 fromBase64 ImagesRoute.no_faults (Normal (Some floor_plan))
              None ∅ _ _ eq_refl eq_refl)
    as (buffer & bytes & _ & _ & Hget).
  - cbn. lia.
  - intros [|b bytes] Hne; [done|discriminate].
  - exact (f_equal fst Hget).
Defined.

Lemma upload_writes_only_on_success_witness :
  let metadata := fun _ : list Byte.byte => Normal (mkMetadata (Some 3000%Z) (Some 1500%Z)) in
  let too_big := mkFile "site.png" "image/png" 10485761 (Normal []) in
  let out := POST unrounded metadata three_bytes (fun _ => "UklG") (fun _ => "25.0") 17 "k3x9ab" 18
               ImagesRoute.no_faults (Normal (Some too_big)) None ∅ in
  fst out = Normal (mkReply 400 (Failed "File too large. Maximum size is 10MB.")) /\
  snd out = ∅.
Proof.
  intros metadata too_big out. split; [reflexivity|].
  destruct (upload_writes_only_on_success unrounded metadata three_bytes (fun _ => "UklG")
              (fun _ => "25.0") 17 "k3x9ab" 18 ImagesRoute.no_faults
              (Normal (Some too_big)) None ∅) as (reply & Hreply & Hkept & _).
  apply Hkept. injection Hreply as <-. discriminate.
Defined.

End UploadFacts.


(* --------------------------------------------------------------------- *)
(** ** The digitization endpoint *)

Section AnalyzeMapFacts.
Import JS JS.Notations AnalyzeMap.

Local Open Scope Q_scope.





(** The default position passes the rounding unchanged. *)
Lemma processItem_default mean_coerced item box label :
  get_prop item "box_2d" = Normal box ->
  get_prop item "label" = Normal label ->
  ~ has_valid_box item ->
  processItem mean_coerced item = Normal (mkProcessed label (Fin 50) (Fin 50)).
Proof.
  intros Hbox Hlabel Hinvalid. unfold processItem, bindC. rewrite Hbox, Hlabel.
  destruct box as [| |flag|q|s|elems|fields]; try reflexivity.
  - by destruct flag.
  - by destruct (truthy (VNum q)).
  - by destruct (truthy (VStr s)).
  - destruct elems as [|a [|b [|c [|d [|? ?]]]]]; try reflexivity.
    exfalso. apply Hinvalid. unfold has_valid_box. eauto.
Qed.

Lemma processItem_defined mean_coerced item :
  item <> VNull -> item <> VUndefined ->
  exists node, processItem mean_coerced item = Normal node.
Proof.
  intros Hnull Hundef. unfold processItem, bindC.
  destruct (get_prop item "box_2d") as [box|] eqn:Hbox;
    [|destruct item; done].
  destruct (get_prop_defined _ _ "label" _ Hbox) as [label ->].
  match goal with |- context [match ?m with (_, _) => _ end] => destruct m end.
  eauto.
Qed.

Lemma map_items_defined mean_coerced items :
  Forall (fun item => item <> VNull /\ item <> VUndefined) items ->
  exists nodes,
    map_items mean_coerced items = Normal nodes /\
    length nodes = length items /\
    forall i item, items !! i = Some item ->
      exists node, nodes !! i = Some node /\ processItem mean_coerced item = Normal node.
Proof.
  induction 1 as [|item items [Hnull Hundef] _ (nodes & Hrun & Hlen & Hnth)].
  { exists []. repeat split; auto. intros i item Hi. by destruct i. }
  destruct (processItem_defined mean_coerced item Hnull Hundef) as [node Hnode].
  exists (node :: nodes). cbn. unfold bindC. rewrite Hnode, Hrun.
  split; [done|]. split; [by rewrite Hlen|].
  intros [|i] item' Hi; cbn in *.
  - injection Hi as <-. eauto.
  - eauto.
Qed.




(** C9 (amended): in a response array without null entries, every entry
    without a four-element [box_2d] array yields, at its own index, a node
    at the default position (50, 50); no entry is dropped, and when the
    request, the model call and the parsing succeed the endpoint answers
    200 with these nodes. *)
Theorem missing_box_defaults_to_center
    (apiKey : option string)
    (generateContent : string -> nat -> Completion GenerateResult)
    (JSON_parse : string -> Completion Value)
    (mean_coerced : Value -> Value -> Number) (items : list Value) :
  Forall (fun item => item <> VNull /\ item <> VUndefined) items ->
  exists nodes,
    processedNodes mean_coerced (VArr items) = Normal nodes /\
    length nodes = length items /\
    (forall i item, items !! i = Some item -> ~ has_valid_box item ->
       exists label,
         get_prop item "label" = Normal label /\
         nodes !! i = Some (mkProcessed label (Fin 50) (Fin 50))) /\
    (forall parsed image result text,
       truthy_str apiKey = true ->
       get_prop parsed "image" = Normal (VStr image) -> image <> "" ->
       generateWithRetry generateContent (strip_data_url image) = Normal result ->
       AnalyzeMap.text result = Normal text ->
       JSON_parse (trim (remove_all (remove_all text "```json") "```")) = Normal (VArr items) ->
       POST apiKey generateContent JSON_parse mean_coerced (Normal parsed)
       = mkReply 200 (Detected nodes)).
Proof.
  intros Hitems.
  destruct (map_items_defined mean_coerced items Hitems) as (nodes & Hrun & Hlen & Hnth).
  exists nodes. split; [exact Hrun|]. split; [exact Hlen|]. split.
  - intros i item Hi Hinvalid.
    destruct (Hnth i item Hi) as (node & Hnode & Hitem).
    assert (Hin : item ∈ items) by (apply list_elem_of_lookup; eauto).
    rewrite Forall_forall in Hitems. destruct (Hitems item Hin) as [Hnull Hundef].
    assert (Hbox : exists box, get_prop item "box_2d" = Normal box).
    { destruct item; cbn; eauto; done. }
    destruct Hbox as [box Hbox].
    destruct (get_prop_defined _ _ "label" _ Hbox) as [label Hlabel].
    exists label. split; [exact Hlabel|].
    rewrite (processItem_default mean_coerced item box label Hbox Hlabel Hinvalid) in Hitem.
    by injection Hitem as <-.
  - intros parsed image result text Hkey Himage Hne Hgen Htext Hparse.
    unfold POST, POST_try. rewrite Hkey. unfold bindC. rewrite Himage.
    apply String.eqb_neq in Hne. cbn [truthy negb]. rewrite Hne. cbn [negb].
    rewrite Hgen, Htext, Hparse.
    change (processedNodes mean_coerced (VArr items)) with (map_items mean_coerced items).
    by rewrite Hrun.
Qed.

Lemma missing_box_defaults_to_center_witness :
  POST (Some "key") (model_says "```json [..] ```")
       (parses_to (VArr [VObj [("label", VStr "Lift")];
                         VObj [("label", VStr "Hall"); ("box_2d", VArr [VNum 1; VNum 2])];
                         detected "Room 101" 150 400 180 450]))
       no_coercion (Normal (VObj [("image", VStr "data:image/png;base64,AAAA")]))
  = mkReply 200 (Detected [mkProcessed (VStr "Lift") (Fin 50) (Fin 50);
                           mkProcessed (VStr "Hall") (Fin 50) (Fin 50);
                           mkProcessed (VStr "Room 101") (Fin (85 # 2)) (Fin (33 # 2))]).
Proof.
  destruct (missing_box_defaults_to_center (Some "key") (model_says "```json [..] ```")
              (parses_to (VArr [VObj [("label", VStr "Lift")];
                                VObj [("label", VStr "Hall"); ("box_2d", VArr [VNum 1; VNum 2])];
                                detected "Room 101" 150 400 180 450]))
              no_coercion
              [VObj [("label", VStr "Lift")];
               VObj [("label", VStr "Hall"); ("box_2d", VArr [VNum 1; VNum 2])];
               detected "Room 101" 150 400 180 450])
    as (nodes & Hrun & _ & _ & Hpost).
  { repeat constructor; discriminate. }
  rewrite (Hpost (VObj [("image", VStr "data:image/png;base64,AAAA")])
             "data:image/png;base64,AAAA" (mkResult (Normal "```json [..] ```"))
             "```json [..] ```" eq_refl eq_refl ltac:(discriminate) eq_refl eq_refl eq_refl).
  injection Hrun as <-. reflexivity.
Defined.

(** C9 as stated fails on a null entry: reading [box_2d] from it throws,
    no node is emitted and the whole request is answered with 500. *)
Lemma null_item_fails_the_request :
  ~ has_valid_box VNull /\
  (exists e, processedNodes no_coercion (VArr [detected "Room 101" 150 400 180 450; VNull])
             = Throw e) /\
  POST (Some "key") (model_says "[..]")
       (parses_to (VArr [detected "Room 101" 150 400 180 450; VNull]))
       no_coercion (Normal (VObj [("image", VStr "data:image/png;base64,AAAA")]))
  = mkReply 500
      (Failed "Failed to analyze map"
         (Some "Cannot read properties of null (reading 'box_2d')")).
Proof.
  split; [|split].
  - intros (a & b & c & d & Hbox). discriminate.
  - eexists. reflexivity.
  - reflexivity.
Qed.

End AnalyzeMapFacts.


(* --------------------------------------------------------------------- *)
(** ** The digitization endpoint: the image data, the retries and the
       text handed to the parser *)

Section AnalyzeMapRequestFacts.
Import JS JS.Notations AnalyzeMap.
Import Stdlib.Strings.Ascii.

(** *** The data URL prefix *)

Lemma after_media_type_word (seen : bool) (w payload : string) :
  is_word w = true -> seen = true \/ w <> "" ->
  after_media_type seen (w +:+ ";base64," +:+ payload) = Some payload.
Proof.
  revert seen. induction w as [|c w IH]; intros seen Hw Hseen.
  - destruct Hseen as [->|Hne]; [|done].
    rewrite append_nil_l, append_cons. cbn [after_media_type]. rewrite <- append_cons.
    change (is_word_char _) with false. cbn [andb].
    by rewrite startsWith_app, drop_prefix_app.
  - cbn in Hw. apply andb_true_iff in Hw as [Hc Hw].
    rewrite append_cons. cbn [after_media_type]. rewrite Hc. apply IH; auto.
Qed.

(** X18: the data URL prefix is cut off when the media type is a non-empty
    run of word characters, leaving the Base64 payload; a string that does
    not begin with "data:image/" is passed on as it is. *)
Theorem strip_data_url_payload :
  (forall mediaType payload,
      mediaType <> "" -> is_word mediaType = true ->
      strip_data_url ("data:image/" +:+ mediaType +:+ ";base64," +:+ payload) = payload) /\
  (forall image, startsWith image "data:image/" = false -> strip_data_url image = image).
Proof.
  split.
  - intros mediaType payload Hne Hw. unfold strip_data_url.
    rewrite startsWith_app, drop_prefix_app.
    rewrite after_media_type_word; auto.
  - intros image Hno. unfold strip_data_url. by rewrite Hno.
Qed.

Lemma strip_data_url_payload_witness :
  strip_data_url "data:image/png;base64,iVBORw0KGgo=" = "iVBORw0KGgo=" /\
  strip_data_url "iVBORw0KGgo=" = "iVBORw0KGgo=".
Proof.
  destruct strip_data_url_payload as [Hcut Hkept]. split.
  - apply (Hcut "png" "iVBORw0KGgo="); [discriminate|reflexivity].
  - apply (Hkept "iVBORw0KGgo="). reflexivity.
Defined.

(** *** The retries *)

Lemma generateWithRetry_from_attempts generateContent data (n i : nat) :
  exists k, (k <= n)%nat /\
    generateWithRetry_from generateContent data i (S n) = generateContent data (i + k)%nat /\
    (forall j, (j < k)%nat ->
       exists e, generateContent data (i + j)%nat = Throw e /\ is_rate_limit e = true) /\
    (forall e, generateContent data (i + k)%nat = Throw e -> is_rate_limit e = false \/ k = n).
Proof.
  revert i. induction n as [|n IH]; intros i.
  - exists 0%nat. rewrite Nat.add_0_r. split; [lia|]. split.
    + cbn. destruct (generateContent data i) as [r|e]; [done|].
      by destruct (is_rate_limit e).
    + split; [intros j Hj; lia|auto].
  - cbn [generateWithRetry_from].
    destruct (generateContent data i) as [r|e] eqn:Hi.
    + exists 0%nat. rewrite Nat.add_0_r. split; [lia|]. split; [by rewrite Hi|].
      split; [intros j Hj; lia|]. intros e He. congruence.
    + destruct (is_rate_limit e) eqn:Hr.
      * destruct (IH (S i)) as (k & Hk & Hrun & Hbefore & Hlast).
        exists (S k). rewrite <- Nat.add_succ_comm. split; [lia|]. split; [exact Hrun|].
        split.
        -- intros [|j] Hj.
           ++ rewrite Nat.add_0_r. eauto.
           ++ rewrite <- Nat.add_succ_comm. apply Hbefore. lia.
        -- intros e' He'. destruct (Hlast e' He') as [?| ->]; auto.
      * exists 0%nat. rewrite Nat.add_0_r. split; [lia|]. split; [by rewrite Hi|].
        split; [intros j Hj; lia|]. intros e' He'. left. congruence.
Qed.

(** X19: [generateWithRetry] asks the model at most three times and returns
    the outcome of the last attempt it made, a result or the model's own
    error: every attempt before it failed with a rate-limit error, and an
    error is passed on when it is no rate-limit error or comes from the
    third attempt. The loop never ends in "Failed after retries". *)
Theorem generateWithRetry_attempts
    (generateContent : string -> nat -> Completion GenerateResult) (base64Data : string) :
  exists k, (k < 3)%nat /\
    generateWithRetry generateContent base64Data = generateContent base64Data k /\
    (forall j, (j < k)%nat ->
       exists e, generateContent base64Data j = Throw e /\ is_rate_limit e = true) /\
    (forall e, generateContent base64Data k = Throw e -> is_rate_limit e = false \/ k = 2%nat).
Proof.
  destruct (generateWithRetry_from_attempts generateContent base64Data 2 0)
    as (k & Hk & Hrun & Hbefore & Hlast).
  exists k. split; [lia|]. split; [exact Hrun|]. split; [exact Hbefore|exact Hlast].
Qed.

Lemma generateWithRetry_rate_limited generateContent data e0 e1 e2 :
  generateContent data 0%nat = Throw e0 -> is_rate_limit e0 = true ->
  generateContent data 1%nat = Throw e1 -> is_rate_limit e1 = true ->
  generateContent data 2%nat = Throw e2 -> is_rate_limit e2 = true ->
  generateWithRetry generateContent data = Throw e2.
Proof.
  intros H0 R0 H1 R1 H2 R2. unfold generateWithRetry. cbn.
  by rewrite H0, R0, H1, R1, H2, R2.
Qed.

(** X20: when the model answers the first three attempts with rate-limit
    errors, the endpoint gives up without a fourth attempt and answers
    with the rate-limit message, the message of the third error as
    details, and the status of the third error, or 500 if that error
    carries no status (or the status 0). *)
Theorem three_rate_limits_end_the_request
    (apiKey : option string) (generateContent : string -> nat -> Completion GenerateResult)
    (JSON_parse : string -> Completion Value) (mean_coerced : Value -> Value -> Number)
    (parsed : Value) (image : string) (e0 e1 e2 : Error) :
  truthy_str apiKey = true ->
  get_prop parsed "image" = Normal (VStr image) -> image <> "" ->
  generateContent (strip_data_url image) 0%nat = Throw e0 -> is_rate_limit e0 = true ->
  generateContent (strip_data_url image) 1%nat = Throw e1 -> is_rate_limit e1 = true ->
  generateContent (strip_data_url image) 2%nat = Throw e2 -> is_rate_limit e2 = true ->
  POST apiKey generateContent JSON_parse mean_coerced (Normal parsed)
  = mkReply (match err_status e2 with
             | Some s => if Z.eqb s 0 then 500%Z else s
             | None => 500%Z
             end)
      (Failed "AI Rate Limit Exceeded. Please try again in 1 minute." (Some (message e2))).
Proof.
  intros Hkey Himage Hne H0 R0 H1 R1 H2 R2.
  unfold POST, POST_try, bindC. rewrite Hkey, Himage. cbn [negb truthy].
  assert (Hs : String.eqb image "" = false).
  { destruct (String.eqb image "") eqn:He; [apply String.eqb_eq in He; done|done]. }
  rewrite Hs. cbn [negb].
  rewrite (generateWithRetry_rate_limited generateContent _ e0 e1 e2) by assumption.
  by rewrite R2.
Qed.

Lemma three_rate_limits_end_the_request_witness :
  POST (Some "key")
    (fun _ i => if (i <? 3)%nat then Throw (mkError "429 Too Many Requests" (Some 429%Z))
                else Normal (mkResult (Normal "[]")))
    (parses_to (VArr [])) no_coercion
    (Normal (VObj [("image", VStr "data:image/png;base64,iVBORw0KGgo=")]))
  = mkReply 429
      (Failed "AI Rate Limit Exceeded. Please try again in 1 minute."
         (Some "429 Too Many Requests")).
Proof.
  apply (three_rate_limits_end_the_request (Some "key") _ _ _ _
           "data:image/png;base64,iVBORw0KGgo="
           (mkError "429 Too Many Requests" (Some 429%Z))
           (mkError "429 Too Many Requests" (Some 429%Z))
           (mkError "429 Too Many Requests" (Some 429%Z)));
    try reflexivity. discriminate.
Defined.

(** *** The text handed to the parser *)

Lemma remove_fence_keeps_start (r : string) :
  startsWith r "`" = false -> startsWith (remove_all_from 0 r "```") "`" = false.
Proof.
  destruct r as [|e r]; [done|]. cbn. rewrite startsWith_nil, andb_true_r.
  intros He. rewrite He. cbn. by rewrite He.
Qed.

Lemma remove_fence_keeps_pair (r : string) :
  startsWith r "``" = false -> startsWith (remove_all_from 0 r "```") "``" = false.
Proof.
  destruct r as [|d r]; [done|].
  cbn [startsWith remove_all_from].
  destruct (Ascii.eqb "`"%char d) eqn:Hd; cbn [andb].
  - intros Hr.
    assert (Hno : startsWith r "``" = false).
    { destruct r as [|e r]; [done|]. cbn in *.
      rewrite startsWith_nil, andb_true_r in Hr. by rewrite Hr. }
    rewrite Hno. cbn [startsWith]. rewrite Hd. cbn [andb].
    by apply remove_fence_keeps_start.
  - intros _. cbn [startsWith]. by rewrite Hd.
Qed.

(** Removing every fence leaves no fence: what is left of a run of
    backquotes is shorter than three. *)
Lemma remove_all_fence_free (s : string) (skip : nat) :
  includes (remove_all_from skip s "```") "```" = false.
Proof.
  revert skip. induction s as [|c s IH]; intros skip; [by destruct skip|].
  destruct skip as [|k]; cbn [remove_all_from]; [|apply IH].
  destruct (startsWith (String c s) "```") eqn:Hfence; [apply IH|].
  cbn [includes]. rewrite IH, orb_false_r.
  cbn [startsWith] in Hfence |- *.
  destruct (Ascii.eqb "`"%char c); [|done]. cbn [andb] in Hfence |- *.
  by apply remove_fence_keeps_pair.
Qed.

(** X21: the cleaned text never contains a Markdown fence, whatever the
    model answered, so [JSON.parse] is only ever applied to text without
    one: two parsers that agree on such text give the same reply. *)
Theorem cleaned_text_has_no_fence :
  (forall text,
      includes (trim (remove_all (remove_all text "```json") "```")) "```" = false) /\
  (forall apiKey generateContent mean_coerced reqJson
          (parse1 parse2 : string -> Completion Value),
      (forall s, includes s "```" = false -> parse1 s = parse2 s) ->
      POST apiKey generateContent parse1 mean_coerced reqJson
      = POST apiKey generateContent parse2 mean_coerced reqJson).
Proof.
  assert (Hclean : forall text,
             includes (trim (remove_all (remove_all text "```json") "```")) "```" = false).
  { intros text.
    destruct (includes (trim _) "```") eqn:Hin; [|done].
    apply includes_trim in Hin. unfold remove_all at 1 in Hin.
    by rewrite remove_all_fence_free in Hin. }
  split; [exact Hclean|].
  intros apiKey generateContent mean_coerced reqJson parse1 parse2 Hagree.
  unfold POST, POST_try, bindC.
  destruct (negb (truthy_str apiKey)); [done|].
  destruct reqJson as [parsed|e]; [|done].
  destruct (get_prop parsed "image") as [image|e]; [|done].
  destruct (negb (truthy image)); [done|].
  destruct image; try done.
  destruct (generateWithRetry generateContent _) as [result|e]; [|done].
  destruct (text result) as [t|e]; [|done].
  by rewrite (Hagree _ (Hclean t)).
Qed.

Lemma cleaned_text_has_no_fence_witness :
  POST (Some "key") (model_says "```json [] ```")
    (fun s => if includes s "```" then Throw (mkError "Unexpected token" None)
              else Normal (VArr []))
    no_coercion (Normal (VObj [("image", VStr "iVBORw0KGgo=")]))
  = mkReply 200 (Detected []).
Proof.
  destruct cleaned_text_has_no_fence as [_ Hparse].
  rewrite (Hparse (Some "key") (model_says "```json [] ```") no_coercion
             (Normal (VObj [("image", VStr "iVBORw0KGgo=")]))
             (fun s => if includes s "```" then Throw (mkError "Unexpected token" None)
                       else Normal (VArr []))
             (parses_to (VArr []))).
  - reflexivity.
  - intros s Hs. cbn beta. by rewrite Hs.
Defined.

(** *** The nodes of a reply *)

Lemma processItem_label mean_coerced item node :
  processItem mean_coerced item = Normal node ->
  item <> VNull /\ item <> VUndefined /\ get_prop item "label" = Normal (label node).
Proof.
  unfold processItem, bindC.
  destruct (get_prop item "box_2d") as [box|e] eqn:Hbox; [|discriminate].
  destruct (truthy box && isArray box && (length (array_items box) =? 4)%nat);
    (destruct (get_prop item "label") as [l|e]; [|discriminate]);
    intros [= <-]; repeat split; try done; intros ->; discriminate.
Qed.

(** X22: when the nodes of a reply are made, the parsed text was an array
    without null entries, and the nodes are its items one for one and in
    order, each with the [label] property of its item as it is (also
    when that is missing): nothing is dropped, added, reordered or
    relabelled. *)
Theorem processedNodes_keeps_order_and_labels
    (mean_coerced : Value -> Value -> Number) (rawNodes : Value) (nodes : list ProcessedNode) :
  processedNodes mean_coerced rawNodes = Normal nodes ->
  exists items,
    rawNodes = VArr items /\
    Forall2 (fun item node =>
               item <> VNull /\ item <> VUndefined /\
               get_prop item "label" = Normal (label node)) items nodes.
Proof.
  unfold processedNodes. destruct rawNodes as [| | | | |items|]; try discriminate.
  intros Hmap. exists items. split; [done|].
  revert nodes Hmap. induction items as [|item items IH]; intros nodes Hmap.
  - injection Hmap as <-. constructor.
  - cbn [map_items] in Hmap. unfold bindC in Hmap.
    destruct (processItem mean_coerced item) as [node|e] eqn:Hitem; [|discriminate].
    destruct (map_items mean_coerced items) as [rest|e]; [|discriminate].
    injection Hmap as <-. constructor; [by apply (processItem_label mean_coerced)|].
    by apply IH.
Qed.

Lemma processedNodes_keeps_order_and_labels_witness :
  exists items,
    VArr [detected "Room 101" 150 400 180 450; VObj [("box_2d", VStr "none")]] = VArr items /\
    Forall2 (fun item node =>
               item <> VNull /\ item <> VUndefined /\
               get_prop item "label" = Normal (label node))
      items
      [mkProcessed (VStr "Room 101") (Fin (85 # 2)) (Fin (33 # 2));
       mkProcessed VUndefined (Fin 50) (Fin 50)].
Proof.
  apply (processedNodes_keeps_order_and_labels no_coercion
           (VArr [detected "Room 101" 150 400 180 450; VObj [("box_2d", VStr "none")]])).
  reflexivity.
Defined.

End AnalyzeMapRequestFacts.


(* --------------------------------------------------------------------- *)
(** ** The pathfinder *)

Section PathfinderFacts.
Import Pathfinder.
Context {W : Type} `{Weights W}.
Variable euclid : Q * Q -> Q * Q -> W.
Variable G : Graph.

Notation "x ⪯ y" := (wleb x y = true) (at level 70, no associativity).

Lemma wle_refl (x : W) : x ⪯ x.
Proof. by destruct (wleb_total x x). Qed.

Lemma wlt_le (x y : W) : wltb x y = true -> x ⪯ y.
Proof.
  unfold wltb. intros Hlt. destruct (wleb_total x y) as [Hxy|Hyx]; [done|].
  rewrite Hyx in Hlt. discriminate.
Qed.

Lemma wlt_false_le (x y : W) : wltb x y = false -> y ⪯ x.
Proof. unfold wltb. by destruct (wleb y x). Qed.

Lemma wlt_not_le (x y : W) : wltb x y = true -> y ⪯ x -> False.
Proof. unfold wltb. intros Hlt Hle. rewrite Hle in Hlt. discriminate. Qed.

Lemma wle_add (x y w : W) : x ⪯ y -> x ⪯ wadd y w.
Proof. intros Hxy. eapply wleb_trans; [exact Hxy|apply wadd_increasing]. Qed.

(** *** Points and distances *)

Lemma find_point_ids i p : find_point G i = Some p -> i ∈ ids G.
Proof.
  unfold find_point, ids. intros Hf. apply find_some in Hf as [Hin Heq].
  apply String.eqb_eq in Heq. subst i.
  apply list_elem_of_In, in_map. exact Hin.
Qed.

Lemma ids_find_point i : i ∈ ids G -> exists p, find_point G i = Some p.
Proof.
  unfold find_point, ids. intros Hin.
  apply list_elem_of_In, in_map_iff in Hin as (p & Hp & Hin).
  destruct (List.find _ (points G)) as [p'|] eqn:Hf; [eauto|].
  pose proof (find_none _ _ Hf p Hin) as Hno. cbn in Hno.
  rewrite Hp, String.eqb_refl in Hno. discriminate.
Qed.

Lemma distance_neighbors u v w :
  distance euclid G u v = Some w ->
  exists ns, neighbors G u = inr ns /\ v ∈ ns.
Proof.
  unfold distance. destruct (neighbors G u) as [|ns]; [discriminate|].
  destruct (bool_decide (v ∈ ns)) eqn:Hv; [|discriminate].
  intros _. exists ns. split; [done|]. by apply bool_decide_eq_true in Hv.
Qed.

Lemma distance_ids u v w :
  distance euclid G u v = Some w -> u ∈ ids G /\ v ∈ ids G.
Proof.
  unfold distance. destruct (neighbors G u) as [|ns]; [discriminate|].
  destruct (bool_decide (v ∈ ns)); [|discriminate].
  destruct (find_point G u) as [pu|] eqn:Hu; [|discriminate].
  destruct (find_point G v) as [pv|] eqn:Hv; [|discriminate].
  intros _. split; eapply find_point_ids; eauto.
Qed.

Lemma distance_unknown_neighbors u v e :
  neighbors G u = inl e -> distance euclid G u v = None.
Proof. unfold distance. by intros ->. Qed.

(** *** Sums along a sequence of points *)

Lemma walk_length_snoc acc x rest u v d w :
  walk_length euclid G acc x rest = Some d ->
  last (x :: rest) = Some u ->
  distance euclid G u v = Some w ->
  walk_length euclid G acc x (rest ++ [v]) = Some (wadd d w).
Proof.
  revert acc x. induction rest as [|y rest IH]; intros acc x Hwalk Hlast Hdist.
  - cbn in *. injection Hwalk as <-. injection Hlast as <-. by rewrite Hdist.
  - cbn in Hwalk |- *. destruct (distance euclid G x y) as [wxy|]; [|discriminate].
    apply IH; auto.
Qed.

Lemma path_length_snoc p u v d w :
  path_length euclid G p = Some d ->
  last p = Some u ->
  distance euclid G u v = Some w ->
  path_length euclid G (p ++ [v]) = Some (wadd d w).
Proof.
  destruct p as [|x rest]; [discriminate|]. cbn [path_length app].
  apply walk_length_snoc.
Qed.

Lemma walk_length_ends_in_graph acc x rest d :
  x ∈ ids G ->
  walk_length euclid G acc x rest = Some d ->
  exists b, last (x :: rest) = Some b /\ b ∈ ids G.
Proof.
  revert acc x. induction rest as [|y rest IH]; intros acc x Hx Hwalk.
  - exists x. by split.
  - cbn in Hwalk. destruct (distance euclid G x y) as [w|] eqn:Hd; [|discriminate].
    apply distance_ids in Hd as [_ Hy].
    destruct (IH _ _ Hy Hwalk) as (b & Hlast & Hb). exists b. split; [|done].
    rewrite <- Hlast. done.
Qed.

(** *** Selection *)

Lemma extract_min_none (d : gmap string W) q :
  extract_min d q = None -> forall v, v ∈ q -> d !! v = None.
Proof.
  induction q as [|x q IH]; intros Hmin v Hv; [by apply elem_of_nil in Hv|].
  cbn in Hmin. destruct (d !! x) as [dx|] eqn:Hx.
  - by destruct (extract_min d q) as [[? ?]|]; [destruct (wleb _ _)|].
  - apply elem_of_cons in Hv as [->|Hv]; [done|eauto].
Qed.

Lemma extract_min_some (d : gmap string W) q u du :
  extract_min d q = Some (u, du) ->
  u ∈ q /\ d !! u = Some du /\
  forall v dv, v ∈ q -> d !! v = Some dv -> du ⪯ dv.
Proof.
  revert u du. induction q as [|x q IH]; intros u du Hmin; [discriminate|].
  cbn in Hmin. destruct (d !! x) as [dx|] eqn:Hx.
  - destruct (extract_min d q) as [[y dy]|] eqn:Hq.
    + destruct (IH y dy eq_refl) as (Hy & Hdy & Hleast).
      destruct (wleb dx dy) eqn:Hle; injection Hmin as <- <-.
      * split; [left|]. split; [done|].
        intros v dv Hv Hdv. apply elem_of_cons in Hv as [->|Hv].
        -- rewrite Hx in Hdv. injection Hdv as <-. apply wle_refl.
        -- eapply wleb_trans; [exact Hle|]. eauto.
      * split; [by right|]. split; [done|].
        intros v dv Hv Hdv. apply elem_of_cons in Hv as [->|Hv].
        -- rewrite Hx in Hdv. injection Hdv as <-.
           destruct (wleb_total dx dy) as [Hc|Hc]; [congruence|done].
        -- eauto.
    + injection Hmin as <- <-. split; [left|]. split; [done|].
      intros v dv Hv Hdv. apply elem_of_cons in Hv as [->|Hv].
      * rewrite Hx in Hdv. injection Hdv as <-. apply wle_refl.
      * pose proof (extract_min_none d q Hq v Hv). congruence.
  - destruct (IH u du Hmin) as (Hu & Hdu & Hleast).
    split; [by right|]. split; [done|].
    intros v dv Hv Hdv. apply elem_of_cons in Hv as [->|Hv]; [congruence|eauto].
Qed.

(** *** Relaxation *)

Lemma relaxed_from_refl u du s : relaxed_from euclid G u du s s.
Proof. repeat split. intros v. by left. Qed.

Lemma relaxed_from_relax u du s v :
  relaxed_from euclid G u du s (relax euclid G u du s v).
Proof.
  unfold relax. destruct (distance euclid G u v) as [w|] eqn:Hd;
    [|apply relaxed_from_refl].
  assert (Himproved :
    (forall dv0, dist s !! v = Some dv0 -> wltb (wadd du w) dv0 = true) ->
    relaxed_from euclid G u du s
      (mkSearch (<[v := wadd du w]> (dist s)) (<[v := u]> (prev s)) (queue s) (settled s))).
  { intros Hlt. repeat split. intros x. cbn.
    destruct (decide (x = v)) as [->|Hne].
    - right. exists w. by rewrite !lookup_insert_eq.
    - left. by rewrite !lookup_insert_ne. }
  destruct (dist s !! v) as [dv|] eqn:Hv.
  - destruct (wltb (wadd du w) dv) eqn:Hlt; [|apply relaxed_from_refl].
    apply Himproved. by intros dv0 [= <-].
  - apply Himproved. intros dv0 [=].
Qed.

Lemma relaxed_from_trans u du s0 s1 s2 :
  relaxed_from euclid G u du s0 s1 ->
  relaxed_from euclid G u du s1 s2 ->
  relaxed_from euclid G u du s0 s2.
Proof.
  intros (Hq1 & Hs1 & H1) (Hq2 & Hs2 & H2).
  split; [congruence|]. split; [congruence|].
  intros v. destruct (H2 v) as [[Hd2 Hp2]|(w & Hw & Hd2 & Hp2 & Hlt2)].
  - destruct (H1 v) as [[Hd1 Hp1]|(w & Hw & Hd1 & Hp1 & Hlt1)].
    + left. split; congruence.
    + right. exists w. repeat split; try congruence. done.
  - right. exists w. repeat split; try done.
    intros dv0 Hv0.
    destruct (H1 v) as [[Hd1 Hp1]|(w' & Hw' & Hd1 & Hp1 & Hlt1)].
    + apply Hlt2. congruence.
    + exfalso. assert (w' = w) by congruence. subst w'.
      apply (wlt_not_le (wadd du w) (wadd du w)); [by apply Hlt2|apply wle_refl].
Qed.

Lemma relaxed_from_fold u du ns s :
  relaxed_from euclid G u du s (fold_left (relax euclid G u du) ns s).
Proof.
  revert s. induction ns as [|v ns IH]; intros s; [apply relaxed_from_refl|].
  cbn. eapply relaxed_from_trans; [apply relaxed_from_relax|apply IH].
Qed.

(** Relaxation never increases a tentative distance. *)
Lemma relaxed_from_le u du s0 s v dv0 :
  relaxed_from euclid G u du s0 s ->
  dist s0 !! v = Some dv0 ->
  exists dv, dist s !! v = Some dv /\ dv ⪯ dv0.
Proof.
  intros (_ & _ & Hv) Hv0.
  destruct (Hv v) as [[Hd _]|(w & _ & Hd & _ & Hlt)].
  - exists dv0. split; [congruence|apply wle_refl].
  - exists (wadd du w). split; [done|]. apply wlt_le. by apply Hlt.
Qed.

(** A point that is no farther than [u] keeps its tentative distance and
    its predecessor. *)
Lemma relaxed_from_kept u du s0 s x dx :
  relaxed_from euclid G u du s0 s ->
  dist s0 !! x = Some dx -> dx ⪯ du ->
  dist s !! x = Some dx /\ prev s !! x = prev s0 !! x.
Proof.
  intros (_ & _ & Hv) Hx Hle.
  destruct (Hv x) as [[Hd Hp]|(w & _ & _ & _ & Hlt)]; [split; congruence|].
  exfalso. apply (wlt_not_le _ _ (Hlt dx Hx)). by apply wle_add.
Qed.

Lemma relax_reaches u du s v w :
  distance euclid G u v = Some w ->
  exists dv, dist (relax euclid G u du s v) !! v = Some dv /\ dv ⪯ wadd du w.
Proof.
  intros Hd. unfold relax. rewrite Hd.
  destruct (dist s !! v) as [dv|] eqn:Hv.
  - destruct (wltb (wadd du w) dv) eqn:Hlt; cbn.
    + exists (wadd du w). split; [apply lookup_insert_eq|apply wle_refl].
    + exists dv. split; [done|]. by apply wlt_false_le.
  - cbn. exists (wadd du w). split; [apply lookup_insert_eq|apply wle_refl].
Qed.

Lemma fold_relax_reaches u du ns s v w :
  v ∈ ns ->
  distance euclid G u v = Some w ->
  exists dv, dist (fold_left (relax euclid G u du) ns s) !! v = Some dv /\ dv ⪯ wadd du w.
Proof.
  revert s. induction ns as [|x ns IH]; intros s Hin Hd;
    [by apply elem_of_nil in Hin|].
  cbn. destruct (decide (v = x)) as [->|Hne].
  - destruct (relax_reaches u du s x w Hd) as (dx & Hx & Hle).
    destruct (relaxed_from_le u du _ _ x dx (relaxed_from_fold u du ns _) Hx)
      as (dx' & Hx' & Hle').
    exists dx'. split; [done|]. eapply wleb_trans; eauto.
  - apply elem_of_cons in Hin as [?|Hin]; [done|]. by apply IH.
Qed.

(** *** A round keeps the invariant *)

Variable a : string.

Lemma filter_ne_shorter (u : string) (q : list string) :
  u ∈ q -> length (filter (fun x => x ≠ u) q) < length q.
Proof.
  induction q as [|x q IH]; intros Hin; [by apply elem_of_nil in Hin|].
  rewrite filter_cons. destruct (decide (x ≠ u)) as [Hne|Heq]; cbn.
  - apply elem_of_cons in Hin as [?|Hin]; [congruence|].
    specialize (IH Hin). lia.
  - pose proof (length_filter (fun x => x ≠ u) q). lia.
Qed.

Lemma settle_invariant s u du s' :
  search_invariant euclid G a s ->
  u ∈ queue s -> dist s !! u = Some du ->
  (forall v dv, v ∈ queue s -> dist s !! v = Some dv -> du ⪯ dv) ->
  relaxed_from euclid G u du
    (mkSearch (dist s) (prev s) (filter (fun x => x ≠ u) (queue s)) (u :: settled s)) s' ->
  (forall v w, distance euclid G u v = Some w ->
     exists dv, dist s' !! v = Some dv /\ dv ⪯ wadd du w) ->
  search_invariant euclid G a s'.
Proof.
  intros Hinv Hu Hdu Hleast Hrel Hreach.
  pose proof Hrel as (Hq & Hs & Hcases). cbn in Hq, Hs, Hcases.
  assert (Hnear : forall x dx, x ∈ u :: settled s -> dist s !! x = Some dx -> dx ⪯ du).
  { intros x dx Hx Hdx. apply elem_of_cons in Hx as [->|Hx].
    - rewrite Hdu in Hdx. injection Hdx as <-. apply wle_refl.
    - eapply (inv_order _ _ _ _ Hinv); eauto. }
  assert (Hkept : forall x dx, x ∈ u :: settled s -> dist s !! x = Some dx ->
                    dist s' !! x = Some dx /\ prev s' !! x = prev s !! x).
  { intros x dx Hx Hdx.
    apply (relaxed_from_kept u du _ s' x dx Hrel); [done|]. by eapply Hnear. }
  assert (Hkept' : forall x dx, x ∈ u :: settled s -> dist s' !! x = Some dx ->
                     dist s !! x = Some dx).
  { intros x dx Hx Hdx.
    assert (Hsome : is_Some (dist s !! x)).
    { apply elem_of_cons in Hx as [->|Hx]; [eauto|by apply (inv_settled_dist _ _ _ _ Hinv)]. }
    destruct Hsome as [dx0 Hdx0].
    destruct (Hkept x dx0) as [Hd _]; [done|done|]. congruence. }
  split.
  - intros v. rewrite Hq, Hs, (inv_cover _ _ _ _ Hinv v).
    rewrite list_elem_of_filter, elem_of_cons.
    destruct (decide (v = u)) as [->|Hne]; [tauto|]. tauto.
  - intros v. rewrite Hq, Hs, list_elem_of_filter, elem_of_cons.
    intros [Hne Hv] [?|Hset]; [done|]. by apply (inv_disjoint _ _ _ _ Hinv v).
  - rewrite Hs. apply NoDup_cons. split.
    + by apply (inv_disjoint _ _ _ _ Hinv).
    + apply (inv_nodup _ _ _ _ Hinv).
  - destruct (inv_start _ _ _ _ Hinv) as [Hd0 Hp0].
    destruct (relaxed_from_kept u du _ s' a wzero Hrel Hd0) as [Hd Hp].
    { by apply (inv_nonneg _ _ _ _ Hinv u). }
    split; [done|]. by rewrite Hp.
  - intros v d Hv.
    destruct (Hcases v) as [[Hd Hp]|(w & Hw & Hd & Hp & _)].
    + rewrite Hd in Hv.
      destruct (inv_prev _ _ _ _ Hinv v d Hv)
        as [->|(u0 & du0 & w & Hp0 & Hu0 & Hdu0 & Hw & ->)]; [by left|].
      right. exists u0, du0, w. rewrite Hs.
      assert (Hin : u0 ∈ u :: settled s) by (by right).
      destruct (Hkept u0 du0 Hin Hdu0) as [Hk _].
      repeat split; try done. congruence.
    + right. exists u, du, w. rewrite Hs.
      destruct (Hkept u du) as [Hk _]; [by left|done|].
      repeat split; try done; [by left|congruence].
  - intros x dx v w. rewrite Hs. intros Hx Hdx Hw.
    apply Hkept' in Hdx; [|done].
    apply elem_of_cons in Hx as [->|Hx].
    + assert (dx = du) by congruence. subst dx. by apply Hreach.
    + destruct (inv_relaxed _ _ _ _ Hinv x dx v w Hx Hdx Hw) as (dv0 & Hv0 & Hle0).
      destruct (relaxed_from_le u du _ s' v dv0 Hrel Hv0) as (dv & Hv & Hle).
      exists dv. split; [done|]. eapply wleb_trans; eauto.
  - intros x. rewrite Hs. intros Hx.
    assert (Hsome : is_Some (dist s !! x)).
    { pose proof Hx as Hx'.
      apply elem_of_cons in Hx' as [->|Hx']; [eauto|by apply (inv_settled_dist _ _ _ _ Hinv)]. }
    destruct Hsome as [dx Hdx]. destruct (Hkept x dx Hx Hdx) as [Hk _]. eauto.
  - intros x v dx dv. rewrite Hs, Hq, list_elem_of_filter.
    intros Hx [Hne Hv] Hdx Hdv.
    apply Hkept' in Hdx; [|done].
    eapply wleb_trans; [by eapply Hnear|].
    destruct (Hcases v) as [[Hd _]|(w & _ & Hd & _ & _)].
    + apply (Hleast v dv Hv). congruence.
    + rewrite Hd in Hdv. injection Hdv as <-. apply wadd_increasing.
  - intros l1 v l2 u0. rewrite Hs. intros Hsplit Hp.
    destruct l1 as [|y l1]; cbn in Hsplit; injection Hsplit as <- Hsplit.
    + subst l2.
      destruct (Hkept u du) as [_ Hpu]; [by left|done|]. rewrite Hpu in Hp.
      destruct (inv_prev _ _ _ _ Hinv u du Hdu)
        as [->|(u1 & du1 & w & Hp1 & Hu1 & _)].
      * destruct (inv_start _ _ _ _ Hinv) as [_ Hnone]. congruence.
      * congruence.
    + assert (Hv : v ∈ settled s).
      { rewrite Hsplit. apply elem_of_app. right. by left. }
      destruct (inv_settled_dist _ _ _ _ Hinv v Hv) as [dv Hdv].
      destruct (Hkept v dv) as [_ Hpv]; [by right|done|]. rewrite Hpv in Hp.
      by apply (inv_chain _ _ _ _ Hinv l1 v l2 u0).
  - intros v d Hv.
    destruct (Hcases v) as [[Hd _]|(w & _ & Hd & _ & _)].
    + apply (inv_nonneg _ _ _ _ Hinv v). congruence.
    + rewrite Hd in Hv. injection Hv as <-.
      apply wle_add. by apply (inv_nonneg _ _ _ _ Hinv u).
Qed.

Lemma step_invariant s s' :
  search_invariant euclid G a s ->
  step euclid G s = Some s' ->
  search_invariant euclid G a s' /\ length (queue s') < length (queue s).
Proof.
  intros Hinv Hstep. unfold step in Hstep.
  destruct (extract_min (dist s) (queue s)) as [[u du]|] eqn:Hmin; [|discriminate].
  destruct (extract_min_some _ _ _ _ Hmin) as (Hu & Hdu & Hleast).
  set (s1 := mkSearch (dist s) (prev s) (filter (fun x => x ≠ u) (queue s))
                      (u :: settled s)) in *.
  assert (Hrel : relaxed_from euclid G u du s1 s').
  { destruct (neighbors G u) as [e|ns]; injection Hstep as <-;
      [apply relaxed_from_refl|apply relaxed_from_fold]. }
  split.
  - apply (settle_invariant s u du s' Hinv Hu Hdu Hleast Hrel).
    intros v w Hw.
    destruct (distance_neighbors u v w Hw) as (ns & Hns & Hv).
    rewrite Hns in Hstep. injection Hstep as <-.
    by apply fold_relax_reaches.
  - destruct Hrel as (Hq & _). rewrite Hq. cbn. by apply filter_ne_shorter.
Qed.

Lemma run_invariant n s :
  search_invariant euclid G a s ->
  length (queue s) <= n ->
  search_invariant euclid G a (run euclid G n s) /\ exhausted (run euclid G n s).
Proof.
  revert s. induction n as [|n IH]; intros s Hinv Hlen.
  - split; [done|]. intros v Hv. cbn in *.
    destruct (queue s); [by apply elem_of_nil in Hv|cbn in Hlen; lia].
  - cbn. destruct (step euclid G s) as [s'|] eqn:Hstep.
    + destruct (step_invariant s s' Hinv Hstep) as [Hinv' Hshorter].
      apply IH; [done|lia].
    + split; [done|]. unfold step in Hstep.
      destruct (extract_min (dist s) (queue s)) as [[u du]|] eqn:Hmin.
      * by destruct (neighbors G u).
      * exact (extract_min_none _ _ Hmin).
Qed.

Lemma start_invariant :
  search_invariant euclid G a (start_search G a).
Proof.
  split; cbn.
  - intros v. split; [by left|]. intros [?|Hv]; [done|by apply elem_of_nil in Hv].
  - intros v _ Hv. by apply elem_of_nil in Hv.
  - constructor.
  - split; [apply lookup_singleton_eq|apply lookup_empty].
  - intros v d Hv. apply lookup_singleton_Some in Hv as [-> _]. by left.
  - intros u du v w Hu. by apply elem_of_nil in Hu.
  - intros u Hu. by apply elem_of_nil in Hu.
  - intros u v du dv Hu. by apply elem_of_nil in Hu.
  - intros l1 v l2 u Hsplit. by destruct l1.
  - intros v d Hv. apply lookup_singleton_Some in Hv as [_ <-]. apply wle_refl.
Qed.

(** *** What the search has found when it is over *)

(** Along any walk from the start some point, the end of the walk or a
    point still in the queue, has a tentative distance that is at most
    the sum so far. *)
Lemma walk_bound s rest :
  search_invariant euclid G a s ->
  forall u acc d,
    u ∈ ids G ->
    (exists y dy, dist s !! y = Some dy /\ dy ⪯ acc /\ (y = u \/ y ∈ queue s)) ->
    walk_length euclid G acc u rest = Some d ->
    exists b y dy,
      last (u :: rest) = Some b /\ dist s !! y = Some dy /\ dy ⪯ d /\
      (y = b \/ y ∈ queue s).
Proof.
  intros Hinv. induction rest as [|v rest IH]; intros u acc d Hu (y & dy & Hy & Hle & Hwhere) Hwalk.
  - cbn in Hwalk. injection Hwalk as <-. exists u, y, dy. by repeat split.
  - cbn in Hwalk. destruct (distance euclid G u v) as [w|] eqn:Hw; [|discriminate].
    destruct (distance_ids u v w Hw) as [_ Hv].
    destruct (IH v (wadd acc w) d Hv) as (b & y' & dy' & Hlast & Hy' & Hle' & Hwhere');
      [|done|].
    + assert (Hqueue : forall z, z ∈ queue s -> dist s !! z = Some dy -> z = y ->
                exists y0 dy0, dist s !! y0 = Some dy0 /\ dy0 ⪯ wadd acc w /\
                               (y0 = v \/ y0 ∈ queue s)).
      { intros z Hz Hdz ->. exists y, dy. split; [done|]. split; [by apply wle_add|by right]. }
      destruct Hwhere as [->|Hyq]; [|by apply (Hqueue y)].
      apply (inv_cover _ _ _ _ Hinv) in Hu as [Huq|Hus]; [by apply (Hqueue u)|].
      destruct (inv_relaxed _ _ _ _ Hinv u dy v w Hus Hy Hw) as (dv & Hdv & Hlev).
      exists v, dv. split; [done|]. split; [|by left].
      eapply wleb_trans; [exact Hlev|]. by apply wadd_mono.
    + exists b, y', dy'. split; [|done]. rewrite <- Hlast. done.
Qed.

Lemma exhausted_bound s b q dq :
  search_invariant euclid G a s -> exhausted s ->
  path euclid G a b q dq ->
  exists db, dist s !! b = Some db /\ db ⪯ dq.
Proof.
  intros Hinv Hdone (Ha & Hhead & Hlast & Hlen).
  destruct q as [|x rest]; [discriminate|]. cbn in Hhead. injection Hhead as ->.
  cbn in Hlen.
  destruct (walk_bound s rest Hinv a wzero dq Ha) as (b' & y & dy & Hlast' & Hy & Hle & Hwhere);
    [|done|].
  { exists a, wzero. split; [apply (inv_start _ _ _ _ Hinv)|].
    split; [apply wle_refl|by left]. }
  assert (b' = b) by congruence. subst b'.
  destruct Hwhere as [->|Hq]; [eauto|].
  rewrite (Hdone y Hq) in Hy. discriminate.
Qed.

Lemma trace_root (pr : gmap string string) n v acc :
  pr !! v = None -> trace pr n v acc = Some (v :: acc).
Proof. intros Hv. destruct n; cbn; by rewrite Hv. Qed.

(** The predecessors of a settled point lead back to the start, along a
    path whose summed distance is the distance of the point. *)
Lemma trace_path s :
  search_invariant euclid G a s ->
  forall n l1 v l2 d acc,
    settled s = l1 ++ v :: l2 -> length l2 <= n ->
    dist s !! v = Some d ->
    exists p,
      trace (prev s) n v acc = Some (p ++ acc) /\
      head p = Some a /\ last p = Some v /\ path_length euclid G p = Some d.
Proof.
  intros Hinv. induction n as [|n IH]; intros l1 v l2 d acc Hsplit Hlen Hd.
  all: destruct (inv_prev _ _ _ _ Hinv v d Hd)
         as [->|(u & du & w & Hp & Hu & Hdu & Hw & ->)].
  all: try (destruct (inv_start _ _ _ _ Hinv) as [Hd0 Hp0];
            exists [a]; rewrite (trace_root _ _ _ _ Hp0);
            assert (d = wzero) by congruence; subst d; by repeat split).
  - pose proof (inv_chain _ _ _ _ Hinv l1 v l2 u Hsplit Hp) as Hin.
    destruct l2; [by apply elem_of_nil in Hin|cbn in Hlen; lia].
  - pose proof (inv_chain _ _ _ _ Hinv l1 v l2 u Hsplit Hp) as Hin.
    apply list_elem_of_split in Hin as (l3 & l4 & ->).
    destruct (IH (l1 ++ v :: l3) u l4 du (v :: acc)) as (p & Htrace & Hhead & Hlast & Hlen').
    { rewrite Hsplit. by rewrite <- app_assoc. }
    { rewrite length_app in Hlen. cbn in Hlen. lia. }
    { done. }
    exists (p ++ [v]). split; [|split; [|split]].
    + cbn. rewrite Hp, Htrace. by rewrite <- app_assoc.
    + destruct p; [discriminate|done].
    + apply last_snoc.
    + by apply (path_length_snoc p u v du w).
Qed.

Lemma settled_count s :
  search_invariant euclid G a s -> length (settled s) <= length (points G).
Proof.
  intros Hinv. rewrite <- (length_map id (points G)). fold (ids G).
  apply submseteq_length, NoDup_submseteq; [apply (inv_nodup _ _ _ _ Hinv)|].
  intros v Hv. apply (inv_cover _ _ _ _ Hinv). by right.
Qed.

(** The search from [a], run for as many rounds as the graph has points. *)
Lemma search_over :
  search_invariant euclid G a (run euclid G (length (points G)) (start_search G a)) /\
  exhausted (run euclid G (length (points G)) (start_search G a)).
Proof.
  apply run_invariant; [apply start_invariant|].
  cbn. unfold ids. by rewrite length_map.
Qed.

(** When [b] is reachable, the answer is the tentative distance of [b]
    at the end of the search and the path traced back from [b]. *)
Lemma search_answer (b : string) :
  reachable euclid G a b ->
  exists p d,
    shortestPath euclid G a b = inr (p, d) /\
    path euclid G a b p d /\
    dist (run euclid G (length (points G)) (start_search G a)) !! b = Some d.
Proof.
  intros (q0 & d0 & Hpath0).
  pose proof Hpath0 as (Ha & Hhead0 & Hlast0 & Hlen0).
  assert (Hb : b ∈ ids G).
  { destruct q0 as [|x rest]; [discriminate|]. cbn in Hhead0. injection Hhead0 as ->.
    destruct (walk_length_ends_in_graph wzero a rest d0 Ha Hlen0) as (b' & Hb' & Hin).
    congruence. }
  destruct (ids_find_point a Ha) as [pa Hpa].
  destruct (ids_find_point b Hb) as [pb Hpb].
  destruct search_over as [Hinv Hdone].
  set (n := length (points G)) in *.
  set (s := run euclid G n (start_search G a)) in *.
  destruct (exhausted_bound s b q0 d0 Hinv Hdone Hpath0) as (d & Hd & _).
  assert (Hsettled : b ∈ settled s).
  { apply (inv_cover _ _ _ _ Hinv) in Hb as [Hq|Hs]; [|done].
    rewrite (Hdone b Hq) in Hd. discriminate. }
  apply list_elem_of_split in Hsettled as (l1 & l2 & Hsplit).
  destruct (trace_path s Hinv n l1 b l2 d [] Hsplit) as (p & Htrace & Hhead & Hlast & Hlen);
    [|done|].
  { pose proof (settled_count s Hinv) as Hcount. rewrite Hsplit, length_app in Hcount.
    cbn in Hcount. fold n in Hcount. lia. }
  rewrite app_nil_r in Htrace.
  exists p, d. split; [|split].
  - unfold shortestPath. rewrite Hpa, Hpb. fold n. fold s. by rewrite Hd, Htrace.
  - by repeat split.
  - done.
Qed.

(** C1: when [b] is reachable from [a], [shortestPath] returns a path
    from [a] to [b] whose consecutive-edge distances, summed from the
    start, equal the reported total distance, and no path from [a] to [b],
    simple or not, has a strictly smaller total distance. *)
Theorem shortestPath_is_shortest (b : string) :
  reachable euclid G a b ->
  exists p d,
    shortestPath euclid G a b = inr (p, d) /\
    path euclid G a b p d /\
    forall q dq, path euclid G a b q dq -> wltb dq d = false.
Proof.
  intros Hreach.
  destruct (search_answer b Hreach) as (p & d & Hrun & Hpath & Hd).
  destruct search_over as [Hinv Hdone].
  exists p, d. split; [exact Hrun|]. split; [exact Hpath|].
  intros q dq Hq.
  destruct (exhausted_bound _ b q dq Hinv Hdone Hq) as (d' & Hd' & Hle).
  rewrite Hd in Hd'. injection Hd' as <-.
  unfold wltb. by rewrite Hle.
Qed.

(** C7: for a point [a] of the graph, [shortestPath(G, a, a)] succeeds
    with the single-point path [a] and the distance zero. *)
Theorem shortestPath_same_point :
  a ∈ ids G ->
  shortestPath euclid G a a = inr ([a], wzero).
Proof.
  intros Ha. destruct (ids_find_point a Ha) as [pa Hpa].
  destruct search_over as [Hinv _].
  destruct (inv_start _ _ _ _ Hinv) as [Hd Hp].
  unfold shortestPath. rewrite Hpa. by rewrite Hd, (trace_root _ _ _ _ Hp).
Qed.

End PathfinderFacts.

Lemma shortestPath_is_shortest_witness :
  let G := Pathfinder.detour in
  Pathfinder.shortestPath Pathfinder.euclid_floor G "A" "D" = inr (["A"; "C"; "D"], 7%N) /\
  Pathfinder.path_length Pathfinder.euclid_floor G ["A"; "C"; "D"] = Some 7%N /\
  Pathfinder.wltb 13%N 7%N = false.
Proof.
  intros G.
  assert (Hdetour : Pathfinder.path Pathfinder.euclid_floor G "A" "D" ["A"; "B"; "D"] 13%N).
  { repeat split. vm_compute. apply list_elem_of_In. by left. }
  destruct (shortestPath_is_shortest Pathfinder.euclid_floor G "A" "D")
    as (p & d & Hrun & (_ & _ & _ & Hlen) & Hleast).
  { exists ["A"; "B"; "D"], 13%N. exact Hdetour. }
  assert (Hpd : (p, d) = (["A"; "C"; "D"], 7%N)).
  { assert (Hcomputed : Pathfinder.shortestPath Pathfinder.euclid_floor G "A" "D"
                        = inr (["A"; "C"; "D"], 7%N)) by (by vm_compute).
    congruence. }
  injection Hpd as -> ->.
  split; [exact Hrun|]. split; [exact Hlen|]. exact (Hleast _ _ Hdetour).
Defined.

Lemma shortestPath_same_point_witness :
  Pathfinder.shortestPath Pathfinder.euclid_floor Pathfinder.triangle "Y" "Y"
  = inr (["Y"], 0%N).
Proof.
  rewrite (shortestPath_same_point Pathfinder.euclid_floor Pathfinder.triangle "Y");
    [reflexivity|].
  vm_compute. apply list_elem_of_In. right. by left.
Defined.



(* --------------------------------------------------------------------- *)
(** ** The Euclidean metric *)

Section RealDistancesFacts.
Import Reals Qreals Lra Pathfinder Pathfinder.RealDistances.

(** The scenario of section 8: from (0,0) to (3,4) the distance is 5. *)
Lemma euclidean_3_4_5 :
  nonneg (euclidean (0, 0)%Q (3, 4)%Q) = 5%R.
Proof.
  unfold euclidean. cbn [nonneg fst snd].
  replace (Q2R 0) with 0%R by (unfold Q2R; cbn; lra).
  replace (Q2R 3) with 3%R by (unfold Q2R; cbn; lra).
  replace (Q2R 4) with 4%R by (unfold Q2R; cbn; lra).
  replace ((0 - 3) * (0 - 3) + (0 - 4) * (0 - 4))%R with (5 * 5)%R by lra.
  apply sqrt_square. lra.
Qed.

(** The distance does not depend on the direction of the connection. *)
Lemma euclidean_sym p q : nonneg (euclidean p q) = nonneg (euclidean q p).
Proof. unfold euclidean. cbn [nonneg]. f_equal. ring. Qed.

(** On the Euclidean plane: when [b] is reachable from [a],
    [shortestPath] returns a path from [a] to [b] with its summed
    Euclidean length, and that length is at most the one of any path from
    [a] to [b]. *)
Corollary shortestPath_euclidean (G : Graph) (a b : string) :
  reachable euclidean G a b ->
  exists p d,
    shortestPath euclidean G a b = inr (p, d) /\
    path euclidean G a b p d /\
    forall q dq, path euclidean G a b q dq -> (nonneg d <= nonneg dq)%R.
Proof.
  intros Hreach.
  destruct (search_answer euclidean G a b Hreach) as (p & d & Hrun & Hpath & Hd).
  destruct (search_over euclidean G a) as [Hinv Hdone].
  exists p, d. split; [exact Hrun|]. split; [exact Hpath|].
  intros q dq Hq.
  destruct (exhausted_bound euclidean G a _ b q dq Hinv Hdone Hq) as (d' & Hd' & Hle).
  rewrite Hd in Hd'. injection Hd' as <-.
  cbn [wleb nonnegreal_weights] in Hle. unfold nn_leb in Hle.
  by destruct (Rle_dec (nonneg d) (nonneg dq)).
Qed.

End RealDistancesFacts.


(* --------------------------------------------------------------------- *)
(** ** The navigation session *)

Section NavigationSessionFacts.
Import NavigationSession.

(** A call leaves the Route alone. *)
Lemma call_route c s : route (snd (call c s)) = route s.
Proof.
  destruct c; cbn; unfold begin, advancePoint, advanceToNextSegment;
    destruct (state s); cbn; try done.
  by destruct (_ <=? _)%nat.
Qed.

Lemma driven_call n k c s :
  driven n k s ->
  driven n (k + advances [c] s) (snd (call c s)).
Proof.
  intros (Hn & Hk & Hst). unfold driven. rewrite call_route.
  split; [done|].
  destruct c; cbn [call advances]; unfold begin, advancePoint, advanceToNextSegment.
  - destruct (state s) eqn:Es; cbn; rewrite ?Es; (split; [lia|first [done|lia]]).
  - destruct (state s) eqn:Es; cbn -[isFinalSegment]; rewrite ?Es;
      try (split; [lia|first [done|lia]]).
    destruct (lastPointIndex s <=? S (pointIndex s))%nat; cbn -[isFinalSegment];
      [|split; [lia|done]].
    split; [lia|]. unfold isFinalSegment, totalSegments.
    destruct (S (segmentIndex s) =? length (route s))%nat eqn:Ef.
    + apply Nat.eqb_eq in Ef. lia.
    + apply Nat.eqb_neq in Ef. lia.
  - destruct (state s) eqn:Es; cbn; rewrite ?Es; (split; [lia|first [done|lia]]).
Qed.

Lemma advances_cons c calls s :
  advances (c :: calls) s = advances [c] s + advances calls (snd (call c s)).
Proof. cbn. destruct c, (state s); cbn; lia. Qed.

Lemma driven_drive n k calls s :
  driven n k s ->
  driven n (k + advances calls s) (drive calls s).
Proof.
  revert k s. induction calls as [|c calls IH]; intros k s Hs.
  { cbn. by rewrite Nat.add_0_r. }
  rewrite advances_cons, Nat.add_assoc. cbn [drive].
  apply IH. by apply driven_call.
Qed.


Lemma drive_app calls1 calls2 s :
  drive (calls1 ++ calls2) s = drive calls2 (drive calls1 s).
Proof. revert s. induction calls1 as [|c calls1 IH]; intros s; cbn; auto. Qed.

Lemma drive_points_arrived k s :
  drive (replicate k AdvancePoint) (arrived s) = arrived s.
Proof.
  induction k as [|k IH]; [done|]. cbn [replicate drive call].
  replace (snd (advancePoint (arrived s))) with (arrived s); [exact IH|].
  unfold advancePoint, arrived. by destruct (isFinalSegment s).
Qed.

(** Enough moves through the points bring a session to the last point of
    its segment. *)
Lemma drive_points k s :
  state s = ON_SEGMENT ->
  lastPointIndex s <= pointIndex s + k -> 1 <= k ->
  drive (replicate k AdvancePoint) s = arrived s.
Proof.
  revert s. induction k as [|k IH]; intros s Hon Hlast Hk; [lia|].
  cbn [replicate drive call]. unfold advancePoint. rewrite Hon.
  destruct (lastPointIndex s <=? S (pointIndex s))%nat eqn:Hle; cbn [snd].
  - apply (drive_points_arrived k s).
  - apply Nat.leb_gt in Hle.
    rewrite IH; [done|done|cbn; unfold lastPointIndex, currentSegment in *; cbn; lia|lia].
Qed.

Lemma play_segment_arrives seg s :
  state s = ON_SEGMENT -> pointIndex s = 0 ->
  currentSegment s = Some seg ->
  drive (play_segment seg) s = arrived s.
Proof.
  intros Hon Hzero Hseg. unfold play_segment. rewrite <- replicate_S_end.
  apply drive_points; [done| |lia].
  unfold lastPointIndex. rewrite Hseg, Hzero. lia.
Qed.

Lemma play_segments_completes (rest : Route) : forall s,
  rest <> [] ->
  state s = ON_SEGMENT -> pointIndex s = 0 ->
  drop (segmentIndex s) (route s) = rest ->
  state (drive (play_segments rest) s) = COMPLETED.
Proof.
  induction rest as [|seg rest IH]; intros s Hne Hon Hzero Hdrop; [done|].
  assert (Hseg : currentSegment s = Some seg).
  { unfold currentSegment.
    pose proof (lookup_drop (route s) (segmentIndex s) 0) as Hl.
    rewrite Hdrop, Nat.add_0_r in Hl. cbn in Hl. done. }
  assert (Hlen : length (route s) = segmentIndex s + S (length rest)).
  { pose proof (length_drop (route s) (segmentIndex s)) as Hd.
    rewrite Hdrop in Hd. cbn in Hd.
    assert (segmentIndex s < length (route s)) by (eapply lookup_lt_Some; exact Hseg).
    lia. }
  destruct rest as [|seg' rest].
  - cbn [play_segments]. rewrite (play_segment_arrives seg s Hon Hzero Hseg).
    unfold arrived, isFinalSegment, totalSegments. cbn [state].
    rewrite Hlen. cbn [length]. by rewrite Nat.add_1_r, Nat.eqb_refl.
  - change (play_segments (seg :: seg' :: rest))
      with (play_segment seg ++ AdvanceToNextSegment :: play_segments (seg' :: rest)).
    rewrite drive_app, (play_segment_arrives seg s Hon Hzero Hseg).
    cbn [drive call]. unfold advanceToNextSegment, arrived at 1.
    cbn [state]. unfold isFinalSegment, totalSegments. rewrite Hlen.
    cbn [length]. replace (S (segmentIndex s) =? _)%nat with false
      by (symmetry; apply Nat.eqb_neq; lia).
    cbn [snd]. apply IH; cbn; [done|done|done|].
    pose proof (drop_S (route s) seg (segmentIndex s) Hseg) as Hd.
    rewrite Hdrop in Hd. by injection Hd as <-.
Qed.

(** C6: a session over a Route of N segments (N at least 1), driven from
    its creation, comes to [COMPLETED], and every sequence of calls that
    brings it there contains exactly N-1 calls of
    [advanceToNextSegment()] made from [AWAITING_TRANSITION]; in any other
    state, [ON_SEGMENT] included, [advanceToNextSegment()] fails with
    [InvalidTransition] and the session, so its progress, stays as it
    was. *)
Theorem session_completes_after_transitions (r : Route) :
  r <> [] ->
  state (drive (play r) (create r)) = COMPLETED /\
  (forall calls,
      state (drive calls (create r)) = COMPLETED ->
      advances calls (create r) = length r - 1) /\
  (forall s,
      state s <> AWAITING_TRANSITION ->
      advanceToNextSegment s = (inl InvalidTransition, s) /\
      progress (snd (advanceToNextSegment s)) = progress s).
Proof.
  intros Hne. split; [|split].
  - unfold play. cbn [drive call]. unfold begin. cbn.
    apply play_segments_completes; cbn; auto.
  - intros calls Hdone.
    assert (Hinit : driven (length r) 0 (create r)) by (by cbv).
    pose proof (driven_drive _ _ calls _ Hinit) as (_ & _ & Hst).
    rewrite Hdone in Hst. cbn in Hst. lia.
  - intros s Hs. unfold advanceToNextSegment.
    destruct (state s); done.
Qed.

Lemma session_completes_after_transitions_witness :
  state (drive (play two_floors) (create two_floors)) = COMPLETED /\
  advances (play two_floors) (create two_floors) = 1 /\
  advanceToNextSegment (drive [Begin] (create two_floors))
  = (inl InvalidTransition, mkSession two_floors 0 0 ON_SEGMENT).
Proof.
  destruct (session_completes_after_transitions two_floors ltac:(discriminate))
    as (Hplay & Hcount & Hfail).
  split; [exact Hplay|]. split; [exact (Hcount _ Hplay)|].
  apply (Hfail (mkSession two_floors 0 0 ON_SEGMENT)). discriminate.
Defined.

End NavigationSessionFacts.
